(** * Aidien: the structured code-patch engine of [query_processor.py]

    A shallow embedding of [QueryProcessor._flexible_pattern],
    [QueryProcessor._apply_instruction] and
    [QueryProcessor._apply_instructions], together with the parts of
    Python's [str] and [re] they call, and the properties of the patch
    engine proved or refuted on that embedding.

    Python strings are sequences of Unicode code points; a code point is a
    number in [N].  The [re] module is modelled as CPython 3.7 and later
    behave (template escapes are checked, empty matches next to a match are
    substituted, [re.escape] quotes only the special characters; group
    names in a template are read as 3.12 reads them).

    A name, as the program spells it, leads to a file through the lookup
    of the system, so that two names can stand for one file and the lookup
    of a name can fail; [Path.exists] is that of Python 3.8 to 3.12, which
    lets such a failure out as an [OSError].  Text is read with universal
    newlines and written as it is (POSIX). *)

From Stdlib Require Import String Ascii NArith List Bool Lia.
From stdpp Require Import gmap list.

Local Open Scope N_scope.

(** ** Python [str] *)

Abbreviation pystr := (list N) (only parsing).

(** A literal of the source, as code points. *)
Definition str (x : string) : pystr := map N_of_ascii (list_ascii_of_string x).

Definition TAB : N := 9.
Definition LF : N := 10.
Definition CR : N := 13.
Definition SPACE : N := 32.
Definition BACKSLASH : N := 92.

Definition pystr_eqb (a b : pystr) : bool := bool_decide (a = b).

(** Truthiness of a [str]: the empty string is falsy. *)
Definition truthy (s : pystr) : bool :=
  match s with [] => false | _ => true end.

(** [str.isspace] on one code point, which is also what [\s] matches in a
    [str] pattern: the Unicode white space characters. *)
Definition is_space (c : N) : bool :=
  ((9 <=? c) && (c <=? 13)) || ((28 <=? c) && (c <=? 32))
  || (c =? 133) || (c =? 160) || (c =? 5760)
  || ((8192 <=? c) && (c <=? 8202))
  || (c =? 8232) || (c =? 8233) || (c =? 8239) || (c =? 8287) || (c =? 12288).

(** The line boundaries of [str.splitlines]: LF, CR, VT, FF, FS, GS, RS,
    NEL, LINE SEPARATOR and PARAGRAPH SEPARATOR. *)
Definition is_linebreak (c : N) : bool :=
  ((10 <=? c) && (c <=? 13)) || ((28 <=? c) && (c <=? 30))
  || (c =? 133) || (c =? 8232) || (c =? 8233).

(** [str.splitlines()]: the lines without their terminators; CR LF is one
    terminator, and a terminator at the very end opens no further line. *)
Fixpoint splitlines (s : pystr) : list pystr :=
  match s with
  | [] => []
  | c :: s' =>
      if is_linebreak c then
        if c =? CR then
          match s' with
          | d :: s'' => if d =? LF then [] :: splitlines s'' else [] :: splitlines s'
          | [] => [] :: splitlines s'
          end
        else [] :: splitlines s'
      else
        match splitlines s' with
        | [] => [[c]]
        | l :: ls => (c :: l) :: ls
        end
  end.

(** The longest prefix whose characters all satisfy [f], and what follows. *)
Fixpoint take_while (f : N -> bool) (s : pystr) : pystr :=
  match s with
  | c :: s' => if f c then c :: take_while f s' else []
  | [] => []
  end.

Fixpoint drop_while (f : N -> bool) (s : pystr) : pystr :=
  match s with
  | c :: s' => if f c then drop_while f s' else s
  | [] => []
  end.

(** [sep.join(parts)]. *)
Fixpoint str_join (sep : pystr) (parts : list pystr) : pystr :=
  match parts with
  | [] => []
  | [p] => p
  | p :: ps => p ++ sep ++ str_join sep ps
  end.

(** ** Python [re]: building patterns *)

(** The characters [re.escape] quotes: [()[]{}?*+-|^$\.&~#] and the ASCII
    white space SPACE, TAB, LF, CR, VT, FF. *)
Definition escape_special : list N :=
  str "()[]{}?*+-|^$\.&~# " ++ [9; 10; 13; 11; 12].

Definition needs_escape (c : N) : bool := bool_decide (c ∈ escape_special).

(** [re.escape(s)]. *)
Definition re_escape (s : pystr) : pystr :=
  flat_map (fun c => if needs_escape c then [BACKSLASH; c] else [c]) s.

(** [re.match] of the pattern [^], group [\s*], group [.*], [$] on a line,
    with no flags, as its two groups.  [\s*] is greedy and takes the
    longest white space prefix; [.] stops at LF; [$] holds at the end or before a final LF.  Giving back white space
    never helps, so the match exists exactly when what follows the white
    space prefix has no LF other than a last one. *)
Definition re_match_indent_content (line : pystr) : option (pystr * pystr) :=
  let indent := take_while is_space line in
  let rest := drop_while is_space line in
  let content := take_while (fun c => negb (c =? LF)) rest in
  match drop_while (fun c => negb (c =? LF)) rest with
  | [] => Some (indent, content)
  | [_] => Some (indent, content)
  | _ => None
  end.

(** [re.split(r'\s+', s)]: the pieces between the maximal runs of white
    space, empty pieces at the ends included. *)
Fixpoint re_split_ws (s : pystr) : list pystr :=
  match s with
  | [] => [[]]
  | c :: s' =>
      if is_space c then
        match s' with
        | d :: _ => if is_space d then re_split_ws s' else [] :: re_split_ws s'
        | [] => [] :: re_split_ws s'
        end
      else
        match re_split_ws s' with
        | [] => [[c]]
        | p :: ps => (c :: p) :: ps
        end
  end.

(** ** [QueryProcessor._flexible_pattern] *)

(** The body of the loop over the lines: the sub-pattern of one line. *)
Definition pattern_line_of (line : pystr) : pystr :=
  match re_match_indent_content line with
  | Some (indent, content) =>
      let tokens := re_split_ws content in
      let tokens := List.filter truthy tokens in
      match tokens with
      | token0 :: tokens1 =>
          fold_left (fun pattern_line token =>
                       pattern_line ++ str "\s+" ++ re_escape token)
                    tokens1 (re_escape indent ++ re_escape token0)
      | [] => re_escape indent
      end
  | None => re_escape line
  end.

Definition _flexible_pattern (text : pystr) : pystr :=
  let lines := splitlines text in
  let pattern_lines := map pattern_line_of lines in
  str_join (str "\r?\n") pattern_lines.

(** ** Python [re]: compiling and matching patterns *)

(** The tokens of the [re] tokenizer: one character, or a backslash with the
    character after it.  A backslash at the very end is an error. *)
Inductive tok :=
  | TChar (c : N)
  | TEsc (c : N).

Fixpoint tokenize (s : pystr) : option (list tok) :=
  match s with
  | [] => Some []
  | c :: s1 =>
      if c =? BACKSLASH then
        match s1 with
        | [] => None
        | e :: s2 => cons (TEsc e) <$> tokenize s2
        end
      else cons (TChar c) <$> tokenize s1
  end.

(** The part of the pattern language that [_flexible_pattern] writes: a
    sequence of one-character matchers, each taken once or under a greedy
    [?] or [+]. *)
Inductive charset :=
  | Literal (c : N)
  | CategorySpace.

Inductive repeat :=
  | Once
  | ZeroOrOne
  | OneOrMore.

Inductive op := Op (cs : charset) (r : repeat).

Definition regex := list op.

(** [SPECIAL_CHARS] of the pattern parser. *)
Definition is_special (c : N) : bool := bool_decide (c ∈ str ".\[{()*+?^$|").

Definition is_digit (c : N) : bool := (48 <=? c) && (c <=? 57).
Definition is_octdigit (c : N) : bool := (48 <=? c) && (c <=? 55).
Definition is_ascii_letter (c : N) : bool :=
  ((65 <=? c) && (c <=? 90)) || ((97 <=? c) && (c <=? 122)).

(** The meaning of a backslash pair in a pattern.  [None] stands for the
    pairs with a letter or a digit that are errors or that lie outside the
    modelled part (classes other than [\s], anchors, group references). *)
Definition escape_code (e : N) : option charset :=
  if e =? 115 then Some CategorySpace            (* \s *)
  else if e =? 110 then Some (Literal LF)        (* \n *)
  else if e =? 114 then Some (Literal CR)        (* \r *)
  else if e =? 116 then Some (Literal TAB)       (* \t *)
  else if e =? 102 then Some (Literal 12)        (* \f *)
  else if e =? 118 then Some (Literal 11)        (* \v *)
  else if e =? 97 then Some (Literal 7)          (* \a *)
  else if is_ascii_letter e || is_digit e then None
  else Some (Literal e).

Definition charset_of (t : tok) : option charset :=
  match t with
  | TChar c => if is_special c then None else Some (Literal c)
  | TEsc e => escape_code e
  end.

(** The parser on tokens: a one-character matcher and the repeat sign after
    it, if any.  A sign after a sign (lazy and possessive repeats) and every
    other special character end in [None]. *)
Fixpoint parse_tokens (ts : list tok) : option regex :=
  match ts with
  | [] => Some []
  | t :: ts1 =>
      match charset_of t with
      | None => None
      | Some cs =>
          match ts1 with
          | TChar q :: ts2 =>
              if q =? 43 then cons (Op cs OneOrMore) <$> parse_tokens ts2
              else if q =? 63 then cons (Op cs ZeroOrOne) <$> parse_tokens ts2
              else cons (Op cs Once) <$> parse_tokens ts1
          | _ => cons (Op cs Once) <$> parse_tokens ts1
          end
      end
  end.

(** [re.compile(pattern, re.MULTILINE | re.DOTALL)] on the modelled part of
    the pattern language; the two flags only change [^], [$] and [.], which
    that part does not have.  [None]: [re.error], or a pattern outside it. *)
Definition re_compile (pattern : pystr) : option regex :=
  ts ← tokenize pattern; parse_tokens ts.

Definition accepts (cs : charset) (c : N) : bool :=
  match cs with
  | Literal l => c =? l
  | CategorySpace => is_space c
  end.

(** A greedy [+]: as many characters of the set as possible, then one
    fewer each time the rest of the pattern, [k], fails. *)
Fixpoint match_many (cs : charset) (k : pystr -> option pystr) (s : pystr)
  : option pystr :=
  match s with
  | c :: s' =>
      if accepts cs c then
        match match_many cs k s' with
        | Some r => Some r
        | None => k s'
        end
      else None
  | [] => None
  end.

(** The backtracking matcher at one position: the text left after the match
    that the engine finds first, trying the longer repeats first.  [ok] is
    the test made when the end of the pattern is reached; a match that fails
    it is given up and the search backtracks. *)
Fixpoint match_here (re : regex) (s : pystr) (ok : pystr -> bool) : option pystr :=
  match re with
  | [] => if ok s then Some s else None
  | Op cs Once :: re' =>
      match s with
      | c :: s' => if accepts cs c then match_here re' s' ok else None
      | [] => None
      end
  | Op cs ZeroOrOne :: re' =>
      let taken :=
        match s with
        | c :: s' => if accepts cs c then match_here re' s' ok else None
        | [] => None
        end in
      match taken with
      | Some r => Some r
      | None => match_here re' s ok
      end
  | Op cs OneOrMore :: re' =>
      match_many cs (fun s' => match_here re' s' ok) s
  end.

(** The end-of-pattern test of the engine: with [must_advance] set, a match
    that ends where it started is refused. *)
Definition advance_ok (must_advance : bool) (s r : pystr) : bool :=
  negb (must_advance && (length r =? length s)%nat).

(** [pattern.search] from the start of [s]: the text before the leftmost
    match, the matched text and the text after it.  [must_advance] only
    binds at the first position tried. *)
Fixpoint re_search (re : regex) (s : pystr) (must_advance : bool)
  : option (pystr * pystr * pystr) :=
  match match_here re s (advance_ok must_advance s) with
  | Some r => Some ([], take (length s - length r)%nat s, r)
  | None =>
      match s with
      | [] => None
      | c :: s' =>
          '(before, m, after) ← re_search re s' false;
          Some (c :: before, m, after)
      end
  end.

(** ** Python [re]: replacement templates *)

Inductive titem :=
  | TLit (c : N)
  | TGroup0.

(** The value of the escapes [\a \b \f \n \r \t \v \\] in a template. *)
Definition template_escape (c : N) : option N :=
  if c =? 97 then Some 7
  else if c =? 98 then Some 8
  else if c =? 102 then Some 12
  else if c =? 110 then Some LF
  else if c =? 114 then Some CR
  else if c =? 116 then Some TAB
  else if c =? 118 then Some 11
  else if c =? BACKSLASH then Some BACKSLASH
  else None.

Definition octal (c : N) : N := c - 48.

(** [parse_template] for a pattern without groups.  [\g<0>] (any number of
    zeros) is the whole match and every other group reference is an error;
    [\0], [\0d], [\0dd] and [\ddd] are octal escapes; a letter that is not
    an escape is an error; any other pair stays as its two characters. *)
Fixpoint parse_template (ts : list tok) : option (list titem) :=
  match ts with
  | [] => Some []
  | TChar c :: ts1 => cons (TLit c) <$> parse_template ts1
  | TEsc c :: ts1 =>
      if c =? 103 then
        match ts1 with
        | TChar lt :: ts2 =>
            if lt =? 60 then
              (fix name (seen : bool) (ts : list tok) : option (list titem) :=
                 match ts with
                 | TChar d :: ts' =>
                     if d =? 62 then
                       if seen then cons TGroup0 <$> parse_template ts' else None
                     else if d =? 48 then name true ts'
                     else None
                 | _ => None
                 end) false ts2
            else None
        | _ => None
        end
      else if c =? 48 then
        match ts1 with
        | TChar d :: ts2 =>
            if is_octdigit d then
              match ts2 with
              | TChar e :: ts3 =>
                  if is_octdigit e
                  then cons (TLit (N.land (64 * octal c + 8 * octal d + octal e) 255))
                         <$> parse_template ts3
                  else cons (TLit (octal d)) <$> parse_template ts2
              | _ => cons (TLit (octal d)) <$> parse_template ts2
              end
            else cons (TLit 0) <$> parse_template ts1
        | _ => cons (TLit 0) <$> parse_template ts1
        end
      else if is_digit c then
        match ts1 with
        | TChar d :: TChar e :: ts3 =>
            if is_octdigit c && is_octdigit d && is_octdigit e then
              let v := 64 * octal c + 8 * octal d + octal e in
              if v <=? 255 then cons (TLit v) <$> parse_template ts3 else None
            else None
        | _ => None
        end
      else
        match template_escape c with
        | Some v => cons (TLit v) <$> parse_template ts1
        | None =>
            if is_ascii_letter c then None
            else (fun t => TLit BACKSLASH :: TLit c :: t) <$> parse_template ts1
        end
  end.

(** The replacement text of one match. *)
Definition expand (t : list titem) (m : pystr) : pystr :=
  flat_map (fun i => match i with TLit c => [c] | TGroup0 => m end) t.

(** The loop of [pattern.subn]: search from where the last match ended,
    copy the text before the match, then the replacement; after an empty
    match the next one must advance.  The text and the number of
    substitutions.  Every round but the one after an empty match shortens
    the text, so [fuel] above twice its length is never used up. *)
Fixpoint subn_loop (fuel : nat) (re : regex) (filter : pystr -> pystr)
    (s : pystr) (must_advance : bool) : pystr * nat :=
  match fuel with
  | O => (s, O)
  | S fuel' =>
      match re_search re s must_advance with
      | None => (s, O)
      | Some (before, m, after) =>
          let '(out, n) := subn_loop fuel' re filter after (negb (truthy m)) in
          (before ++ filter m ++ out, S n)
      end
  end.

(** ** Exceptions and the log *)

Inductive exn :=
  | re_error      (* re.error, or IndexError for an unknown group name *)
  | io_error.     (* OSError of a lookup, of open, read or write, or
                     UnicodeError *)

Inductive result (A : Type) :=
  | Ok (a : A)
  | Raise (e : exn).
Arguments Ok {A} a.
Arguments Raise {A} e.

(** [pattern.subn(repl, string)]: the template is parsed first, and an
    error in it is raised whether or not the pattern matches. *)
Definition pattern_subn (re : regex) (repl string : pystr) : result (pystr * nat) :=
  match ts ← tokenize repl; parse_template ts with
  | None => Raise re_error
  | Some t => Ok (subn_loop (2 * length string + 2) re (expand t) string false)
  end.

(** ** [CodeInstruction] (models.py) *)

Record CodeInstruction := {
  type : pystr;
  filename : pystr;
  find : pystr;
  replace : pystr;
  write : pystr;
  delete : pystr
}.

(** The records handed to [self.logger]. *)
Inductive log_record :=
  | warning_no_matches (kind find : pystr)
  | warning_file_not_found (filename : pystr)
  | info_updated (filename : pystr)
  | exception_updating (filename : pystr) (e : exn).

(** [match.end()] of a search result. *)
Definition match_end (mt : pystr * pystr * pystr) : nat :=
  let '(before, m, _) := mt in (length before + length m)%nat.

(** ** [QueryProcessor._apply_instruction]

    The new content and the warnings logged, or the exception raised. *)
Definition _apply_instruction (instruction : CodeInstruction) (content : pystr)
  : result (pystr * list log_record) :=
  let instr_type := type instruction in
  let find := find instruction in
  let replace := replace instruction in
  let write_text := write instruction in
  let compiled :=
    if truthy find then
      let pattern_str := _flexible_pattern find in
      match re_compile pattern_str with
      | Some pattern => Ok (Some pattern)
      | None => Raise re_error
      end
    else Ok None in
  match compiled with
  | Raise e => Raise e
  | Ok pattern =>
      if pystr_eqb instr_type (str "update") && truthy find && truthy replace then
        match pattern with
        | Some pattern =>
            match pattern_subn pattern replace content with
            | Raise e => Raise e
            | Ok (updated_content, num_subs) =>
                Ok (updated_content,
                    if (num_subs =? 0)%nat
                    then [warning_no_matches (str "update") find] else [])
            end
        | None => Ok (content, [])
        end
      else if pystr_eqb instr_type (str "insert") && truthy find && truthy write_text then
        match pattern with
        | Some pattern =>
            match re_search pattern content false with
            | Some mt =>
                let pos := match_end mt in
                Ok (take pos content ++ [LF] ++ write_text ++ drop pos content, [])
            | None => Ok (content, [warning_no_matches (str "insert") find])
            end
        | None => Ok (content, [])
        end
      else if pystr_eqb instr_type (str "delete") && truthy find then
        match pattern with
        | Some pattern =>
            match pattern_subn pattern [] content with
            | Raise e => Raise e
            | Ok (updated_content, num_subs) =>
                Ok (updated_content,
                    if (num_subs =? 0)%nat
                    then [warning_no_matches (str "delete") find] else [])
            end
        | None => Ok (content, [])
        end
      else Ok (content, [])
  end.

(** ** Files and the logger

    A file holds text; it may refuse to be opened for reading or for
    writing (permissions, a directory).  A name is looked up by the system:
    it leads to a place, where a file is or could be made, or to nothing,
    or the lookup itself fails.  Two names can lead to one place ([a.py]
    and [./a.py], a link).  The state the engine runs in is the lookup, the
    files by their places and the records logged so far. *)
Record file := {
  contents : pystr;
  readable : bool;
  writable : bool
}.

Inductive lookup :=
  | leads_to (place : pystr)
  | no_entry       (* ENOENT on the way, ENOTDIR, EBADF, ELOOP; a name that
                      cannot be encoded *)
  | lookup_fails.  (* any other OSError: ENAMETOOLONG, EACCES, ... *)

Record world := {
  resolve : pystr -> lookup;
  files : gmap (list N) file;
  log : list log_record
}.

Definition set_files (w : world) (fs : gmap (list N) file) : world :=
  {| resolve := resolve w; files := fs; log := log w |}.

Definition add_log (w : world) (records : list log_record) : world :=
  {| resolve := resolve w; files := files w; log := log w ++ records |}.

Definition set_contents (fl : file) (c : pystr) : file :=
  {| contents := c; readable := readable fl; writable := writable fl |}.

(** A computation on the world that returns or raises. *)
Definition M (A : Type) : Type := world -> world * result A.

Definition ret {A} (a : A) : M A := fun w => (w, Ok a).

Definition bind {A B} (m : M A) (k : A -> M B) : M B :=
  fun w =>
    match m w with
    | (w', Ok a) => k a w'
    | (w', Raise e) => (w', Raise e)
    end.

(** [try: body except Exception as e: handler(e)]. *)
Definition try_except {A} (body : M A) (handler : exn -> M A) : M A :=
  fun w =>
    match body w with
    | (w', Ok a) => (w', Ok a)
    | (w', Raise e) => handler e w'
    end.

Notation "x <- m ;; k" := (bind m (fun x => k))
  (at level 100, m at next level, right associativity).
Notation "m ;;; k" := (bind m (fun _ => k))
  (at level 100, right associativity).

Definition logger (r : log_record) : M unit :=
  fun w => (add_log w [r], Ok tt).

(** [Path(filename).exists()]: whether [stat] finds a file.  An [OSError]
    of [stat] that says there is nothing is answered with [False], as is a
    name that cannot be encoded; any other [OSError] is raised. *)
Definition path_exists (filename : pystr) : M bool :=
  fun w =>
    match resolve w filename with
    | leads_to place => (w, Ok (bool_decide (is_Some (files w !! place))))
    | no_entry => (w, Ok false)
    | lookup_fails => (w, Raise io_error)
    end.

(** A code point that UTF-8 can carry: not a surrogate. *)
Definition utf8_ok (c : N) : bool :=
  negb ((55296 <=? c) && (c <=? 57343)) && (c <=? 1114111).

(** Reading in text mode turns CR LF and CR into LF. *)
Fixpoint universal_newlines (s : pystr) : pystr :=
  match s with
  | [] => []
  | c :: s' =>
      if c =? CR then
        LF :: match s' with
              | d :: s'' => if d =? LF then universal_newlines s''
                            else universal_newlines s'
              | [] => []
              end
      else c :: universal_newlines s'
  end.

(** [with open(path, 'r', encoding='utf-8') as f: f.read()]. *)
Definition read_text (filename : pystr) : M pystr :=
  fun w =>
    match resolve w filename with
    | leads_to place =>
        match files w !! place with
        | Some fl =>
            if readable fl && forallb utf8_ok (contents fl)
            then (w, Ok (universal_newlines (contents fl)))
            else (w, Raise io_error)
        | None => (w, Raise io_error)
        end
    | no_entry | lookup_fails => (w, Raise io_error)
    end.

(** [with open(path, 'w', encoding='utf-8') as f: f.write(content)].
    Opening makes the file when there is none at the place, and truncates
    it, so text that cannot be encoded leaves it empty.  Line ends are
    written as they are (POSIX). *)
Definition write_text (filename content : pystr) : M unit :=
  fun w =>
    match resolve w filename with
    | leads_to place =>
        match files w !! place with
        | Some fl =>
            if writable fl then
              if forallb utf8_ok content
              then (set_files w (<[place := set_contents fl content]> (files w)), Ok tt)
              else (set_files w (<[place := set_contents fl []]> (files w)), Raise io_error)
            else (w, Raise io_error)
        | None =>
            let fl := {| contents := []; readable := true; writable := true |} in
            if forallb utf8_ok content
            then (set_files w (<[place := set_contents fl content]> (files w)), Ok tt)
            else (set_files w (<[place := fl]> (files w)), Raise io_error)
        end
    | no_entry | lookup_fails => (w, Raise io_error)
    end.

(** ** [QueryProcessor._apply_instructions] *)

(** [instructions_by_file[k].append(v)] on a [defaultdict(list)], whose
    items keep the order in which the keys came in. *)
Fixpoint dict_append (d : list (pystr * list CodeInstruction)) (k : pystr)
    (v : CodeInstruction) : list (pystr * list CodeInstruction) :=
  match d with
  | [] => [(k, [v])]
  | (k', vs) :: d' =>
      if pystr_eqb k' k then (k', vs ++ [v]) :: d'
      else (k', vs) :: dict_append d' k v
  end.

Definition group_by_file (instructions : list CodeInstruction)
  : list (pystr * list CodeInstruction) :=
  fold_left (fun instructions_by_file instr =>
               if truthy (filename instr)
               then dict_append instructions_by_file (filename instr) instr
               else instructions_by_file)
            instructions [].

(** One call of [_apply_instruction] in the world: its warnings go to the
    log. *)
Definition apply_logged (instruction : CodeInstruction) (content : pystr) : M pystr :=
  fun w =>
    match _apply_instruction instruction content with
    | Ok (content', records) => (add_log w records, Ok content')
    | Raise e => (w, Raise e)
    end.

(** [for instruction in file_instructions: content = ...]. *)
Fixpoint apply_each (file_instructions : list CodeInstruction) (content : pystr)
  : M pystr :=
  match file_instructions with
  | [] => ret content
  | instruction :: rest =>
      content <- apply_logged instruction content ;;
      apply_each rest content
  end.

(** The body of the loop over the files. *)
Definition process_file (item : pystr * list CodeInstruction) : M unit :=
  let '(filename, file_instructions) := item in
  there <- path_exists filename ;;
  if negb there then logger (warning_file_not_found filename)
  else
    try_except
      (content <- read_text filename ;;
       content <- apply_each file_instructions content ;;
       write_text filename content ;;;
       logger (info_updated filename))
      (fun e => logger (exception_updating filename e)).

Fixpoint for_each {A} (items : list A) (body : A -> M unit) : M unit :=
  match items with
  | [] => ret tt
  | item :: rest => body item ;;; for_each rest body
  end.

Definition _apply_instructions (instructions : list CodeInstruction) : M unit :=
  let instructions_by_file := group_by_file instructions in
  for_each instructions_by_file process_file.

(** ** What a pattern matches

    The texts a compiled pattern can match, whatever the order in which the
    engine tries them. *)
Inductive matches : regex -> pystr -> Prop :=
  | matches_nil : matches [] []
  | matches_once cs c re m :
      accepts cs c = true -> matches re m ->
      matches (Op cs Once :: re) (c :: m)
  | matches_take cs c re m :
      accepts cs c = true -> matches re m ->
      matches (Op cs ZeroOrOne :: re) (c :: m)
  | matches_skip cs re m :
      matches re m ->
      matches (Op cs ZeroOrOne :: re) m
  | matches_many cs w re m :
      w <> [] -> forallb (accepts cs) w = true -> matches re m ->
      matches (Op cs OneOrMore :: re) (w ++ m).

(** The pattern of a text taken literally. *)
Definition lits (s : pystr) : regex := map (fun c => Op (Literal c) Once) s.

(** [text] occurs somewhere in [s]. *)
Definition occurs_in (text s : pystr) : Prop :=
  exists pre post, s = pre ++ text ++ post.

(** The compiled pattern matches somewhere in [s]. *)
Definition matches_in (re : regex) (s : pystr) : Prop :=
  exists pre m post, s = pre ++ m ++ post /\ matches re m.

(** Enough fuel for [subn_loop] on [s]. *)
Definition enough (s : pystr) (must_advance : bool) : nat :=
  (2 * length s + (if must_advance then 1 else 2))%nat.

(** ** The compiled form of a flexible pattern

    What [re.compile] makes of the string [_flexible_pattern] writes, given
    directly from the lines of the snippet. *)
Definition space_plus : op := Op CategorySpace OneOrMore.

Definition newline_ops : regex := [Op (Literal CR) ZeroOrOne; Op (Literal LF) Once].

Definition line_regex (line : pystr) : regex :=
  match re_match_indent_content line with
  | Some (indent, content) =>
      match List.filter truthy (re_split_ws content) with
      | token0 :: tokens1 =>
          lits indent ++ lits token0
          ++ flat_map (fun token => space_plus :: lits token) tokens1
      | [] => lits indent
      end
  | None => lits line
  end.

Fixpoint join_regex (lines : list regex) : regex :=
  match lines with
  | [] => []
  | [l] => l
  | l :: ls => l ++ newline_ops ++ join_regex ls
  end.

Definition pattern_of (text : pystr) : regex :=
  join_regex (map line_regex (splitlines text)).

(** A pattern string that does not start with a repeat sign. *)
Definition clean (p : pystr) : Prop :=
  match p with
  | c :: _ => c <> 43 /\ c <> 63
  | [] => True
  end.

(** The piece [p] of a pattern string compiles to [r] in front of whatever
    follows it. *)
Definition compiles (p : pystr) (r : regex) : Prop :=
  forall rest rr,
    clean rest -> re_compile rest = Some rr ->
    re_compile (p ++ rest) = Some (r ++ rr) /\ clean (p ++ rest).

(** [text in s] of Python, for the statements about occurrences. *)
Fixpoint startswith (s text : pystr) {struct text} : bool :=
  match text, s with
  | [], _ => true
  | c :: text', d :: s' => (c =? d) && startswith s' text'
  | _ :: _, [] => false
  end.

Fixpoint contains (s text : pystr) : bool :=
  startswith s text ||
  match s with
  | [] => false
  | _ :: s' => contains s' text
  end.

(** Instructions of the three kinds, for the examples. *)
Definition Update (filename find replace : string) : CodeInstruction :=
  {| type := str "update"; filename := str filename; find := str find;
     replace := str replace; write := []; delete := [] |}.

Definition Insert (filename find write : string) : CodeInstruction :=
  {| type := str "insert"; filename := str filename; find := str find;
     replace := []; write := str write; delete := [] |}.

Definition Delete (filename find : string) : CodeInstruction :=
  {| type := str "delete"; filename := str filename; find := str find;
     replace := []; write := []; delete := str find |}.

(** The leading white space of a line. *)
Definition indent_of (line : pystr) : pystr := take_while is_space line.

(** [m] is the segments [segs] in order with LF or CR LF between each two. *)
Inductive joined : list pystr -> pystr -> Prop :=
  | joined_nil : joined [] []
  | joined_one seg : joined [seg] seg
  | joined_lf seg segs m :
      segs <> [] -> joined segs m ->
      joined (seg :: segs) (seg ++ [LF] ++ m)
  | joined_crlf seg segs m :
      segs <> [] -> joined segs m ->
      joined (seg :: segs) (seg ++ [CR; LF] ++ m).

(** ** One file group, without the world

    The instructions of a group folded over the content from left to right,
    the output of each being the input of the next. *)
Fixpoint fold_apply (file_instructions : list CodeInstruction) (content : pystr)
  : result pystr :=
  match file_instructions with
  | [] => Ok content
  | instruction :: rest =>
      match _apply_instruction instruction content with
      | Ok (content', _) => fold_apply rest content'
      | Raise e => Raise e
      end
  end.

(** The instructions of a batch that name the file [f], in batch order. *)
Definition group_of (f : pystr) (instructions : list CodeInstruction)
  : list CodeInstruction :=
  List.filter (fun i => pystr_eqb (filename i) f) instructions.

(** The list a [defaultdict(list)] holds under a key. *)
Fixpoint dict_get (d : list (pystr * list CodeInstruction)) (k : pystr)
  : list CodeInstruction :=
  match d with
  | [] => []
  | (k', vs) :: d' => if pystr_eqb k' k then vs else dict_get d' k
  end.

(** A world for the examples: readable and writable files, every name
    leading to the place of that name, an empty log. *)
Definition plain_file (text : string) : file :=
  {| contents := str text; readable := true; writable := true |}.

Definition named (name text : string) : list N * file :=
  (str name, plain_file text).

Definition world_of (fs : list (list N * file)) : world :=
  {| resolve := leads_to; files := list_to_map fs; log := [] |}.

(** The same world, in which the name [other] leads to the place of the
    name [name] as well: two spellings of one path, or a link. *)
Definition with_alias (other name : string) (w : world) : world :=
  {| resolve := fun n => if pystr_eqb n (str other) then leads_to (str name)
                         else resolve w n;
     files := files w; log := log w |}.

(** The same world, in which a name of more than 255 characters cannot be
    looked up (ENAMETOOLONG). *)
Definition with_name_limit (w : world) : world :=
  {| resolve := fun n => if (255 <? length n)%nat then lookup_fails
                         else resolve w n;
     files := files w; log := log w |}.

(** ** Replacement templates *)

(** The template [pattern.subn] reads from its replacement string, when
    the string is a well-formed one. *)
Definition template_of (repl : pystr) : option (list titem) :=
  ts ← tokenize repl; parse_template ts.

(** The instruction takes the branch of [_apply_instruction] that hands
    [replace] to [pattern.subn]. *)
Definition reads_template (i : CodeInstruction) : bool :=
  pystr_eqb (type i) (str "update") && truthy (find i) && truthy (replace i).

(** * More of the engine and of the file processor *)

(** ** The batch as a whole *)

(** The batch names the file [f] in an instruction that is not dropped. *)
Definition targets (instructions : list CodeInstruction) (f : pystr) : bool :=
  truthy f && existsb (fun i => pystr_eqb (filename i) f) instructions.

(** The file a group leaves behind: rewritten when it could be read, every
    instruction returned and it could be opened for writing (emptied when
    the new text cannot be encoded), and as it was otherwise. *)
Definition file_after (before : option file)
    (file_instructions : list CodeInstruction) : option file :=
  match before with
  | None => None
  | Some fl =>
      if readable fl && forallb utf8_ok (contents fl) then
        match fold_apply file_instructions (universal_newlines (contents fl)) with
        | Ok content' =>
            if writable fl
            then Some (set_contents fl (if forallb utf8_ok content' then content' else []))
            else Some fl
        | Raise _ => Some fl
        end
      else Some fl
  end.

(** The keys of a dict filled in the order of [names]: each name once, where
    it first came. *)
Definition first_seen (names : list pystr) : list pystr :=
  fold_left (fun seen k => if bool_decide (k ∈ seen) then seen else seen ++ [k])
            names [].

(** ** The matches of one pass over a text *)

(** A text cut into the stretches before each match, the matches, and the
    rest after the last match; and the same with something else in place of
    the matches. *)
Definition pieces_text (parts : list (pystr * pystr)) (tail : pystr) : pystr :=
  flat_map (fun p => fst p ++ snd p) parts ++ tail.

Definition pieces_with (repl : pystr) (parts : list (pystr * pystr))
    (tail : pystr) : pystr :=
  flat_map (fun p => fst p ++ repl) parts ++ tail.

(** [parts] and [tail] are the cut of [s] at the matches of [re] taken from
    left to right: each match is non-empty, no match starts before it in
    what was left of the text, and no match is left in the tail. *)
Inductive scanned (re : regex) : pystr -> list (pystr * pystr) -> pystr -> Prop :=
  | scanned_done s :
      ~ matches_in re s -> scanned re s [] s
  | scanned_step s b m a parts tail :
      s = b ++ m ++ a -> matches re m -> m <> [] ->
      (forall pre' m' post',
         s = pre' ++ m' ++ post' -> matches re m' ->
         (length b <= length pre')%nat) ->
      scanned re a parts tail ->
      scanned re s ((b, m) :: parts) tail.

(** An operation that takes at least one character. *)
Definition consuming (o : op) : bool :=
  match o with
  | Op _ ZeroOrOne => false
  | _ => true
  end.

(** ** Words and clean lines *)

(** [s.split()]: the words of [s], the maximal runs of characters that are
    no white space. *)
Fixpoint str_split (s : pystr) : list pystr :=
  match s with
  | [] => []
  | c :: s' =>
      if is_space c then str_split s'
      else
        match s' with
        | d :: _ =>
            if is_space d then [c] :: str_split s'
            else
              match str_split s' with
              | w :: ws => (c :: w) :: ws
              | [] => [[c]]
              end
        | [] => [[c]]
        end
  end.

(** A line that is all white space, or does not end in white space. *)
Definition line_ends_clean (line : pystr) : bool :=
  forallb is_space line ||
  match last line with
  | Some c => negb (is_space c)
  | None => true
  end.

(** A text whose only line ends are LF and CR LF. *)
Fixpoint only_lf_crlf (s : pystr) : bool :=
  match s with
  | [] => true
  | c :: s' =>
      if c =? CR then
        match s' with
        | d :: s'' => (d =? LF) && only_lf_crlf s''
        | [] => false
        end
      else (negb (is_linebreak c) || (c =? LF)) && only_lf_crlf s'
  end.

(** The pattern of the pieces of a split, white space between each two. *)
Definition pieces_regex (ps : list pystr) : regex :=
  match ps with
  | p0 :: rest => lits p0 ++ flat_map (fun p => space_plus :: lits p) rest
  | [] => []
  end.

(** ** Tokens and the white space between them *)

(** The text ends in a character of a token; the text starts with one. *)
Definition ends_in_token (s : pystr) : bool :=
  match last s with
  | Some c => negb (is_space c)
  | None => false
  end.

Definition starts_with_token (s : pystr) : bool :=
  match s with
  | c :: _ => negb (is_space c)
  | [] => false
  end.

(** A non-empty run of white space that holds no line boundary: what
    stands between two tokens of one line. *)
Definition inline_space (g : pystr) : bool :=
  truthy g && forallb (fun c => is_space c && negb (is_linebreak c)) g.

(** ** [FileProcessor] (file_processor.py) *)

Module FileProcessor.

Local Open Scope Z_scope.

(** The class attribute [SUPPORTED_LANGUAGES]: file extensions and the names
    of their languages.  No key is written twice. *)
Definition SUPPORTED_LANGUAGES : gmap (list N) (list N) :=
  list_to_map
    [ (str "py", str "python"); (str "js", str "javascript");
      (str "ts", str "typescript"); (str "java", str "java");
      (str "cpp", str "cpp"); (str "c", str "c"); (str "cs", str "csharp");
      (str "go", str "go"); (str "rs", str "rust"); (str "swift", str "swift");
      (str "php", str "php"); (str "rb", str "ruby"); (str "html", str "html");
      (str "css", str "css"); (str "scss", str "scss"); (str "json", str "json");
      (str "yaml", str "yaml"); (str "toml", str "toml"); (str "sql", str "sql") ].

(** The chunking parameters of an instance, Python integers. *)
Record t := {
  chunk_min_words : Z;
  chunk_max_words : Z;
  chunk_overlap_words : Z
}.

(** The parameters [__init__] takes by default. *)
Definition defaults : t :=
  {| chunk_min_words := 500; chunk_max_words := 1000; chunk_overlap_words := 200 |}.

(** The dictionary of one chunk. *)
Record chunk_info := {
  filename : list N;
  start_idx : Z;
  end_idx : Z;
  code : list N
}.

(** The records handed to the logger of the file processor. *)
Inductive log_record :=
  | info_found (count : nat)
  | info_split (filename : list N) (count : nat)
  | exception_processing (filename : list N).

(** An index of a slice brought into the list: a negative index counts
    from the end, and both ends are clipped. *)
Definition slice_index (len i : Z) : Z :=
  if i <? 0 then Z.max (i + len) 0 else Z.min i len.

(** [l[start:stop]]. *)
Definition py_slice {A} (l : list A) (start stop : Z) : list A :=
  let len := Z.of_nat (length l) in
  let a := slice_index len start in
  let b := slice_index len stop in
  take (Z.to_nat (b - a)) (drop (Z.to_nat a) l).

(** The [while] loop of [chunk_file], from [start_idx] on.  Each round moves
    [start_idx] forward by one at least, so there are no more rounds than
    words; [fuel] counts them. *)
Fixpoint chunk_loop (fuel : nat) (self : t) (fname : list N)
    (words : list (list N)) (start_idx : Z) : list chunk_info :=
  match fuel with
  | O => []
  | S fuel' =>
      let total_words := Z.of_nat (length words) in
      if start_idx <? total_words then
        let end_idx := Z.min (start_idx + chunk_max_words self) total_words in
        let chunk_words := py_slice words start_idx end_idx in
        if (Z.of_nat (length chunk_words) <? chunk_min_words self)
           && (0 <? start_idx)
        then []
        else
          let chunk_code := str_join [SPACE] chunk_words in
          let chunk :=
            {| filename := fname; start_idx := start_idx + 1;
               end_idx := end_idx; code := chunk_code |} in
          let step :=
            Z.max (chunk_max_words self - chunk_overlap_words self) 1 in
          let start_idx := start_idx + step in
          chunk :: (if total_words <=? start_idx then []
                    else chunk_loop fuel' self fname words start_idx)
      else []
  end.

(** [chunk_file]: the chunks and the record logged, or the exception of the
    read, logged and raised again. *)
Definition chunk_file (self : t) (fname : list N) (w : world)
  : result (list chunk_info) * list log_record :=
  match snd (read_text fname w) with
  | Ok content =>
      let words := str_split content in
      let chunks := chunk_loop (length words) self fname words 0 in
      (Ok chunks, [info_split fname (length chunks)])
  | Raise e => (Raise e, [exception_processing fname])
  end.

(** The step between the starts of two chunks. *)
Definition step (self : t) : Z :=
  Z.max (chunk_max_words self - chunk_overlap_words self) 1.

End FileProcessor.

(** The words [chunk_file] cuts into chunks: those of the file as read. *)
Definition file_words (fname : list N) (w : world) : list (list N) :=
  match snd (read_text fname w) with
  | Ok content => str_split content
  | Raise _ => []
  end.

(** ** The language of a file, [tree_sitter_utils.py] *)

Definition DOT : N := 46.

(** [s.split(sep)] for a separator of one character: the pieces between the
    separators, empty ones too, and one piece at least. *)
Fixpoint str_split_on (sep : N) (s : pystr) : list pystr :=
  match s with
  | [] => [[]]
  | c :: s' =>
      if c =? sep then [] :: str_split_on sep s'
      else
        match str_split_on sep s' with
        | p :: ps => (c :: p) :: ps
        | [] => [[c]]
        end
  end.

(** [detect_language]: the entry of [SUPPORTED_LANGUAGES] for the last piece
    of the name split at its dots, [None] when there is none.  The last
    piece is always there, [split] giving one piece at least. *)
Definition detect_language (filename : pystr) : option pystr :=
  match last (str_split_on DOT filename) with
  | Some ext => FileProcessor.SUPPORTED_LANGUAGES !! ext
  | None => None
  end.

(** * The matcher *)

Section Matcher.

Implicit Types (re : regex) (s r m : pystr) (ok : pystr -> bool).

Lemma match_here_sound re : forall s ok r,
  match_here re s ok = Some r ->
  ok r = true /\ exists m, s = m ++ r /\ matches re m.
Proof.
  induction re as [|[cs [| |]] re IH]; intros s ok r; simpl.
  - destruct (ok s) eqn:E; [|discriminate].
    intros [= <-]. split; [done|]. exists []. split; [done|constructor].
  - destruct s as [|c s]; [discriminate|].
    destruct (accepts cs c) eqn:E; [|discriminate].
    intros H. apply IH in H as (Hok & m & -> & Hm).
    split; [done|]. exists (c :: m). split; [done|by constructor].
  - destruct s as [|c s].
    + intros H. apply IH in H as (Hok & m & -> & Hm).
      split; [done|]. exists m. split; [done|by constructor].
    + destruct (accepts cs c) eqn:E.
      * destruct (match_here re s ok) as [r'|] eqn:E'.
        -- intros [= <-]. apply IH in E' as (Hok & m & -> & Hm).
           split; [done|]. exists (c :: m). split; [done|by constructor].
        -- intros H. apply IH in H as (Hok & m & -> & Hm).
           split; [done|]. exists m. split; [done|by constructor].
      * intros H. apply IH in H as (Hok & m & -> & Hm).
        split; [done|]. exists m. split; [done|by constructor].
  - revert r. induction s as [|c s IHs]; intros r; simpl; [discriminate|].
    destruct (accepts cs c) eqn:E; [|discriminate].
    destruct (match_many cs _ s) as [r'|] eqn:E'.
    + intros [= <-]. destruct (IHs r' eq_refl) as (Hok & m & -> & Hm).
      split; [done|]. inversion Hm; subst.
      exists ((c :: w) ++ m0). split; [done|].
      constructor; [done| |done]. simpl. by rewrite E.
    + intros H. apply IH in H as (Hok & m & -> & Hm).
      split; [done|]. exists ([c] ++ m). split; [done|].
      constructor; [done| |done]. simpl. by rewrite E.
Qed.

Lemma match_here_complete re m :
  matches re m ->
  forall r ok, ok r = true -> is_Some (match_here re (m ++ r) ok).
Proof.
  induction 1 as [|cs c re m Hc Hm IH|cs c re m Hc Hm IH|cs re m Hm IH
                 |cs w re m Hw Hall Hm IH]; intros r ok Hok; simpl.
  - by rewrite Hok.
  - rewrite Hc. by apply IH.
  - rewrite Hc. destruct (IH r ok Hok) as [x ->]. done.
  - destruct (m ++ r) as [|c s] eqn:E.
    + rewrite <- E. by apply IH.
    + destruct (accepts cs c); [|rewrite <- E; by apply IH].
      destruct (match_here re s ok); [done|]. rewrite <- E. by apply IH.
  - induction w as [|c w IHw]; [done|].
    simpl in Hall. apply andb_prop in Hall as [Hc Hall].
    simpl. rewrite Hc.
    destruct w as [|d w].
    + simpl. destruct (match_many cs _ (m ++ r)); [done|by apply IH].
    + destruct (IHw ltac:(done) Hall) as [x Hx]. by rewrite Hx.
Qed.

End Matcher.

(** * Searching *)

Section Searching.

Implicit Types (re : regex) (s b m a : pystr) (adv : bool).

Lemma re_search_eq re s adv :
  re_search re s adv =
  match match_here re s (advance_ok adv s) with
  | Some r => Some ([], take (length s - length r)%nat s, r)
  | None =>
      match s with
      | [] => None
      | c :: s' =>
          '(before, m, after) ← re_search re s' false;
          Some (c :: before, m, after)
      end
  end.
Proof. by destruct s. Qed.

Lemma advance_ok_true adv m r :
  (adv = true -> m <> []) -> advance_ok adv (m ++ r) r = true.
Proof.
  unfold advance_ok. destruct adv; [|done]. intros H. simpl.
  apply negb_true_iff, Nat.eqb_neq. rewrite length_app.
  destruct m; [by destruct H|]. simpl. lia.
Qed.

Lemma advance_ok_inv adv m r :
  advance_ok adv (m ++ r) r = true -> adv = true -> m <> [].
Proof.
  unfold advance_ok. intros H -> ->. simpl in H.
  by rewrite Nat.eqb_refl in H.
Qed.

(** What [search] returns is a match, and one that advances when it must. *)
Lemma re_search_sound re : forall s adv b m a,
  re_search re s adv = Some (b, m, a) ->
  s = b ++ m ++ a /\ matches re m /\ (adv = true -> b = [] -> m <> []).
Proof.
  induction s as [|c s IH]; intros adv b m a; rewrite re_search_eq.
  - destruct (match_here re [] _) as [r|] eqn:E; [|discriminate].
    intros [= <- <- <-]. apply match_here_sound in E as (Hok & m & Hs & Hm).
    destruct m; [|discriminate]. simpl in Hs. subst r. simpl.
    split; [done|]. split; [done|]. intros -> _. discriminate Hok.
  - destruct (match_here re (c :: s) _) as [r|] eqn:E.
    + intros [= <- <- <-]. apply match_here_sound in E as (Hok & m & Hs & Hm).
      assert (S (length s) - length r = length m)%nat as ->.
      { change (S (length s)) with (length (c :: s)).
        rewrite Hs, length_app. lia. }
      rewrite Hs in Hok |- *. rewrite take_app_length. simpl.
      split; [done|]. split; [done|]. intros Ha _.
      by eapply advance_ok_inv.
    + destruct (re_search re s false) as [[[b' m'] a']|] eqn:E'; [|discriminate].
      simpl. intros [= <- <- <-]. apply IH in E' as (-> & Hm & _).
      split; [done|]. split; [done|]. intros _ [=].
Qed.

(** No match starts before the one [search] returns. *)
Lemma re_search_leftmost re : forall s adv b m a,
  re_search re s adv = Some (b, m, a) ->
  forall pre' m' post',
    s = pre' ++ m' ++ post' -> matches re m' ->
    (adv = true -> pre' = [] -> m' <> []) ->
    (length b <= length pre')%nat.
Proof.
  induction s as [|c s IH]; intros adv b m a; rewrite re_search_eq.
  - destruct (match_here re [] _) as [r|] eqn:E; [|discriminate].
    intros [= <- <- <-] *. simpl. lia.
  - destruct (match_here re (c :: s) _) as [r|] eqn:E.
    + intros [= <- <- <-] *. simpl. lia.
    + destruct (re_search re s false) as [[[b' m1] a']|] eqn:E'; [|discriminate].
      simpl. intros [= <- <- <-] pre' m' post' Hs Hm Hadv.
      destruct pre' as [|c' pre'].
      * simpl in Hs. exfalso.
        destruct (match_here_complete re m' Hm post' (advance_ok adv (c :: s)))
          as [x Hx].
        -- rewrite Hs. apply advance_ok_true. auto.
        -- rewrite <- Hs in Hx. congruence.
      * simpl in Hs. injection Hs as <- Hs. simpl.
        apply le_n_S. eapply IH; [exact E'|exact Hs|exact Hm|done].
Qed.

(** [search] finds a match whenever there is one. *)
Lemma re_search_complete re : forall pre m post adv,
  matches re m -> (adv = true -> pre = [] -> m <> []) ->
  is_Some (re_search re (pre ++ m ++ post) adv).
Proof.
  induction pre as [|c pre IH]; intros m post adv Hm Hadv;
    rewrite re_search_eq.
  - simpl.
    destruct (match_here_complete re m Hm post (advance_ok adv (m ++ post)))
      as [x ->]; [|done].
    apply advance_ok_true. auto.
  - simpl. destruct (match_here re (c :: pre ++ m ++ post) _); [done|].
    destruct (IH m post false Hm) as [[[b' m'] a'] ->]; done.
Qed.

Lemma re_search_none re s :
  re_search re s false = None -> ~ matches_in re s.
Proof.
  intros H (pre & m & post & -> & Hm).
  destruct (re_search_complete re pre m post false Hm) as [x Hx]; [done|].
  congruence.
Qed.

Lemma re_search_some re s :
  matches_in re s -> is_Some (re_search re s false).
Proof.
  intros (pre & m & post & -> & Hm). by apply re_search_complete.
Qed.

(** [content[:pos]] and [content[pos:]] at the end of a match. *)
Lemma take_drop_match_end re s adv b m a :
  re_search re s adv = Some (b, m, a) ->
  take (match_end (b, m, a)) s = b ++ m /\ drop (match_end (b, m, a)) s = a.
Proof.
  intros H. apply re_search_sound in H as (-> & _ & _). unfold match_end.
  rewrite <- length_app, app_assoc.
  by rewrite take_app_length, drop_app_length.
Qed.

End Searching.

(** * Substitution *)

Section Subn.

Implicit Types (re : regex) (s : pystr) (adv : bool).

Lemma subn_loop_fuel re f : forall fuel1 fuel2 s adv,
  (enough s adv <= fuel1)%nat -> (enough s adv <= fuel2)%nat ->
  subn_loop fuel1 re f s adv = subn_loop fuel2 re f s adv.
Proof.
  induction fuel1 as [|fuel1 IH]; intros fuel2 s adv H1 H2.
  - unfold enough in H1. destruct adv; lia.
  - destruct fuel2 as [|fuel2]; [unfold enough in H2; destruct adv; lia|].
    simpl. destruct (re_search re s adv) as [[[b m] a]|] eqn:E; [|done].
    apply re_search_sound in E as (-> & _ & Hadv).
    assert (enough a (negb (truthy m)) < enough (b ++ m ++ a) adv)%nat as Hlt.
    { unfold enough. rewrite !length_app.
      destruct m as [|c m]; simpl.
      - destruct adv; [|lia].
        destruct b; [by destruct Hadv|]. simpl. lia.
      - destruct adv; lia. }
    rewrite (IH fuel2); [done|lia|lia].
Qed.

(** One round of the loop, with the fuel out of the way. *)
Lemma subn_loop_step re f fuel s adv :
  (enough s adv <= fuel)%nat ->
  subn_loop fuel re f s adv =
  match re_search re s adv with
  | None => (s, O)
  | Some (b, m, a) =>
      let '(out, n) :=
        subn_loop (enough a (negb (truthy m))) re f a (negb (truthy m)) in
      (b ++ f m ++ out, S n)
  end.
Proof.
  intros H. destruct fuel as [|fuel]; [unfold enough in H; destruct adv; lia|].
  simpl. destruct (re_search re s adv) as [[[b m] a]|] eqn:E; [|done].
  apply re_search_sound in E as (-> & _ & Hadv).
  rewrite (subn_loop_fuel re f fuel (enough a (negb (truthy m)))); [done| |lia].
  unfold enough in *. rewrite !length_app in H.
  destruct m as [|c m]; simpl in *.
  - destruct adv; [|lia]. destruct b; [by destruct Hadv|]. simpl in *. lia.
  - destruct adv; lia.
Qed.

End Subn.

(** * Compiling the flexible pattern *)

Section Compile.

Ltac each_member H :=
  repeat (apply elem_of_cons in H as [->|H]); [..|by apply elem_of_nil in H].

Lemma needs_escape_true c :
  needs_escape c = true -> escape_code c = Some (Literal c).
Proof.
  unfold needs_escape. intros H. apply bool_decide_eq_true in H.
  vm_compute in H. each_member H; reflexivity.
Qed.

Lemma needs_escape_false c :
  needs_escape c = false ->
  is_special c = false /\ c <> BACKSLASH /\ c <> 43 /\ c <> 63.
Proof.
  intros H. split; [|repeat split; intros ->; discriminate H].
  unfold is_special. apply bool_decide_eq_false. intros Hc.
  vm_compute in Hc. each_member Hc; discriminate H.
Qed.

Lemma tokenize_head q x ts :
  tokenize q = Some (TChar x :: ts) -> exists q', q = x :: q' /\ x <> BACKSLASH.
Proof.
  destruct q as [|c q]; [discriminate|]. simpl.
  destruct (N.eqb_spec c BACKSLASH) as [->|Hc].
  - destruct q as [|e q]; [discriminate|].
    destruct (tokenize q); discriminate.
  - destruct (tokenize q); [|discriminate]. intros [= -> _]. eauto.
Qed.

(** One more literal in front of a compiled pattern string. *)
Lemma parse_literal t c tq rq :
  charset_of t = Some (Literal c) ->
  (forall x ts, tq = TChar x :: ts -> x <> 43 /\ x <> 63) ->
  parse_tokens tq = Some rq ->
  parse_tokens (t :: tq) = Some (Op (Literal c) Once :: rq).
Proof.
  intros Ht Hq Hp. simpl. rewrite Ht.
  destruct tq as [|[x|e] tq]; try (by rewrite Hp).
  destruct (Hq x tq eq_refl) as [H1 H2].
  apply N.eqb_neq in H1, H2. rewrite H1, H2. by rewrite Hp.
Qed.

Lemma compile_literal t c p q rq :
  (forall tq, tokenize q = Some tq -> tokenize (p ++ q) = Some (t :: tq)) ->
  charset_of t = Some (Literal c) ->
  clean q -> re_compile q = Some rq ->
  re_compile (p ++ q) = Some (Op (Literal c) Once :: rq).
Proof.
  unfold re_compile. intros Htok Ht Hclean Hq.
  destruct (tokenize q) as [tq|] eqn:E; [|discriminate]. simpl in Hq.
  rewrite (Htok tq eq_refl). simpl.
  apply parse_literal; [done| |done].
  intros x ts ->. apply tokenize_head in E as (q' & -> & _). exact Hclean.
Qed.

Lemma compiles_nil : compiles [] [].
Proof. intros rest rr Hc Hr. by split. Qed.

Lemma compiles_app p1 r1 p2 r2 :
  compiles p1 r1 -> compiles p2 r2 -> compiles (p1 ++ p2) (r1 ++ r2).
Proof.
  intros H1 H2 rest rr Hc Hr. rewrite <- !app_assoc.
  destruct (H2 rest rr Hc Hr) as [H2a H2b]. by apply H1.
Qed.

Lemma compiles_escape s : compiles (re_escape s) (lits s).
Proof.
  induction s as [|c s IH]; [apply compiles_nil|].
  intros rest rr Hc Hr. destruct (IH rest rr Hc Hr) as [IHa IHb].
  unfold re_escape in *. simpl. fold (re_escape s) in *.
  destruct (needs_escape c) eqn:E; rewrite <- app_assoc.
  - split; [|done].
    apply (compile_literal (TEsc c) c [BACKSLASH; c]); try done.
    + intros tq Htq. simpl. by rewrite Htq.
    + by apply needs_escape_true.
  - apply needs_escape_false in E as (Hs & Hb & Hp & Hq). split; [|done].
    apply (compile_literal (TChar c) c [c]); try done.
    + intros tq Htq. simpl. apply N.eqb_neq in Hb. rewrite Hb. by rewrite Htq.
    + simpl. by rewrite Hs.
Qed.

Lemma compiles_space_plus : compiles (str "\s+") [space_plus].
Proof.
  intros rest rr Hc Hr. split; [|done].
  unfold re_compile in *. destruct (tokenize rest) as [tq|] eqn:E; [|discriminate].
  simpl in Hr. change (str "\s+" ++ rest) with (92 :: 115 :: 43 :: rest).
  simpl. destruct (N.eqb_spec 43 BACKSLASH) as [[=]|_].
  destruct rest as [|c rest].
  - injection E as <-. simpl in *. by injection Hr as <-.
  - cbn -[parse_tokens] in E |- *. rewrite E. cbn. by rewrite Hr.
Qed.

Lemma compiles_newline : compiles (str "\r?\n") newline_ops.
Proof.
  intros rest rr Hc Hr. split; [|done].
  change (str "\r?\n" ++ rest) with ([BACKSLASH; 114; 63] ++ [BACKSLASH; 110] ++ rest).
  assert (re_compile ([BACKSLASH; 110] ++ rest) = Some (Op (Literal LF) Once :: rr)) as H.
  { apply (compile_literal (TEsc 110) LF); try done.
    intros tq Htq. simpl. by rewrite Htq. }
  unfold re_compile in *.
  destruct (tokenize ([BACKSLASH; 110] ++ rest)) as [tq|] eqn:E; [|discriminate].
  simpl in H.
  change (tokenize ([BACKSLASH; 114; 63] ++ [BACKSLASH; 110] ++ rest))
    with (cons (TEsc 114) <$> (cons (TChar 63) <$> tokenize ([BACKSLASH; 110] ++ rest))).
  rewrite E. simpl. by rewrite H.
Qed.

Lemma fold_left_pattern_line tokens : forall init,
  fold_left (fun pattern_line token =>
               pattern_line ++ str "\s+" ++ re_escape token) tokens init
  = init ++ flat_map (fun token => str "\s+" ++ re_escape token) tokens.
Proof.
  induction tokens as [|t ts IH]; intros init; simpl.
  - by rewrite app_nil_r.
  - rewrite IH. by rewrite <- !app_assoc.
Qed.

Lemma compiles_tokens tokens :
  compiles (flat_map (fun token => str "\s+" ++ re_escape token) tokens)
           (flat_map (fun token => space_plus :: lits token) tokens).
Proof.
  induction tokens as [|t ts IH]; [apply compiles_nil|].
  cbn [flat_map].
  apply compiles_app; [|done].
  apply (compiles_app _ [space_plus]);
    [apply compiles_space_plus|apply compiles_escape].
Qed.

Lemma compiles_line line : compiles (pattern_line_of line) (line_regex line).
Proof.
  unfold pattern_line_of, line_regex.
  destruct (re_match_indent_content line) as [[indent content]|];
    [|apply compiles_escape].
  destruct (List.filter truthy (re_split_ws content)) as [|t0 ts];
    [apply compiles_escape|].
  rewrite fold_left_pattern_line, <- app_assoc.
  repeat apply compiles_app;
    auto using compiles_escape, compiles_tokens.
Qed.

Lemma compiles_join lines :
  compiles (str_join (str "\r?\n") (map pattern_line_of lines))
           (join_regex (map line_regex lines)).
Proof.
  induction lines as [|l ls IH]; [apply compiles_nil|].
  destruct ls as [|l' ls]; [apply compiles_line|].
  change (compiles (pattern_line_of l ++ str "\r?\n"
                    ++ str_join (str "\r?\n") (map pattern_line_of (l' :: ls)))
                   (line_regex l ++ newline_ops
                    ++ join_regex (map line_regex (l' :: ls)))).
  repeat apply compiles_app; auto using compiles_line, compiles_newline.
Qed.

(** The pattern string always compiles, and to the pattern read off the
    lines of the snippet. *)
Lemma flexible_pattern_compiles text :
  re_compile (_flexible_pattern text) = Some (pattern_of text).
Proof.
  unfold _flexible_pattern, pattern_of.
  destruct (compiles_join (splitlines text) [] []) as [H _]; [done|done|].
  by rewrite !app_nil_r in H.
Qed.

End Compile.

(** * Replacement templates *)

Section Template.

Lemma template_literal repl :
  BACKSLASH ∉ repl ->
  (ts ← tokenize repl; parse_template ts) = Some (map TLit repl).
Proof.
  induction repl as [|c repl IH]; intros H; [done|].
  apply not_elem_of_cons in H as [Hc H]. specialize (IH H).
  simpl. apply not_eq_sym, N.eqb_neq in Hc. rewrite Hc.
  destruct (tokenize repl) as [ts|]; [|discriminate].
  simpl in *. by rewrite IH.
Qed.

Lemma expand_literal repl m : expand (map TLit repl) m = repl.
Proof.
  unfold expand. induction repl as [|c repl IH]; [done|].
  simpl. by rewrite IH.
Qed.

Lemma subn_loop_ext re f g :
  (forall m, f m = g m) ->
  forall fuel s adv, subn_loop fuel re f s adv = subn_loop fuel re g s adv.
Proof.
  intros Hfg. induction fuel as [|fuel IH]; intros s adv; [done|].
  simpl. destruct (re_search re s adv) as [[[b m] a]|]; [|done].
  by rewrite IH, Hfg.
Qed.

(** A replacement without a backslash is substituted as it is. *)
Lemma pattern_subn_literal re repl s :
  BACKSLASH ∉ repl ->
  pattern_subn re repl s =
  Ok (subn_loop (enough s false) re (fun _ => repl) s false).
Proof.
  intros H. unfold pattern_subn. rewrite (template_literal repl H).
  f_equal. replace (2 * length s + 2)%nat with (enough s false) by done.
  apply subn_loop_ext. intros m. apply expand_literal.
Qed.

End Template.

(** * The texts a pattern matches *)

Section Matches.

Implicit Types (re : regex) (s m w : pystr).

Lemma matches_app re1 m1 re2 m2 :
  matches re1 m1 -> matches re2 m2 -> matches (re1 ++ re2) (m1 ++ m2).
Proof.
  induction 1 as [|cs c re m Hc Hm IH|cs c re m Hc Hm IH|cs re m Hm IH
                 |cs w re m Hw Hall Hm IH]; intros H2; simpl.
  - done.
  - apply matches_once; auto.
  - apply matches_take; auto.
  - apply matches_skip; auto.
  - rewrite <- app_assoc. apply matches_many; auto.
Qed.

Lemma matches_app_inv re1 : forall re2 m,
  matches (re1 ++ re2) m ->
  exists m1 m2, m = m1 ++ m2 /\ matches re1 m1 /\ matches re2 m2.
Proof.
  induction re1 as [|o re1 IH]; intros re2 m H.
  - exists [], m. split; [done|]. split; [constructor|done].
  - simpl in H. inversion H; subst;
      match goal with Hm : matches (re1 ++ re2) _ |- _ =>
        apply IH in Hm as (m1 & m2 & -> & Hm1 & Hm2) end.
    + exists (c :: m1), m2. split; [done|]. split; [by apply matches_once|done].
    + exists (c :: m1), m2. split; [done|]. split; [by apply matches_take|done].
    + exists m1, m2. split; [done|]. split; [by apply matches_skip|done].
    + exists (w ++ m1), m2. split; [by rewrite app_assoc|].
      split; [by apply matches_many|done].
Qed.

Lemma matches_lits s m : matches (lits s) m <-> m = s.
Proof.
  split.
  - revert m. induction s as [|c s IH]; intros m H; inversion H; subst; [done|].
    match goal with Ha : accepts _ _ = true |- _ =>
      simpl in Ha; apply N.eqb_eq in Ha as -> end.
    f_equal. by apply IH.
  - intros ->. induction s as [|c s IH]; simpl; constructor; [|done].
    simpl. apply N.eqb_refl.
Qed.

Lemma matches_space_plus w :
  w <> [] -> forallb is_space w = true -> matches [space_plus] w.
Proof.
  intros Hw Hall. rewrite <- (app_nil_r w).
  constructor; [done|done|constructor].
Qed.

End Matches.

(** * Occurrences *)

Section Occurs.

Lemma startswith_spec s text :
  startswith s text = true <-> exists post, s = text ++ post.
Proof.
  revert s. induction text as [|c text IH]; intros s; simpl.
  - split; [eauto|done].
  - destruct s as [|d s].
    + split; [discriminate|]. intros [post [=]].
    + rewrite andb_true_iff, IH, N.eqb_eq. split.
      * intros [-> [post ->]]. eauto.
      * intros [post [= -> ->]]. eauto.
Qed.

Lemma contains_spec s text : contains s text = true <-> occurs_in text s.
Proof.
  unfold occurs_in. induction s as [|d s IH]; simpl.
  - rewrite orb_false_r, startswith_spec. split.
    + intros [post H]. exists [], post. done.
    + intros (pre & post & H). destruct pre; [eauto|discriminate].
  - rewrite orb_true_iff, IH, startswith_spec. split.
    + intros [[post H]|(pre & post & ->)].
      * exists [], post. done.
      * exists (d :: pre), post. done.
    + intros (pre & post & H). destruct pre as [|e pre].
      * left. eauto.
      * right. injection H as -> ->. eauto.
Qed.

End Occurs.

(** * Applying one instruction *)

Section Apply.

Lemma pystr_eqb_true a b : pystr_eqb a b = true <-> a = b.
Proof. unfold pystr_eqb. apply bool_decide_eq_true. Qed.

(** The pattern of [find], as [_apply_instruction] builds it. *)
Lemma compiled_pattern f :
  (if truthy f then
     match re_compile (_flexible_pattern f) with
     | Some pattern => Ok (Some pattern)
     | None => Raise re_error
     end
   else Ok None)
  = Ok (if truthy f then Some (pattern_of f) else None).
Proof. destruct (truthy f); [|done]. by rewrite flexible_pattern_compiles. Qed.

End Apply.

(** C10. An Update whose [replace] is empty and an Insert whose [write] is
    empty return the content as it is, whatever [find] matches, and log no
    warning: the empty string counts as a missing field. *)
Theorem empty_replace_or_write_is_silent_noop :
  forall (fname f r w d content : pystr),
    _apply_instruction
      {| type := str "update"; filename := fname; find := f;
         replace := []; write := w; delete := d |} content
    = Ok (content, [])
    /\
    _apply_instruction
      {| type := str "insert"; filename := fname; find := f;
         replace := r; write := []; delete := d |} content
    = Ok (content, []).
Proof.
  intros. unfold _apply_instruction. cbn [type find replace write].
  rewrite compiled_pattern.
  change (pystr_eqb (str "update") (str "update")) with true.
  change (pystr_eqb (str "update") (str "insert")) with false.
  change (pystr_eqb (str "update") (str "delete")) with false.
  change (pystr_eqb (str "insert") (str "update")) with false.
  change (pystr_eqb (str "insert") (str "insert")) with true.
  change (pystr_eqb (str "insert") (str "delete")) with false.
  cbn [truthy]. rewrite !andb_false_r. cbn. done.
Qed.

(** C4. An Update whose [replace] is a backslash and the letter n puts a
    line feed, not those two characters, in place of the match: the
    replacement is read as a template. *)
Theorem update_reads_replace_as_template :
  _apply_instruction (Update "f.py" "x" "\n") (str "axb")
  = Ok ([97; LF; 98], [])
  /\ [97; LF; 98] <> str "a" ++ str "\n" ++ str "b".
Proof. split; [vm_compute; reflexivity|discriminate]. Qed.

(** C3. An Update whose [replace] holds a backslash and the letter d, as
    the text of a regular expression does, raises [re.error] (a bad escape
    in a template) instead of returning a string. *)
Theorem update_raises_on_bad_template :
  _apply_instruction (Update "f.py" "x" "\d+") (str "axb") = Raise re_error.
Proof. vm_compute. reflexivity. Qed.

Section ApplyKinds.

Variables (i : CodeInstruction) (content : pystr).

Lemma apply_update :
  type i = str "update" -> truthy (find i) = true -> truthy (replace i) = true ->
  _apply_instruction i content =
  match pattern_subn (pattern_of (find i)) (replace i) content with
  | Raise e => Raise e
  | Ok (updated_content, num_subs) =>
      Ok (updated_content,
          if (num_subs =? 0)%nat
          then [warning_no_matches (str "update") (find i)] else [])
  end.
Proof.
  intros Ht Hf Hr. unfold _apply_instruction.
  rewrite compiled_pattern, Ht, Hf, Hr. done.
Qed.

Lemma apply_insert :
  type i = str "insert" -> truthy (find i) = true -> truthy (write i) = true ->
  _apply_instruction i content =
  match re_search (pattern_of (find i)) content false with
  | Some mt =>
      let pos := match_end mt in
      Ok (take pos content ++ [LF] ++ write i ++ drop pos content, [])
  | None => Ok (content, [warning_no_matches (str "insert") (find i)])
  end.
Proof.
  intros Ht Hf Hw. unfold _apply_instruction.
  rewrite compiled_pattern, Ht, Hf, Hw. done.
Qed.

Lemma apply_delete :
  type i = str "delete" -> truthy (find i) = true ->
  _apply_instruction i content =
  match pattern_subn (pattern_of (find i)) [] content with
  | Raise e => Raise e
  | Ok (updated_content, num_subs) =>
      Ok (updated_content,
          if (num_subs =? 0)%nat
          then [warning_no_matches (str "delete") (find i)] else [])
  end.
Proof.
  intros Ht Hf. unfold _apply_instruction.
  rewrite compiled_pattern, Ht, Hf. done.
Qed.

(** Every other instruction is inert. *)
Lemma apply_inert :
  (type i = str "update" -> truthy (find i) && truthy (replace i) = false) ->
  (type i = str "insert" -> truthy (find i) && truthy (write i) = false) ->
  (type i = str "delete" -> truthy (find i) = false) ->
  _apply_instruction i content = Ok (content, []).
Proof.
  intros Hu Hi Hd. unfold _apply_instruction. rewrite compiled_pattern.
  destruct (pystr_eqb (type i) (str "update")) eqn:Eu.
  { assert (Ht := proj1 (pystr_eqb_true _ _) Eu).
    rewrite andb_true_l, (Hu Ht), Ht. reflexivity. }
  destruct (pystr_eqb (type i) (str "insert")) eqn:Ei.
  { assert (Ht := proj1 (pystr_eqb_true _ _) Ei).
    rewrite andb_true_l, (Hi Ht), Ht. reflexivity. }
  destruct (pystr_eqb (type i) (str "delete")) eqn:Ed.
  { assert (Ht := proj1 (pystr_eqb_true _ _) Ed).
    rewrite andb_true_l, (Hd Ht). reflexivity. }
  reflexivity.
Qed.

End ApplyKinds.

Lemma matches_in_search re s b m a :
  re_search re s false = Some (b, m, a) -> matches_in re s.
Proof.
  intros H. apply re_search_sound in H as (-> & Hm & _).
  exists b, m, a. done.
Qed.

(** C5. Where the pattern of [find] matches, an Insert with a non-empty
    [write] puts a line feed and [write] right after the end of the first
    match, the one no other match starts before, and nowhere else; the
    marker example of the specification comes out as given there. *)
Theorem insert_after_first_match :
  (forall i content re,
     type i = str "insert" ->
     truthy (find i) = true -> truthy (write i) = true ->
     re_compile (_flexible_pattern (find i)) = Some re ->
     matches_in re content ->
     exists before m after,
       content = before ++ m ++ after /\ matches re m /\
       (forall pre' m' post',
          content = pre' ++ m' ++ post' -> matches re m' ->
          (length before <= length pre')%nat) /\
       _apply_instruction i content
       = Ok (before ++ m ++ [LF] ++ write i ++ after, []))
  /\
  _apply_instruction (Insert "f.py" "# marker" "added()")
    (str "# marker" ++ [LF] ++ str "rest" ++ [LF])
  = Ok (str "# marker" ++ [LF] ++ str "added()" ++ [LF] ++ str "rest" ++ [LF], []).
Proof.
  split; [|vm_compute; reflexivity].
  intros i content re Ht Hf Hw Hre Hin.
  rewrite flexible_pattern_compiles in Hre. injection Hre as <-.
  rewrite apply_insert by done.
  destruct (re_search_some _ _ Hin) as [[[b m] a] Hs]. rewrite Hs. cbv zeta.
  destruct (take_drop_match_end _ _ _ _ _ _ Hs) as [-> ->].
  pose proof (re_search_sound _ _ _ _ _ _ Hs) as (Hc & Hm & _).
  exists b, m, a. split; [done|]. split; [done|]. split.
  - intros pre' m' post' Hc' Hm'.
    eapply re_search_leftmost; [exact Hs|exact Hc'|exact Hm'|done].
  - by rewrite <- app_assoc.
Qed.

Lemma insert_after_first_match_witness :
  exists before m after,
    str "x = 1; x = 2" = before ++ m ++ after /\
    length before = 0%nat /\
    _apply_instruction (Insert "f.py" "x  =" "y") (str "x = 1; x = 2")
    = Ok (before ++ m ++ [LF] ++ str "y" ++ after, []).
Proof.
  destruct (proj1 insert_after_first_match
              (Insert "f.py" "x  =" "y") (str "x = 1; x = 2")
              (pattern_of (str "x  =")))
    as (before & m & after & Hc & Hm & Hfirst & Happ).
  - reflexivity.
  - reflexivity.
  - reflexivity.
  - apply flexible_pattern_compiles.
  - apply (matches_in_search _ _ [] (str "x =") (str " 1; x = 2")).
    vm_compute. reflexivity.
  - exists before, m, after. split; [exact Hc|]. split; [|exact Happ].
    specialize (Hfirst [] (str "x =") (str " 1; x = 2") eq_refl).
    assert (matches (pattern_of (str "x  =")) (str "x =")) as Hx.
    { apply (matches_app (lits (str "x")) (str "x") [space_plus; Op (Literal 61) Once]
               (str " =")).
      - by apply matches_lits.
      - apply (matches_many CategorySpace [SPACE] _ (str "=")); [done|done|].
        by apply (matches_lits (str "=")). }
    specialize (Hfirst Hx). simpl in Hfirst. lia.
Defined.

(** Without a backslash in [replace], applying an instruction returns. *)
Lemma apply_instruction_returns i content :
  BACKSLASH ∉ replace i ->
  exists content' records, _apply_instruction i content = Ok (content', records).
Proof.
  intros Hb.
  destruct (pystr_eqb (type i) (str "update")
            && truthy (find i) && truthy (replace i)) eqn:Eu.
  { apply andb_prop in Eu as [Eu Hr]. apply andb_prop in Eu as [Ht Hf].
    apply pystr_eqb_true in Ht.
    rewrite apply_update, pattern_subn_literal by done.
    destruct (subn_loop _ _ _ _ _). eauto. }
  destruct (pystr_eqb (type i) (str "insert")
            && truthy (find i) && truthy (write i)) eqn:Ei.
  { apply andb_prop in Ei as [Ei Hw]. apply andb_prop in Ei as [Ht Hf].
    apply pystr_eqb_true in Ht. rewrite apply_insert by done.
    destruct (re_search _ _ _); eauto. }
  destruct (pystr_eqb (type i) (str "delete") && truthy (find i)) eqn:Ed.
  { apply andb_prop in Ed as [Ht Hf].
    apply pystr_eqb_true in Ht. rewrite apply_delete by done.
    rewrite pattern_subn_literal by apply not_elem_of_nil.
    destruct (subn_loop _ _ _ _ _). eauto. }
  exists content, []. apply apply_inert; intros Ht; rewrite Ht in *.
  - exact Eu.
  - exact Ei.
  - exact Ed.
Qed.

(** C6, as stated, fails: the text [a b] with one space occurs nowhere in
    the content [a  b] with two, yet the pattern of [find] matches it and
    the Update and the Delete rewrite the content. *)
Lemma absent_find_text_is_rewritten :
  ~ occurs_in (str "a b") (str "a  b") /\
  _apply_instruction (Update "f.py" "a b" "X") (str "a  b") = Ok (str "X", []) /\
  _apply_instruction (Delete "f.py" "a b") (str "a  b") = Ok ([], []) /\
  str "X" <> str "a  b".
Proof.
  split.
  { intros H. apply contains_spec in H. vm_compute in H. discriminate. }
  split; [vm_compute; reflexivity|].
  split; [vm_compute; reflexivity|discriminate].
Qed.

(** Where the pattern matches nowhere, [subn] with a well-formed template
    returns the text and no substitution. *)
Lemma pattern_subn_no_match re repl content :
  is_Some (template_of repl) ->
  re_search re content false = None ->
  pattern_subn re repl content = Ok (content, O).
Proof.
  intros [t Ht] Hs. unfold pattern_subn. unfold template_of in Ht.
  rewrite Ht. f_equal.
  replace (2 * length content + 2)%nat with (enough content false) by done.
  rewrite subn_loop_step by done. by rewrite Hs.
Qed.

(** C6, amended. An instruction of any kind whose compiled pattern matches
    nowhere in the content returns the content as it is.  The one case
    left out is that of C3: an Update with [find] and [replace] whose
    [replace] is no well-formed replacement template. *)
Theorem no_match_is_noop :
  forall i content,
    (forall re, re_compile (_flexible_pattern (find i)) = Some re ->
                ~ matches_in re content) ->
    (reads_template i = true -> is_Some (template_of (replace i))) ->
    exists records, _apply_instruction i content = Ok (content, records).
Proof.
  intros i content Hno Hb.
  specialize (Hno _ (flexible_pattern_compiles (find i))).
  assert (re_search (pattern_of (find i)) content false = None) as Hs.
  { destruct (re_search _ content false) as [[[b m] a]|] eqn:E; [|done].
    destruct Hno. eapply matches_in_search, E. }
  unfold reads_template in Hb.
  destruct (pystr_eqb (type i) (str "update")
            && truthy (find i) && truthy (replace i)) eqn:Eu.
  { apply andb_prop in Eu as [Eu Hr]. apply andb_prop in Eu as [Ht Hf].
    apply pystr_eqb_true in Ht.
    rewrite apply_update, pattern_subn_no_match by auto. eauto. }
  destruct (pystr_eqb (type i) (str "insert")
            && truthy (find i) && truthy (write i)) eqn:Ei.
  { apply andb_prop in Ei as [Ei Hw]. apply andb_prop in Ei as [Ht Hf].
    apply pystr_eqb_true in Ht. rewrite apply_insert, Hs by done. eauto. }
  destruct (pystr_eqb (type i) (str "delete") && truthy (find i)) eqn:Ed.
  { apply andb_prop in Ed as [Ht Hf].
    apply pystr_eqb_true in Ht. rewrite apply_delete by done.
    rewrite pattern_subn_no_match by (done || by eexists). eauto. }
  exists []. apply apply_inert; intros Ht; rewrite Ht in *.
  - exact Eu.
  - exact Ei.
  - exact Ed.
Qed.

Lemma no_match_is_noop_witness :
  exists records,
    _apply_instruction (Update "f.py" "a b" "x\ny") (str "ab a")
    = Ok (str "ab a", records).
Proof.
  apply (no_match_is_noop (Update "f.py" "a b" "x\ny") (str "ab a")).
  - intros re H. vm_compute in H. injection H as <-.
    apply re_search_none. vm_compute. reflexivity.
  - intros _. vm_compute. eexists. reflexivity.
Defined.

(** C2, as stated, fails: [ab] is matched twice in [abb abb] and both
    matches are rewritten to [a], which does not contain [ab]; but each [a]
    meets the [b] left behind it, so the result holds [ab] twice. *)
Lemma update_result_can_hold_find_text :
  let p := pattern_of (str "ab") in
  re_compile (_flexible_pattern (str "ab")) = Some p /\
  re_search p (str "abb abb") false = Some ([], str "ab", str "b abb") /\
  re_search p (str "b abb") false = Some (str "b ", str "ab", str "b") /\
  re_search p (str "b") false = None /\
  contains (str "a") (str "ab") = false /\
  _apply_instruction (Update "f.py" "ab" "a") (str "abb abb") = Ok (str "ab ab", []) /\
  contains (str "ab ab") (str "ab") = true.
Proof. vm_compute. repeat split; reflexivity. Qed.

(** C2, amended. When the search finds the pattern of [find] twice in the
    content and not a third time, an Update whose [replace] has no backslash
    returns the content with [replace] in place of each of the two matches
    and the rest as it was. *)
Theorem update_rewrites_both_matches :
  forall i content re pre m1 rest1 mid m2 rest2,
    type i = str "update" ->
    truthy (find i) = true -> truthy (replace i) = true ->
    BACKSLASH ∉ replace i ->
    re_compile (_flexible_pattern (find i)) = Some re ->
    re_search re content false = Some (pre, m1, rest1) ->
    re_search re rest1 (negb (truthy m1)) = Some (mid, m2, rest2) ->
    re_search re rest2 (negb (truthy m2)) = None ->
    content = pre ++ m1 ++ mid ++ m2 ++ rest2 /\
    matches re m1 /\ matches re m2 /\
    _apply_instruction i content
    = Ok (pre ++ replace i ++ mid ++ replace i ++ rest2, []).
Proof.
  intros i content re pre m1 rest1 mid m2 rest2 Ht Hf Hr Hb Hre H1 H2 H3.
  rewrite flexible_pattern_compiles in Hre. injection Hre as <-.
  pose proof (re_search_sound _ _ _ _ _ _ H1) as (Hc1 & Hm1 & _).
  pose proof (re_search_sound _ _ _ _ _ _ H2) as (Hc2 & Hm2 & _).
  split; [by rewrite Hc1, Hc2|]. split; [done|]. split; [done|].
  rewrite apply_update, pattern_subn_literal by done.
  rewrite subn_loop_step, H1 by done.
  rewrite subn_loop_step, H2 by done.
  rewrite subn_loop_step, H3 by done.
  done.
Qed.

Lemma update_rewrites_both_matches_witness :
  _apply_instruction (Update "f.py" "x  = 1" "y = 2") (str "x = 1; x =  1.")
  = Ok (str "y = 2; y = 2.", []).
Proof.
  apply (update_rewrites_both_matches
           (Update "f.py" "x  = 1" "y = 2") (str "x = 1; x =  1.")
           (pattern_of (str "x  = 1"))
           [] (str "x = 1") (str "; x =  1.")
           (str "; ") (str "x =  1") (str ".")).
  - reflexivity.
  - reflexivity.
  - reflexivity.
  - intros H. vm_compute in H. repeat (apply elem_of_cons in H as [H|H]; [discriminate H|]).
    by apply elem_of_nil in H.
  - apply flexible_pattern_compiles.
  - vm_compute. reflexivity.
  - vm_compute. reflexivity.
  - vm_compute. reflexivity.
Defined.

(** * Indentation *)

Section Indentation.

Lemma take_while_all f s : forallb f (take_while f s) = true.
Proof.
  induction s as [|c s IH]; [done|]. simpl.
  destruct (f c) eqn:E; [|done]. simpl. by rewrite E.
Qed.

Lemma take_while_app_stop f a b :
  forallb f a = true ->
  match b with c :: _ => f c = false | [] => True end ->
  take_while f (a ++ b) = a.
Proof.
  intros Ha Hb. induction a as [|c a IH]; simpl in *.
  - destruct b as [|c b]; [done|]. simpl. by rewrite Hb.
  - apply andb_prop in Ha as [Hc Ha]. rewrite Hc. f_equal. by apply IH.
Qed.

Lemma re_split_ws_no_space s :
  Forall (fun piece => forallb (fun c => negb (is_space c)) piece = true)
         (re_split_ws s).
Proof.
  induction s as [|c s IH]; simpl.
  - by repeat constructor.
  - destruct (is_space c) eqn:E.
    + destruct s as [|d s]; [by repeat constructor|].
      destruct (is_space d); [done|]. by constructor.
    + destruct (re_split_ws s) as [|p ps]; [by repeat constructor; simpl; rewrite E|].
      inversion IH; subst. constructor; [|done]. simpl. by rewrite E.
Qed.

Lemma re_match_indent line indent content :
  re_match_indent_content line = Some (indent, content) ->
  indent = indent_of line.
Proof.
  unfold re_match_indent_content.
  destruct (drop_while _ (drop_while is_space line)) as [|? [|? ?]];
    intros [= <- _]; done.
Qed.

(** A text matched by the pattern of a line starts with the indentation of
    the line and goes on, if at all, with a character that is no space. *)
Lemma matches_line_indent line seg :
  matches (line_regex line) seg -> indent_of seg = indent_of line.
Proof.
  unfold line_regex.
  destruct (re_match_indent_content line) as [[indent content]|] eqn:E.
  - apply re_match_indent in E as ->.
    pose proof (re_split_ws_no_space content) as Hns.
    destruct (List.filter truthy (re_split_ws content)) as [|t0 ts] eqn:Et.
    + intros H. apply matches_lits in H as ->.
      unfold indent_of. rewrite <- (app_nil_r (take_while is_space line)) at 1.
      apply take_while_app_stop; [apply take_while_all|done].
    + intros H.
      apply matches_app_inv in H as (m1 & m23 & -> & H1 & H23).
      apply matches_app_inv in H23 as (m2 & m3 & -> & H2 & H3).
      apply matches_lits in H1 as ->. apply matches_lits in H2 as ->.
      assert (t0 ∈ List.filter truthy (re_split_ws content)) as Hin
        by (rewrite Et; left).
      apply list_elem_of_In, filter_In in Hin as [Hin Ht].
      apply list_elem_of_In in Hin.
      rewrite Forall_forall in Hns. specialize (Hns _ Hin).
      destruct t0 as [|c t0]; [discriminate|].
      simpl in Hns. apply andb_prop in Hns as [Hc _].
      apply negb_true_iff in Hc.
      unfold indent_of at 1.
      apply take_while_app_stop; [apply take_while_all|done].
  - intros H. by apply matches_lits in H as ->.
Qed.

Lemma matches_newline m :
  matches newline_ops m -> m = [LF] \/ m = [CR; LF].
Proof.
  intros H. inversion H as [| |cs c re m' Hc Hm|cs re m' Hm|]; subst.
  - apply matches_lits with (s := [LF]) in Hm as ->.
    simpl in Hc. apply N.eqb_eq in Hc as ->. by right.
  - apply matches_lits with (s := [LF]) in Hm as ->. by left.
Qed.

Lemma matches_join rs : forall m,
  matches (join_regex rs) m ->
  exists segs, joined segs m /\ Forall2 matches rs segs.
Proof.
  induction rs as [|r rs IH]; intros m H.
  - inversion H; subst. exists []. split; constructor.
  - destruct rs as [|r' rs].
    + exists [m]. split; [constructor|by repeat constructor].
    + change (join_regex (r :: r' :: rs))
        with (r ++ newline_ops ++ join_regex (r' :: rs)) in H.
      apply matches_app_inv in H as (m1 & m23 & -> & H1 & H23).
      apply matches_app_inv in H23 as (m2 & m3 & -> & H2 & H3).
      apply IH in H3 as (segs & Hj & Hall).
      assert (segs <> []) by (inversion Hall; done).
      exists (m1 :: segs). split; [|by constructor].
      apply matches_newline in H2 as [-> | ->]; by constructor.
Qed.

End Indentation.

(** C1, as stated, fails.  The snippet [foo] has no indentation, and its
    matcher finds it in [  foo], whose first line carries two more spaces;
    an Update rewrites it there.  And the snippet [a b], LF, [ c] is found
    in [a], LF, [   b], LF, [ c], whose second line is indented by three
    spaces where the second line of the snippet has one: the white space
    between two tokens may hold line ends. *)
Lemma extra_indentation_is_matched :
  let p := pattern_of (str "foo") in
  let q := pattern_of (str "a b" ++ [LF] ++ str " c") in
  (re_compile (_flexible_pattern (str "foo")) = Some p /\
   map indent_of (splitlines (str "foo")) = [[]] /\
   map indent_of (splitlines (str "  foo")) = [str "  "] /\
   re_search p (str "  foo") false = Some (str "  ", str "foo", []) /\
   _apply_instruction (Update "f.py" "foo" "bar") (str "  foo")
   = Ok (str "  bar", []))
  /\
  (re_compile (_flexible_pattern (str "a b" ++ [LF] ++ str " c")) = Some q /\
   map indent_of (splitlines (str "a b" ++ [LF] ++ str " c")) = [[]; str " "] /\
   map indent_of (splitlines (str "a" ++ [LF] ++ str "   b" ++ [LF] ++ str " c"))
   = [[]; str "   "; str " "] /\
   re_search q (str "a" ++ [LF] ++ str "   b" ++ [LF] ++ str " c") false
   = Some ([], str "a" ++ [LF] ++ str "   b" ++ [LF] ++ str " c", [])).
Proof. vm_compute. repeat split; reflexivity. Qed.

(** C1, amended. Whatever the search for the compiled pattern of a snippet
    returns, the matched text is one segment for each line of the snippet,
    in order, with LF or CR LF between two segments, and the leading white
    space of each segment is exactly the indentation of its line.  The
    text before the match is not bound by the pattern. *)
Theorem matched_lines_keep_indentation :
  forall snippet re candidate adv before m after,
    re_compile (_flexible_pattern snippet) = Some re ->
    re_search re candidate adv = Some (before, m, after) ->
    candidate = before ++ m ++ after /\
    exists segs,
      joined segs m /\
      Forall2 (fun line seg => indent_of seg = indent_of line)
              (splitlines snippet) segs.
Proof.
  intros snippet re candidate adv before m after Hre Hs.
  rewrite flexible_pattern_compiles in Hre. injection Hre as <-.
  apply re_search_sound in Hs as (Hc & Hm & _). split; [done|].
  apply matches_join in Hm as (segs & Hj & Hall).
  exists segs. split; [done|]. clear Hj Hc.
  revert segs Hall. induction (splitlines snippet) as [|line lines IH];
    intros segs Hall; inversion Hall; subst; constructor.
  - by apply matches_line_indent.
  - by apply IH.
Qed.

Lemma matched_lines_keep_indentation_witness :
  exists segs,
    joined segs (str "if x:" ++ [CR; LF] ++ str "    y   = 1") /\
    Forall2 (fun line seg => indent_of seg = indent_of line)
            [str "if x:"; str "    y = 1"] segs.
Proof.
  destruct (matched_lines_keep_indentation
              (str "if x:" ++ [LF] ++ str "    y = 1")
              (pattern_of (str "if x:" ++ [LF] ++ str "    y = 1"))
              (str "  if x:" ++ [CR; LF] ++ str "    y   = 1;")
              false
              (str "  ") (str "if x:" ++ [CR; LF] ++ str "    y   = 1") (str ";"))
    as [_ H].
  - apply flexible_pattern_compiles.
  - vm_compute. reflexivity.
  - exact H.
Defined.

(** * Grouping by file *)

Section Grouping.

Implicit Types (d : list (pystr * list CodeInstruction)) (k f : pystr).

Lemma pystr_eqb_false a b : pystr_eqb a b = false <-> a <> b.
Proof. unfold pystr_eqb. apply bool_decide_eq_false. Qed.

Lemma dict_append_keys d k v :
  map fst (dict_append d k v)
  = if bool_decide (k ∈ map fst d) then map fst d else map fst d ++ [k].
Proof.
  induction d as [|[k' vs] d IH]; simpl; [done|].
  destruct (pystr_eqb k' k) eqn:E.
  - apply pystr_eqb_true in E as ->. simpl.
    rewrite bool_decide_eq_true_2; [done|left].
  - apply pystr_eqb_false in E. simpl. rewrite IH.
    destruct (bool_decide (k ∈ map fst d)) eqn:Ed.
    + apply bool_decide_eq_true in Ed.
      rewrite bool_decide_eq_true_2; [done|by right].
    + apply bool_decide_eq_false in Ed.
      rewrite bool_decide_eq_false_2; [done|].
      intros Hin. apply elem_of_cons in Hin as [->|Hin]; done.
Qed.

Lemma dict_append_get d k v k' :
  dict_get (dict_append d k v) k'
  = if pystr_eqb k k' then dict_get d k' ++ [v] else dict_get d k'.
Proof.
  induction d as [|[k0 vs] d IH]; simpl.
  - destruct (pystr_eqb k k'); done.
  - destruct (pystr_eqb k0 k) eqn:E; simpl.
    + apply pystr_eqb_true in E as ->. destruct (pystr_eqb k k'); done.
    + apply pystr_eqb_false in E. rewrite IH.
      destruct (pystr_eqb k0 k') eqn:E'; [|done].
      apply pystr_eqb_true in E' as ->.
      destruct (pystr_eqb k k') eqn:E''; [|done].
      apply pystr_eqb_true in E''. by subst.
Qed.

Lemma dict_append_nodup d k v :
  NoDup (map fst d) -> NoDup (map fst (dict_append d k v)).
Proof.
  intros H. rewrite dict_append_keys.
  destruct (bool_decide (k ∈ map fst d)) eqn:E; [done|].
  apply bool_decide_eq_false in E.
  apply NoDup_app. split; [done|]. split; [|apply NoDup_singleton].
  intros x Hx Hk. apply list_elem_of_singleton in Hk as ->. done.
Qed.

Lemma dict_elem_get d k :
  k ∈ map fst d -> (k, dict_get d k) ∈ d.
Proof.
  induction d as [|[k' vs'] d IH]; intros Hin; [by apply elem_of_nil in Hin|].
  simpl in *. destruct (pystr_eqb k' k) eqn:E.
  - apply pystr_eqb_true in E as ->. left.
  - apply pystr_eqb_false in E. right. apply IH.
    apply elem_of_cons in Hin as [->|Hin]; done.
Qed.

(** The loop that fills [instructions_by_file]. *)
Lemma group_fold instructions : forall d,
  let d' := fold_left (fun instructions_by_file instr =>
               if truthy (filename instr)
               then dict_append instructions_by_file (filename instr) instr
               else instructions_by_file) instructions d in
  (NoDup (map fst d) -> NoDup (map fst d')) /\
  (forall k, dict_get d' k
             = dict_get d k ++ if truthy k then group_of k instructions else []) /\
  (forall k, k ∈ map fst d' <->
             k ∈ map fst d \/
             (truthy k = true /\ exists i, i ∈ instructions /\ filename i = k)).
Proof.
  induction instructions as [|i instructions IH]; intros d; simpl.
  - split; [done|]. split.
    + intros k. destruct (truthy k); by rewrite app_nil_r.
    + intros k. split; [auto|]. intros [H|(_ & i & Hi & _)]; [done|].
      by apply elem_of_nil in Hi.
  - set (d1 := if truthy (filename i) then dict_append d (filename i) i else d).
    destruct (IH d1) as (IHn & IHg & IHk).
    assert (NoDup (map fst d) -> NoDup (map fst d1)) as Hn1.
    { unfold d1. destruct (truthy (filename i)); [apply dict_append_nodup|done]. }
    assert (forall k, dict_get d1 k
              = dict_get d k ++ if truthy k && pystr_eqb (filename i) k
                                then [i] else []) as Hg1.
    { intros k. unfold d1. destruct (truthy (filename i)) eqn:Et.
      - rewrite dict_append_get. destruct (pystr_eqb (filename i) k) eqn:E.
        + apply pystr_eqb_true in E as <-. by rewrite Et.
        + by rewrite andb_false_r, app_nil_r.
      - destruct (pystr_eqb (filename i) k) eqn:E.
        + apply pystr_eqb_true in E as <-. by rewrite Et, app_nil_r.
        + by rewrite andb_false_r, app_nil_r. }
    assert (forall k, k ∈ map fst d1 <->
              k ∈ map fst d \/ (truthy k = true /\ filename i = k)) as Hk1.
    { intros k. unfold d1. destruct (truthy (filename i)) eqn:Et.
      - rewrite dict_append_keys.
        destruct (bool_decide (filename i ∈ map fst d)) eqn:E.
        + apply bool_decide_eq_true in E. split; [auto|].
          intros [H|[_ <-]]; done.
        + rewrite elem_of_app, list_elem_of_singleton. split.
          * intros [H| ->]; auto.
          * intros [H|[_ <-]]; auto.
      - split; [auto|]. intros [H|[Hk <-]]; [done|congruence]. }
    split; [auto|]. split.
    + intros k. rewrite IHg, Hg1, <- app_assoc. f_equal.
      unfold group_of. simpl.
      destruct (truthy k); simpl; [|done].
      destruct (pystr_eqb (filename i) k); done.
    + intros k. rewrite IHk, Hk1. split.
      * intros [[H|[Ht <-]]|(Ht & j & Hj & <-)]; auto.
        -- right. split; [done|]. exists i. split; [left|done].
        -- right. split; [done|]. exists j. split; [by right|done].
      * intros [H|(Ht & j & Hj & <-)]; auto.
        apply elem_of_cons in Hj as [->|Hj]; [auto|].
        right. split; [done|]. eauto.
Qed.

(** The groups: one for each file named, holding the instructions that name
    it in batch order. *)
Lemma group_by_file_spec instructions :
  NoDup (map fst (group_by_file instructions)) /\
  forall f, truthy f = true ->
            (exists i, i ∈ instructions /\ filename i = f) ->
            (f, group_of f instructions) ∈ group_by_file instructions.
Proof.
  destruct (group_fold instructions []) as (Hn & Hg & Hk).
  fold (group_by_file instructions) in Hn, Hg, Hk.
  split; [apply Hn; constructor|].
  intros f Ht Hex.
  assert (f ∈ map fst (group_by_file instructions)) as Hin
    by (apply Hk; auto).
  apply dict_elem_get in Hin. by rewrite Hg, Ht in Hin.
Qed.

End Grouping.

(** * The groups of a batch *)

Section Groups.

Implicit Types (d : list (pystr * list CodeInstruction)) (k : pystr).

Lemma group_keys instructions : forall d,
  map fst (fold_left (fun instructions_by_file instr =>
             if truthy (filename instr)
             then dict_append instructions_by_file (filename instr) instr
             else instructions_by_file) instructions d)
  = fold_left (fun seen k => if bool_decide (k ∈ seen) then seen else seen ++ [k])
      (List.filter truthy (map filename instructions)) (map fst d).
Proof.
  induction instructions as [|i instructions IH]; intros d; [done|].
  simpl. rewrite IH. destruct (truthy (filename i)); [|done].
  simpl. by rewrite dict_append_keys.
Qed.

Lemma dict_as_map d :
  NoDup (map fst d) -> d = map (fun k => (k, dict_get d k)) (map fst d).
Proof.
  induction d as [|[k0 vs] d IH]; intros Hnd; [done|].
  simpl in *. apply NoDup_cons in Hnd as [Hk0 Hnd].
  rewrite (proj2 (pystr_eqb_true k0 k0) eq_refl). f_equal.
  rewrite (IH Hnd) at 1. apply map_ext_in. intros k Hk.
  destruct (pystr_eqb k0 k) eqn:E; [|done].
  apply pystr_eqb_true in E as ->. destruct Hk0. by apply list_elem_of_In.
Qed.

Lemma first_seen_truthy names : forall seen k,
  k ∈ fold_left (fun seen k => if bool_decide (k ∈ seen) then seen else seen ++ [k])
        names seen ->
  k ∈ seen \/ k ∈ names.
Proof.
  induction names as [|n names IH]; intros seen k H; [by left|].
  simpl in H. apply IH in H as [H|H]; [|right; by right].
  destruct (bool_decide (n ∈ seen)); [by left|].
  apply elem_of_app in H as [H|H]; [by left|].
  apply list_elem_of_singleton in H as ->. right. left.
Qed.

Lemma dict_get_elem d k vs :
  NoDup (map fst d) -> (k, vs) ∈ d -> dict_get d k = vs.
Proof.
  induction d as [|[k0 vs0] d IH]; intros Hnd Hin; [by apply elem_of_nil in Hin|].
  simpl in *. apply NoDup_cons in Hnd as [Hk0 Hnd].
  apply elem_of_cons in Hin as [[= -> ->]|Hin].
  - by rewrite (proj2 (pystr_eqb_true k0 k0) eq_refl).
  - destruct (pystr_eqb k0 k) eqn:E; [|by apply IH].
    apply pystr_eqb_true in E as ->. destruct Hk0.
    apply list_elem_of_fmap. by exists (k, vs).
Qed.

(** The keys of the groups, in the order of the loop over the files. *)
Lemma group_by_file_keys instructions :
  map fst (group_by_file instructions)
  = first_seen (List.filter truthy (map filename instructions)).
Proof. unfold group_by_file. by rewrite group_keys. Qed.

(** A group holds the instructions of the batch that carry its name. *)
Lemma group_by_file_item instructions k file_instructions :
  (k, file_instructions) ∈ group_by_file instructions ->
  truthy k = true /\ file_instructions = group_of k instructions.
Proof.
  intros Hin.
  destruct (group_by_file_spec instructions) as [Hnd _].
  destruct (group_fold instructions []) as (_ & Hget & _).
  fold (group_by_file instructions) in Hget.
  assert (truthy k = true) as Ht.
  { assert (k ∈ map fst (group_by_file instructions)) as Hk
      by (apply list_elem_of_fmap; by exists (k, file_instructions)).
    rewrite group_by_file_keys in Hk.
    apply first_seen_truthy in Hk as [Hk|Hk]; [by apply elem_of_nil in Hk|].
    by apply list_elem_of_In, filter_In in Hk as [_ Hk]. }
  split; [done|].
  rewrite <- (dict_get_elem _ _ _ Hnd Hin), Hget. simpl. by rewrite Ht.
Qed.

Lemma first_seen_extends names : forall seen,
  exists extra,
    fold_left (fun seen k => if bool_decide (k ∈ seen) then seen else seen ++ [k])
      names seen = seen ++ extra.
Proof.
  induction names as [|n names IH]; intros seen; simpl.
  - exists []. by rewrite app_nil_r.
  - destruct (bool_decide (n ∈ seen)); [apply IH|].
    destruct (IH (seen ++ [n])) as [extra ->].
    exists (n :: extra). by rewrite <- app_assoc.
Qed.

(** The groups that the loop reaches before the group of [f] are named by
    instructions that come before any instruction naming [f]. *)
Lemma groups_before instructions before i0 after ks1 ks2 k :
  instructions = before ++ i0 :: after ->
  map fst (group_by_file instructions) = ks1 ++ filename i0 :: ks2 ->
  k ∈ ks1 ->
  exists i, i ∈ before /\ filename i = k.
Proof.
  intros -> Hkeys Hk.
  pose proof (proj1 (group_by_file_spec (before ++ i0 :: after))) as Hnd.
  rewrite Hkeys in Hnd.
  assert (k <> filename i0) as Hne.
  { intros ->. apply NoDup_app in Hnd as (_ & Hnd & _).
    apply (Hnd _ Hk). left. }
  rewrite group_by_file_keys in Hkeys. unfold first_seen in Hkeys.
  rewrite map_app, List.filter_app, fold_left_app in Hkeys.
  set (step := fun seen k => if bool_decide (k ∈ seen) then seen else seen ++ [k])
    in Hkeys.
  set (seen1 := fold_left step (List.filter truthy (map filename before)) [])
    in Hkeys.
  assert (forall x, x ∈ seen1 -> exists i, i ∈ before /\ filename i = x) as Hseen.
  { intros x Hx. apply first_seen_truthy in Hx as [Hx|Hx];
      [by apply elem_of_nil in Hx|].
    apply list_elem_of_In, filter_In in Hx as [Hx _].
    apply in_map_iff in Hx as (i & Hi & Hin). exists i.
    split; [by apply list_elem_of_In|done]. }
  simpl in Hkeys. destruct (truthy (filename i0)) eqn:Et.
  - simpl in Hkeys.
    destruct (first_seen_extends (List.filter truthy (map filename after))
                (step seen1 (filename i0))) as [extra Hext].
    fold step in Hext. rewrite Hext in Hkeys.
    assert (filename i0 ∈ step seen1 (filename i0)) as Hf.
    { unfold step. case_bool_decide as E; [done|].
      apply elem_of_app. right. left. }
    apply app_eq_inv in Hkeys as [(l & H1 & H2)|(l & H1 & H2)].
    + assert (k ∈ step seen1 (filename i0)) as Hk'
        by (rewrite H1; apply elem_of_app; by left).
      unfold step in Hk'. case_bool_decide as E; [by apply Hseen|].
      apply elem_of_app in Hk' as [Hk'|Hk']; [by apply Hseen|].
      by apply list_elem_of_singleton in Hk'.
    + rewrite H1 in Hnd. rewrite <- app_assoc in Hnd.
      apply NoDup_app in Hnd as (_ & Hnd & _).
      destruct (Hnd _ Hf). apply elem_of_app. right. left.
  - assert (filename i0 ∈ ks1 ++ filename i0 :: ks2) as Hin
      by (apply elem_of_app; right; left).
    rewrite <- Hkeys in Hin.
    apply first_seen_truthy in Hin as [Hin|Hin].
    + destruct (Hseen _ Hin) as (i & Hi & Hfi).
      apply first_seen_truthy in Hin as [Hin|Hin]; [by apply elem_of_nil in Hin|].
      apply list_elem_of_In, filter_In in Hin as [_ Hin]. congruence.
    + apply list_elem_of_In, filter_In in Hin as [_ Hin]. congruence.
Qed.

(** The keys of the groups are the non-empty names of the batch. *)
Lemma group_by_file_key instructions k :
  k ∈ map fst (group_by_file instructions) <->
  truthy k = true /\ exists i, i ∈ instructions /\ filename i = k.
Proof.
  destruct (group_fold instructions []) as (_ & _ & Hkeys).
  fold (group_by_file instructions) in Hkeys. rewrite Hkeys.
  split; [|auto]. intros [H|H]; [by apply elem_of_nil in H|done].
Qed.

End Groups.

(** * Processing the file groups *)

Section Scheduler.

Implicit Types (w : world) (f g place : pystr) (fl : file).

(** The inner loop changes no file; its result is the fold. *)
Lemma apply_each_run file_instructions : forall content w,
  exists records,
    apply_each file_instructions content w
    = (add_log w records, fold_apply file_instructions content).
Proof.
  induction file_instructions as [|i rest IH]; intros content w; simpl.
  - exists []. unfold ret, add_log. rewrite app_nil_r. by destruct w.
  - unfold bind, apply_logged.
    destruct (_apply_instruction i content) as [[content' records]|e].
    + destruct (IH content' (add_log w records)) as [records' ->].
      exists (records ++ records'). unfold add_log. simpl.
      by rewrite app_assoc.
    + exists []. unfold add_log. rewrite app_nil_r. by destruct w.
Qed.

Lemma file_after_is_Some before file_instructions :
  is_Some (file_after before file_instructions) <-> is_Some before.
Proof.
  unfold file_after. destruct before as [fl|]; [|done].
  split; [eauto|]. intros _.
  destruct (readable fl && _); [|eauto].
  destruct (fold_apply _ _); [|eauto].
  destruct (writable fl); eauto.
Qed.

(** One round of the loop over the files.  It raises when the lookup of
    the name fails, and only then; the lookup stays as it is; the one file
    it can change is the file the name leads to. *)
Lemma process_file_round f file_instructions w :
  resolve (fst (process_file (f, file_instructions) w)) = resolve w /\
  snd (process_file (f, file_instructions) w)
  = match resolve w f with
    | lookup_fails => Raise io_error
    | _ => Ok tt
    end /\
  forall g,
    files (fst (process_file (f, file_instructions) w)) !! g
    = match resolve w f with
      | leads_to place =>
          if bool_decide (g = place)
          then file_after (files w !! place) file_instructions
          else files w !! g
      | _ => files w !! g
      end.
Proof.
  unfold process_file, bind, path_exists, try_except, read_text, file_after.
  destruct (resolve w f) as [place| |] eqn:Ep; [|done|done].
  destruct (files w !! place) as [fl|] eqn:Ef.
  - rewrite bool_decide_eq_true_2 by eauto. simpl. rewrite Ep, Ef.
    destruct (readable fl && forallb utf8_ok (contents fl)) eqn:Er.
    + destruct (apply_each_run file_instructions
                  (universal_newlines (contents fl)) w) as [records ->].
      destruct (fold_apply file_instructions _) as [content'|e].
      * unfold write_text. simpl. rewrite Ep, Ef.
        destruct (writable fl) eqn:Ew; simpl.
        -- destruct (forallb utf8_ok content') eqn:Eu; simpl;
             (split; [done|]; split; [done|]; intros g;
              case_bool_decide as Eg;
              [subst g; by rewrite lookup_insert_eq
              |by rewrite lookup_insert_ne]).
        -- split; [done|]. split; [done|]. intros g.
           case_bool_decide as Eg; [by subst g|done].
      * simpl. split; [done|]. split; [done|]. intros g.
        case_bool_decide as Eg; [by subst g|done].
    + simpl. split; [done|]. split; [done|]. intros g.
      case_bool_decide as Eg; [by subst g|done].
  - rewrite bool_decide_eq_false_2 by (intros [x Hx]; done). simpl.
    split; [done|]. split; [done|]. intros g.
    case_bool_decide as Eg; [by subst g|done].
Qed.

(** What every round keeps, the loop keeps, whether it ends or raises. *)
Lemma for_each_keeps (I : world -> Prop) items :
  (forall item w, item ∈ items -> I w -> I (fst (process_file item w))) ->
  forall w, I w -> I (fst (for_each items process_file w)).
Proof.
  induction items as [|item items IH]; intros Hround w Hw; [done|].
  cbn [for_each]. unfold bind.
  pose proof (Hround item w ltac:(left) Hw) as H1.
  destruct (process_file item w) as [w1 [[]|e]]; simpl in *; [|done].
  apply IH; [|done]. intros item' w' Hin. apply Hround. by right.
Qed.

Lemma for_each_app items1 items2 w :
  for_each (items1 ++ items2) process_file w
  = match for_each items1 process_file w with
    | (w1, Ok _) => for_each items2 process_file w1
    | (w1, Raise e) => (w1, Raise e)
    end.
Proof.
  revert w. induction items1 as [|item items1 IH]; intros w; [done|].
  cbn [for_each app]. unfold bind.
  destruct (process_file item w) as [w1 [[]|e]]; [apply IH|done].
Qed.

Lemma for_each_resolve items w :
  resolve (fst (for_each items process_file w)) = resolve w.
Proof.
  apply (for_each_keeps (fun w' => resolve w' = resolve w)); [|done].
  intros [f file_instructions] w' _ <-.
  apply process_file_round.
Qed.

(** The loop leaves a place alone to which no group leads. *)
Lemma for_each_untouched items w place :
  (forall f file_instructions,
     (f, file_instructions) ∈ items -> resolve w f <> leads_to place) ->
  files (fst (for_each items process_file w)) !! place = files w !! place.
Proof.
  intros Hno.
  apply (for_each_keeps
           (fun w' => resolve w' = resolve w /\
                      files w' !! place = files w !! place)); [|done].
  intros [f file_instructions] w' Hin [Hr Hf].
  destruct (process_file_round f file_instructions w') as (H1 & _ & H3).
  split; [congruence|]. rewrite H3, <- Hf.
  specialize (Hno f file_instructions Hin). rewrite <- Hr in Hno.
  destruct (resolve w' f) as [place'| |]; [|done|done].
  rewrite bool_decide_eq_false_2; [done|]. intros ->. done.
Qed.

(** The loop makes no file and removes none. *)
Lemma for_each_is_Some items w g :
  is_Some (files (fst (for_each items process_file w)) !! g)
  <-> is_Some (files w !! g).
Proof.
  apply (for_each_keeps
           (fun w' => is_Some (files w' !! g) <-> is_Some (files w !! g)));
    [|done].
  intros [f file_instructions] w' _ <-.
  destruct (process_file_round f file_instructions w') as (_ & _ & ->).
  destruct (resolve w' f) as [place| |]; [|done|done].
  case_bool_decide as Eg; [|done]. subst g. apply file_after_is_Some.
Qed.

(** The loop returns when the lookup of no group fails. *)
Lemma for_each_returns items : forall w,
  (forall f file_instructions,
     (f, file_instructions) ∈ items -> resolve w f <> lookup_fails) ->
  snd (for_each items process_file w) = Ok tt.
Proof.
  induction items as [|[f file_instructions] items IH]; intros w Hno; [done|].
  cbn [for_each]. unfold bind.
  destruct (process_file_round f file_instructions w) as (H1 & H2 & _).
  destruct (process_file (f, file_instructions) w) as [w1 r]. simpl in *.
  pose proof (Hno f file_instructions ltac:(left)) as Hf.
  destruct (resolve w f); [| |done]; subst r.
  all: apply IH; intros f' is' Hin; rewrite H1; apply (Hno f' is'); by right.
Qed.

(** The loop raises when the lookup of a group fails. *)
Lemma for_each_raises items : forall w f file_instructions,
  (f, file_instructions) ∈ items -> resolve w f = lookup_fails ->
  snd (for_each items process_file w) = Raise io_error.
Proof.
  induction items as [|[f0 is0] items IH]; intros w f file_instructions Hin Hf;
    [by apply elem_of_nil in Hin|].
  cbn [for_each]. unfold bind.
  destruct (process_file_round f0 is0 w) as (H1 & H2 & _).
  destruct (process_file (f0, is0) w) as [w1 r]. simpl in *.
  apply elem_of_cons in Hin as [[= <- <-]|Hin].
  - rewrite Hf in H2. by subst r.
  - destruct r as [[]|e].
    + apply (IH w1 f file_instructions Hin). by rewrite H1.
    + simpl. destruct (resolve w f0); congruence.
Qed.

End Scheduler.

(** * The batch and its files *)

Section Batch.

Implicit Types (w : world) (f g place : pystr) (fl : file).

Lemma targets_spec instructions f :
  targets instructions f = true <->
  truthy f = true /\ exists i, i ∈ instructions /\ filename i = f.
Proof.
  unfold targets. rewrite andb_true_iff, existsb_exists.
  split; intros [Ht (i & Hi & Hf)]; (split; [done|]); exists i.
  - apply list_elem_of_In in Hi. apply pystr_eqb_true in Hf. done.
  - apply list_elem_of_In in Hi. split; [done|]. by apply pystr_eqb_true.
Qed.

(** The batch makes no file and removes none. *)
Lemma apply_instructions_is_Some instructions w g :
  is_Some (files (fst (_apply_instructions instructions w)) !! g)
  <-> is_Some (files w !! g).
Proof. apply for_each_is_Some. Qed.

(** A place to which no name of the batch leads is left alone. *)
Lemma apply_instructions_untouched instructions w place :
  (forall i, i ∈ instructions -> truthy (filename i) = true ->
             resolve w (filename i) <> leads_to place) ->
  files (fst (_apply_instructions instructions w)) !! place = files w !! place.
Proof.
  intros Hno. apply for_each_untouched. intros f file_instructions Hin.
  assert (f ∈ map fst (group_by_file instructions)) as Hk
    by (apply list_elem_of_fmap; by exists (f, file_instructions)).
  apply group_by_file_key in Hk as (Ht & i & Hi & <-). by apply Hno.
Qed.

(** A file that only one name of the batch leads to, and that the group of
    that name leaves as it is, is as it was after the batch. *)
Lemma apply_instructions_kept instructions w f place fl :
  resolve w f = leads_to place ->
  (forall i, i ∈ instructions -> truthy (filename i) = true ->
             resolve w (filename i) = leads_to place -> filename i = f) ->
  files w !! place = Some fl ->
  file_after (Some fl) (group_of f instructions) = Some fl ->
  files (fst (_apply_instructions instructions w)) !! place = Some fl.
Proof.
  intros Hf Hone Hfl Hkeep.
  apply (for_each_keeps
           (fun w' => resolve w' = resolve w /\ files w' !! place = Some fl));
    [|done].
  intros [k file_instructions] w' Hin [Hr Hp].
  destruct (process_file_round k file_instructions w') as (H1 & _ & H3).
  split; [congruence|]. rewrite H3, Hr.
  destruct (resolve w k) as [place'| |] eqn:Ek; [|done|done].
  case_bool_decide as Eg; [|done]. subst place'.
  pose proof (group_by_file_item _ _ _ Hin) as [Ht ->].
  assert (k ∈ map fst (group_by_file instructions)) as Hk
    by (apply list_elem_of_fmap; by exists (k, group_of k instructions)).
  apply group_by_file_key in Hk as (_ & i & Hi & <-).
  rewrite (Hone i Hi Ht Ek), Hp. exact Hkeep.
Qed.

(** The file of a group after the batch, when the loop reaches the group
    and no other name of the batch leads to the file. *)
Lemma apply_instructions_group instructions before i0 after w place :
  instructions = before ++ i0 :: after ->
  truthy (filename i0) = true ->
  (forall i, i ∈ before -> truthy (filename i) = true ->
             resolve w (filename i) <> lookup_fails) ->
  resolve w (filename i0) = leads_to place ->
  (forall i, i ∈ instructions -> truthy (filename i) = true ->
             resolve w (filename i) = leads_to place ->
             filename i = filename i0) ->
  files (fst (_apply_instructions instructions w)) !! place
  = file_after (files w !! place) (group_of (filename i0) instructions).
Proof.
  intros Hsplit Ht Hbefore Hf Hone. remember (filename i0) as f eqn:Ef.
  destruct (group_by_file_spec instructions) as [Hnd Hgroups].
  assert ((f, group_of f instructions) ∈ group_by_file instructions) as Hin.
  { apply Hgroups; [done|]. exists i0. split; [|done].
    rewrite Hsplit. apply elem_of_app. right. left. }

  apply list_elem_of_split in Hin as (items1 & items2 & Hitems).
  assert (map fst (group_by_file instructions)
          = map fst items1 ++ f :: map fst items2) as Hkeys
    by (by rewrite Hitems, map_app).
  rewrite Hkeys in Hnd. apply NoDup_app in Hnd as (_ & Hnot1 & Hnd2).
  apply NoDup_cons in Hnd2 as [Hnot2 _].
  assert (forall k file_instructions,
            (k, file_instructions) ∈ items1 ++ items2 ->
            truthy k = true /\ k <> f /\
            exists i, i ∈ instructions /\ filename i = k) as Hother.
  { intros k file_instructions Hk.
    assert (k ∈ map fst (group_by_file instructions)) as Hk'.
    { rewrite Hkeys. apply elem_of_app in Hk as [Hk|Hk].
      - apply elem_of_app. left. apply list_elem_of_fmap.
        by exists (k, file_instructions).
      - apply elem_of_app. right. right. apply list_elem_of_fmap.
        by exists (k, file_instructions). }
    apply group_by_file_key in Hk' as [Htk Hex]. split; [done|]. split; [|done].
    intros ->. apply elem_of_app in Hk as [Hk|Hk].
    - apply (Hnot1 f); [|left]. apply list_elem_of_fmap.
      by exists (f, file_instructions).
    - apply Hnot2. apply list_elem_of_fmap. by exists (f, file_instructions). }
  assert (forall k file_instructions,
            (k, file_instructions) ∈ items1 ++ items2 ->
            resolve w k <> leads_to place) as Hnoalias.
  { intros k file_instructions Hk Hr.
    destruct (Hother _ _ Hk) as (Htk & Hne & i & Hi & <-).
    by apply Hne, Hone. }
  unfold _apply_instructions. rewrite Hitems, for_each_app.
  pose proof (for_each_returns items1 w) as Hret.
  pose proof (for_each_untouched items1 w place) as Hun1.
  pose proof (for_each_resolve items1 w) as Hres1.
  destruct (for_each items1 process_file w) as [w1 r1].
  simpl in Hret, Hun1, Hres1. cbv beta iota. rewrite Hret.
  2:{ intros k file_instructions Hk.
      assert (k ∈ map fst items1) as Hk1
        by (apply list_elem_of_fmap; by exists (k, file_instructions)).
      rewrite Ef in Hkeys.
      destruct (groups_before instructions before i0 after
                  (map fst items1) (map fst items2) k Hsplit Hkeys Hk1)
        as (i & Hi & <-).
      apply Hbefore; [done|].
      apply (Hother _ file_instructions). apply elem_of_app. by left. }
  rewrite <- Hun1.
  2:{ intros k file_instructions Hk. apply (Hnoalias k file_instructions).
      apply elem_of_app. by left. }
  cbn [for_each]. unfold bind.
  destruct (process_file_round f (group_of f instructions) w1)
    as (H1 & H2 & H3).
  specialize (H3 place). rewrite Hres1, Hf in H2, H3.
  rewrite bool_decide_eq_true_2 in H3 by done.
  destruct (process_file (f, group_of f instructions) w1) as [w2 r2].
  simpl in H1, H2, H3 |- *. subst r2. rewrite <- H3.
  apply for_each_untouched. intros k file_instructions Hk.
  rewrite H1, Hres1. apply (Hnoalias k file_instructions).
  apply elem_of_app. by right.
Qed.

End Batch.

(** C8, as stated, fails when two names of the batch lead to one file: the
    instructions are grouped by the name as it is spelled, and the group of
    [a.py] is folded before the group of [./a.py].  All three instructions
    target one file, their fold in batch order takes X to W, and the file
    is left with Z. *)
Lemma spellings_of_one_file_are_folded_apart :
  let batch := [Update "a.py" "X" "Y"; Update "./a.py" "Y" "Z";
                Update "a.py" "Z" "W"] in
  let w := with_alias "./a.py" "a.py" (world_of [named "a.py" "X"]) in
  (forall i, i ∈ batch -> resolve w (filename i) = leads_to (str "a.py")) /\
  fold_apply batch (str "X") = Ok (str "W") /\
  files (fst (_apply_instructions batch w)) !! str "a.py"
  = Some (plain_file "Z") /\
  str "Z" <> str "W".
Proof.
  intros batch w. split; [|split; [|split]].
  - intros i Hi.
    repeat (apply elem_of_cons in Hi as [->|Hi]; [vm_compute; reflexivity|]).
    by apply elem_of_nil in Hi.
  - vm_compute. reflexivity.
  - vm_compute. reflexivity.
  - discriminate.
Qed.

(** C8, amended.  The instructions of a batch that carry one file name are
    applied as a left fold in batch order, over the text read from the
    file, and the result is what the file holds afterwards, when no other
    name of the batch leads to the same file, the file can be read and
    written, no step raises, and the lookup of no name that comes earlier
    in the batch fails.  An Update of X to Y followed by an Update of Y to
    Z leaves Z. *)
Theorem same_file_instructions_fold_in_order :
  (forall instructions before i0 after w place fl content',
     instructions = before ++ i0 :: after ->
     truthy (filename i0) = true ->
     (forall i, i ∈ before -> truthy (filename i) = true ->
                resolve w (filename i) <> lookup_fails) ->
     resolve w (filename i0) = leads_to place ->
     (forall i, i ∈ instructions -> truthy (filename i) = true ->
                resolve w (filename i) = leads_to place ->
                filename i = filename i0) ->
     files w !! place = Some fl ->
     readable fl = true -> writable fl = true ->
     forallb utf8_ok (contents fl) = true ->
     fold_apply (group_of (filename i0) instructions)
       (universal_newlines (contents fl))
     = Ok content' ->
     forallb utf8_ok content' = true ->
     files (fst (_apply_instructions instructions w)) !! place
     = Some (set_contents fl content'))
  /\
  files (fst (_apply_instructions
                [Update "a.py" "X" "Y"; Update "a.py" "Y" "Z"]
                (world_of [named "a.py" "X"]))) !! str "a.py"
  = Some (plain_file "Z").
Proof.
  split; [|vm_compute; reflexivity].
  intros instructions before i0 after w place fl content'
    Hsplit Ht Hbefore Hf Hone Hfl Hr Hw Hu Hfold Hu'.
  rewrite (apply_instructions_group instructions before i0 after w place)
    by done.
  rewrite Hfl. unfold file_after. by rewrite Hr, Hu, Hfold, Hw, Hu'.
Qed.

Lemma same_file_instructions_fold_in_order_witness :
  files (fst (_apply_instructions
                [Update "gone.py" "X" "Q"; Update "a.py" "X" "Y";
                 Update "b.py" "Y" "Q"; Update "a.py" "Y" "Z"]
                (with_name_limit
                   (world_of [named "a.py" "X + X"; named "b.py" "Y"]))))
    !! str "a.py"
  = Some (plain_file "Z + Z").
Proof.
  apply (proj1 same_file_instructions_fold_in_order
           [Update "gone.py" "X" "Q"; Update "a.py" "X" "Y";
            Update "b.py" "Y" "Q"; Update "a.py" "Y" "Z"]
           [Update "gone.py" "X" "Q"] (Update "a.py" "X" "Y")
           [Update "b.py" "Y" "Q"; Update "a.py" "Y" "Z"]
           (with_name_limit (world_of [named "a.py" "X + X"; named "b.py" "Y"]))
           (str "a.py") (plain_file "X + X") (str "Z + Z")).
  - reflexivity.
  - reflexivity.
  - intros i Hi _. apply elem_of_cons in Hi as [->|Hi];
      [vm_compute; discriminate|by apply elem_of_nil in Hi].
  - vm_compute. reflexivity.
  - intros i Hi _.
    repeat (apply elem_of_cons in Hi as [->|Hi];
            [vm_compute; (reflexivity || discriminate)|]).
    by apply elem_of_nil in Hi.
  - vm_compute. reflexivity.
  - reflexivity.
  - reflexivity.
  - vm_compute. reflexivity.
  - vm_compute. reflexivity.
  - vm_compute. reflexivity.
Defined.

(** C9 fails on the code.  [Path.exists] is called outside the [try], and
    it raises when the lookup of the name fails for another reason than
    that nothing is there: with a name of 256 characters and more in front
    of [a.py], the exception leaves [_apply_instructions], nothing is
    logged, and the instruction for [a.py] is never applied, though alone
    it would be. *)
Theorem failed_lookup_leaves_the_batch :
  let long_name := replicate 256 (N_of_ascii "a") ++ str ".py" in
  let long := {| type := str "update"; filename := long_name;
                 find := str "X"; replace := str "Y";
                 write := []; delete := [] |} in
  let w := with_name_limit (world_of [named "a.py" "X"]) in
  let w' := fst (_apply_instructions [long; Update "a.py" "X" "Y"] w) in
  resolve w long_name = lookup_fails /\
  snd (_apply_instructions [long; Update "a.py" "X" "Y"] w) = Raise io_error /\
  files w' !! str "a.py" = Some (plain_file "X") /\
  log w' = [] /\
  _apply_instructions [Update "a.py" "X" "Y"] w
  = (add_log (set_files w (<[str "a.py" := plain_file "Y"]> (files w)))
       [info_updated (str "a.py")], Ok tt).
Proof.
  intros long_name long w w'.
  split; [vm_compute; reflexivity|].
  split; [vm_compute; reflexivity|].
  split; [vm_compute; reflexivity|].
  split; [vm_compute; reflexivity|].
  vm_compute. reflexivity.
Qed.

(** * The examples of the specification *)

Example update_end_to_end :
  _apply_instruction
    {| type := str "update"; filename := str "f.py";
       find := str "def foo():" ++ [LF] ++ str "    return 1";
       replace := str "def foo():" ++ [LF] ++ str "    return 2";
       write := []; delete := [] |}
    (str "def foo():" ++ [LF] ++ str "    return 1" ++ [LF])
  = Ok (str "def foo():" ++ [LF] ++ str "    return 2" ++ [LF], []).
Proof. vm_compute. reflexivity. Qed.

Example delete_end_to_end :
  _apply_instruction (Delete "f.py" "TODO")
    (str "a" ++ [LF] ++ str "TODO" ++ [LF] ++ str "b" ++ [LF])
  = Ok (str "a" ++ [LF] ++ [LF] ++ str "b" ++ [LF], []).
Proof. vm_compute. reflexivity. Qed.

Example newline_style_tolerance :
  let p := pattern_of (str "a" ++ [LF] ++ str "b") in
  re_search p (str "a" ++ [LF] ++ str "b") false
  = Some ([], str "a" ++ [LF] ++ str "b", []) /\
  re_search p (str "a" ++ [CR; LF] ++ str "b") false
  = Some ([], str "a" ++ [CR; LF] ++ str "b", []).
Proof. vm_compute. split; reflexivity. Qed.

Example no_match_warns :
  _apply_instruction (Update "f.py" "zz" "X") (str "a b")
  = Ok (str "a b", [warning_no_matches (str "update") (str "zz")]).
Proof. vm_compute. reflexivity. Qed.

(** The pattern of a lone line end is empty and matches at every position. *)
Example empty_pattern_substitutes_everywhere :
  _flexible_pattern [LF] = [] /\
  _apply_instruction
    {| type := str "update"; filename := str "f.py"; find := [LF];
       replace := str "X"; write := []; delete := [] |} (str "ab")
  = Ok (str "XaXbX", []).
Proof. vm_compute. split; reflexivity. Qed.

(** X1. The batch neither creates nor removes a file, and a file that no
    instruction names, by whatever spelling, is left exactly as it was. *)
Theorem unnamed_files_are_untouched :
  forall instructions w g,
    let w' := fst (_apply_instructions instructions w) in
    (is_Some (files w' !! g) <-> is_Some (files w !! g)) /\
    ((forall i, i ∈ instructions -> resolve w (filename i) <> leads_to g) ->
     files w' !! g = files w !! g).
Proof.
  intros instructions w g. simpl.
  split; [apply apply_instructions_is_Some|].
  intros Hno. apply apply_instructions_untouched. auto.
Qed.

Lemma unnamed_files_are_untouched_witness :
  files (fst (_apply_instructions
                [Update "a.py" "X" "Y"; Update "gone.py" "X" "Y"]
                (world_of [named "a.py" "X"; named "b.py" "X"]))) !! str "b.py"
  = Some (plain_file "X").
Proof.
  apply (proj2 (unnamed_files_are_untouched
                  [Update "a.py" "X" "Y"; Update "gone.py" "X" "Y"]
                  (world_of [named "a.py" "X"; named "b.py" "X"]) (str "b.py"))).
  intros i Hi.
  repeat (apply elem_of_cons in Hi as [->|Hi]; [vm_compute; discriminate|]).
  by apply elem_of_nil in Hi.
Defined.

(** X2. When an instruction of a group raises, or the file cannot be read,
    nothing is written to the file: it is left as it was, and what the
    earlier instructions of the group had changed is lost.  The file is
    the one the name of the group leads to, no other name of the batch
    leading to it. *)
Theorem raising_group_leaves_file_unchanged :
  forall instructions w f place fl e,
    targets instructions f = true ->
    resolve w f = leads_to place ->
    (forall i, i ∈ instructions -> truthy (filename i) = true ->
               resolve w (filename i) = leads_to place -> filename i = f) ->
    files w !! place = Some fl ->
    (readable fl && forallb utf8_ok (contents fl) = false \/
     fold_apply (group_of f instructions) (universal_newlines (contents fl))
     = Raise e) ->
    files (fst (_apply_instructions instructions w)) !! place = Some fl.
Proof.
  intros instructions w f place fl e Ht Hf Hone Hfl H.
  apply (apply_instructions_kept instructions w f place fl); try done.
  unfold file_after.
  destruct (readable fl && forallb utf8_ok (contents fl)); [|done].
  destruct H as [H|H]; [discriminate|]. by rewrite H.
Qed.

Lemma raising_group_leaves_file_unchanged_witness :
  files (fst (_apply_instructions
                [Update "a.py" "X" "Y"; Update "a.py" "Y" "\d"]
                (world_of [named "a.py" "X"]))) !! str "a.py"
  = Some (plain_file "X").
Proof.
  apply (raising_group_leaves_file_unchanged
           [Update "a.py" "X" "Y"; Update "a.py" "Y" "\d"]
           (world_of [named "a.py" "X"]) (str "a.py") (str "a.py")
           (plain_file "X") re_error).
  - reflexivity.
  - reflexivity.
  - intros i Hi _.
    repeat (apply elem_of_cons in Hi as [->|Hi]; [reflexivity|]).
    by apply elem_of_nil in Hi.
  - vm_compute. reflexivity.
  - right. vm_compute. reflexivity.
Defined.

(** X3. Grouping is a stable partition: the groups are keyed by the
    non-empty file names of the batch, each once and in the order in which
    it first appears, and the group of a name holds the instructions that
    carry it, in batch order.  Instructions without a file name are in no
    group. *)
Theorem group_by_file_is_stable :
  forall instructions,
    group_by_file instructions
    = map (fun f => (f, group_of f instructions))
          (first_seen (List.filter truthy (map filename instructions))).
Proof.
  intros instructions.
  destruct (group_by_file_spec instructions) as [Hnd _].
  destruct (group_fold instructions []) as (_ & Hget & _).
  fold (group_by_file instructions) in Hget.
  rewrite (dict_as_map _ Hnd) at 1.
  unfold group_by_file at 2. rewrite group_keys. fold (first_seen (List.filter truthy (map filename instructions))).
  apply map_ext_in. intros f Hf. rewrite Hget. simpl.
  apply list_elem_of_In, first_seen_truthy in Hf as [Hf|Hf];
    [by apply elem_of_nil in Hf|].
  apply list_elem_of_In, filter_In in Hf as [_ ->]. done.
Qed.

(** X4. Whatever the snippet, the pattern string written for it compiles:
    [re.compile] never raises in [_apply_instruction]. *)
Theorem flexible_pattern_always_compiles :
  forall text, is_Some (re_compile (_flexible_pattern text)).
Proof. intros text. rewrite flexible_pattern_compiles. eauto. Qed.

(** X5. An instruction with an empty [find] does nothing and logs nothing,
    whatever its kind and its other fields; so does a delete instruction
    that carries its text in the [delete] field alone, and an instruction
    of any other kind than update, insert and delete. *)
Theorem instruction_without_find_is_inert :
  forall i content,
    find i = [] \/
    (type i <> str "update" /\ type i <> str "insert" /\ type i <> str "delete") ->
    _apply_instruction i content = Ok (content, []).
Proof.
  intros i content [Hf|(Hu & Hi & Hd)].
  - apply apply_inert; intros _; by rewrite Hf.
  - apply apply_inert; intros Ht; congruence.
Qed.

Lemma instruction_without_find_is_inert_witness :
  _apply_instruction
    {| type := str "delete"; filename := str "f.py"; find := [];
       replace := []; write := []; delete := str "TODO" |}
    (str "a TODO b")
  = Ok (str "a TODO b", []).
Proof.
  apply instruction_without_find_is_inert. left. reflexivity.
Defined.

(** * One pass over the text *)

Section Scan.

Implicit Types (re : regex) (s m : pystr).

Lemma matches_empty re :
  matches re [] -> existsb consuming re = false.
Proof.
  induction re as [|[cs r] re IH]; intros H; [done|].
  inversion H as [| | |cs' re' m' Hm|cs' w re' m' Hw Hall Hm Hre Heq]; subst.
  - simpl. by apply IH.
  - destruct w; [done|discriminate].
Qed.

Lemma lits_consuming t : forallb consuming (lits t) = true.
Proof. induction t as [|c t IH]; [done|]. simpl. exact IH. Qed.

Lemma line_regex_consuming line : forallb consuming (line_regex line) = true.
Proof.
  unfold line_regex.
  destruct (re_match_indent_content line) as [[indent content]|];
    [|apply lits_consuming].
  destruct (List.filter truthy (re_split_ws content)) as [|t0 ts];
    [apply lits_consuming|].
  rewrite !forallb_app, !lits_consuming. simpl.
  induction ts as [|t ts IH]; [done|].
  simpl. rewrite forallb_app, lits_consuming. exact IH.
Qed.

Lemma forallb_existsb_consuming re :
  forallb consuming re = true -> re <> [] -> existsb consuming re = true.
Proof. destruct re as [|o re]; [done|]. simpl. intros H _. by apply andb_prop in H as [-> _]. Qed.

(** A pattern of [_flexible_pattern] that is not empty matches no empty
    text. *)
Lemma pattern_of_consumes text :
  pattern_of text <> [] -> ~ matches (pattern_of text) [].
Proof.
  unfold pattern_of. intros Hne Hm. apply matches_empty in Hm.
  assert (forall ls, join_regex (map line_regex ls) <> [] ->
            existsb consuming (join_regex (map line_regex ls)) = true) as H.
  { intros ls. induction ls as [|l ls IH]; [done|].
    destruct ls as [|l' ls].
    - simpl. apply forallb_existsb_consuming, line_regex_consuming.
    - intros _.
      change (join_regex (map line_regex (l :: l' :: ls)))
        with (line_regex l ++ newline_ops
              ++ join_regex (map line_regex (l' :: ls))).
      rewrite !existsb_app. simpl. by rewrite orb_true_r. }
  rewrite (H _ Hne) in Hm. discriminate.
Qed.

(** [subn] cuts the text at the matches of a scan and puts the replacement
    in place of each. *)
Lemma subn_loop_scanned re f :
  ~ matches re [] ->
  forall n s, (length s <= n)%nat ->
    exists parts tail,
      scanned re s parts tail /\
      subn_loop (enough s false) re f s false
      = (flat_map (fun p => fst p ++ f (snd p)) parts ++ tail, length parts).
Proof.
  intros Hne. induction n as [|n IH]; intros s Hn.
  - destruct s; [|simpl in Hn; lia].
    exists [], []. rewrite subn_loop_step by done.
    destruct (re_search re [] false) as [[[b m] a]|] eqn:E.
    + apply re_search_sound in E as (Hs & Hm & _).
      destruct b; [|discriminate]. destruct m; [|discriminate].
      by destruct Hne.
    + split; [|done]. constructor. by apply re_search_none.
  - rewrite subn_loop_step by done.
    destruct (re_search re s false) as [[[b m] a]|] eqn:E.
    + pose proof (re_search_sound _ _ _ _ _ _ E) as (Hs & Hm & _).
      assert (m <> []) as Hm0 by (intros ->; by destruct Hne).
      destruct m as [|c m]; [done|]. simpl.
      destruct (IH a) as (parts & tail & Hsc & Hloop).
      { subst s. rewrite !length_app in Hn. simpl in Hn. lia. }
      rewrite Hloop. exists ((b, c :: m) :: parts), tail. split; [|simpl; by rewrite <- !app_assoc].
      eapply scanned_step; [exact Hs|exact Hm|done| |exact Hsc].
      intros pre' m' post' Hs' Hm'.
      eapply re_search_leftmost; [exact E|exact Hs'|exact Hm'|done].
    + exists [], s. split; [|done]. constructor. by apply re_search_none.
Qed.

Lemma scanned_text re s parts tail :
  scanned re s parts tail -> s = pieces_text parts tail.
Proof.
  unfold pieces_text. induction 1 as [|s b m a parts tail Hs Hm Hm0 Hl Hsc IH];
    [done|]. simpl. rewrite Hs, IH. by rewrite <- !app_assoc.
Qed.

End Scan.

(** X6. An Update whose [replace] has no backslash, for a [find] that is
    more than a lone line end, rewrites every match of a left-to-right
    pass and nothing else: the content is cut at the matches (each the
    leftmost in what is left, none left in the tail), [replace] stands in
    place of each, and the no-match warning is logged exactly when there
    was none. *)
Theorem update_rewrites_every_match :
  forall i content re,
    type i = str "update" ->
    truthy (find i) = true -> truthy (replace i) = true ->
    BACKSLASH ∉ replace i ->
    re_compile (_flexible_pattern (find i)) = Some re -> re <> [] ->
    exists parts tail,
      scanned re content parts tail /\
      content = pieces_text parts tail /\
      _apply_instruction i content
      = Ok (pieces_with (replace i) parts tail,
            match parts with
            | [] => [warning_no_matches (str "update") (find i)]
            | _ => []
            end).
Proof.
  intros i content re Ht Hf Hr Hb Hre Hne.
  rewrite flexible_pattern_compiles in Hre. injection Hre as <-.
  apply pattern_of_consumes in Hne.
  destruct (subn_loop_scanned _ (fun _ => replace i) Hne (length content) content)
    as (parts & tail & Hsc & Hloop); [done|].
  exists parts, tail. split; [done|]. split; [by eapply scanned_text|].
  rewrite apply_update, pattern_subn_literal, Hloop by done.
  unfold pieces_with. by destruct parts.
Qed.

Lemma update_rewrites_every_match_witness :
  exists parts tail,
    str "a=1; b=2; c=3" = pieces_text parts tail /\
    _apply_instruction (Update "f.py" "=" " = ") (str "a=1; b=2; c=3")
    = Ok (pieces_with (str " = ") parts tail,
          match parts with
          | [] => [warning_no_matches (str "update") (str "=")]
          | _ => []
          end).
Proof.
  destruct (update_rewrites_every_match (Update "f.py" "=" " = ")
              (str "a=1; b=2; c=3") (pattern_of (str "=")))
    as (parts & tail & _ & Hc & Happ).
  - reflexivity.
  - reflexivity.
  - reflexivity.
  - intros H. vm_compute in H.
    repeat (apply elem_of_cons in H as [H|H]; [discriminate H|]).
    by apply elem_of_nil in H.
  - apply flexible_pattern_compiles.
  - discriminate.
  - exists parts, tail. split; [exact Hc|exact Happ].
Defined.

(** X7. A Delete, for a [find] that is more than a lone line end, removes
    every match of a left-to-right pass and nothing else: what is left is
    the stretches between the matches and the tail, in order; the no-match
    warning is logged exactly when there was no match. *)
Theorem delete_removes_every_match :
  forall i content re,
    type i = str "delete" -> truthy (find i) = true ->
    re_compile (_flexible_pattern (find i)) = Some re -> re <> [] ->
    exists parts tail,
      scanned re content parts tail /\
      content = pieces_text parts tail /\
      _apply_instruction i content
      = Ok (flat_map fst parts ++ tail,
            match parts with
            | [] => [warning_no_matches (str "delete") (find i)]
            | _ => []
            end).
Proof.
  intros i content re Ht Hf Hre Hne.
  rewrite flexible_pattern_compiles in Hre. injection Hre as <-.
  apply pattern_of_consumes in Hne.
  destruct (subn_loop_scanned _ (fun _ => []) Hne (length content) content)
    as (parts & tail & Hsc & Hloop); [done|].
  exists parts, tail. split; [done|]. split; [by eapply scanned_text|].
  rewrite apply_delete by done.
  rewrite pattern_subn_literal by apply not_elem_of_nil. rewrite Hloop.
  assert (flat_map (fun p : list N * list N => fst p ++ []) parts
          = flat_map fst parts) as ->.
  { clear. induction parts as [|p parts IH]; [done|].
    simpl. by rewrite IH, app_nil_r. }
  by destruct parts.
Qed.

Lemma delete_removes_every_match_witness :
  exists parts tail,
    str "x = 1  # tmp" = pieces_text parts tail /\
    _apply_instruction (Delete "f.py" "# tmp") (str "x = 1  # tmp")
    = Ok (flat_map fst parts ++ tail,
          match parts with
          | [] => [warning_no_matches (str "delete") (str "# tmp")]
          | _ => []
          end).
Proof.
  destruct (delete_removes_every_match (Delete "f.py" "# tmp")
              (str "x = 1  # tmp") (pattern_of (str "# tmp")))
    as (parts & tail & _ & Hc & Happ).
  - reflexivity.
  - reflexivity.
  - apply flexible_pattern_compiles.
  - discriminate.
  - exists parts, tail. split; [exact Hc|exact Happ].
Defined.

(** * A snippet and its own text *)

Section SelfMatch.

Implicit Types (s l m : pystr).

Lemma re_split_ws_eq c s :
  re_split_ws (c :: s) =
  if is_space c then
    match s with
    | d :: _ => if is_space d then re_split_ws s else [] :: re_split_ws s
    | [] => [] :: re_split_ws s
    end
  else
    match re_split_ws s with
    | [] => [[c]]
    | p :: ps => (c :: p) :: ps
    end.
Proof. done. Qed.

Lemma re_split_ws_head c s :
  is_space c = true -> exists ps, re_split_ws (c :: s) = [] :: ps.
Proof.
  revert c. induction s as [|d s IH]; intros c Hc; rewrite re_split_ws_eq, Hc.
  - eauto.
  - destruct (is_space d) eqn:Ed; [|eauto]. apply (IH d Ed).
Qed.

Lemma re_split_ws_not_nil s : re_split_ws s <> [].
Proof.
  induction s as [|c s IH]; [done|]. rewrite re_split_ws_eq.
  destruct (is_space c).
  - destruct s as [|d s]; [done|]. destruct (is_space d); done.
  - destruct (re_split_ws s); done.
Qed.

Lemma re_split_ws_cons_word c s :
  is_space c = false ->
  exists p ps, re_split_ws s = p :: ps /\ re_split_ws (c :: s) = (c :: p) :: ps.
Proof.
  intros Hc. rewrite re_split_ws_eq, Hc.
  pose proof (re_split_ws_not_nil s) as H.
  destruct (re_split_ws s) as [|p ps]; [done|eauto].
Qed.

Lemma matches_space_more c re m :
  is_space c = true ->
  matches (space_plus :: re) m -> matches (space_plus :: re) (c :: m).
Proof.
  intros Hc H. inversion H; subst.
  apply (matches_many CategorySpace (c :: w)); [done| |done].
  simpl. by rewrite Hc.
Qed.

(** The text is its pieces with the white space between them. *)
Lemma matches_pieces s : matches (pieces_regex (re_split_ws s)) s.
Proof.
  induction s as [|c s IH]; [constructor|].
  destruct (is_space c) eqn:Ec.
  - destruct s as [|d s].
    + rewrite re_split_ws_eq, Ec. simpl.
      apply (matches_many CategorySpace [c] [] []); [done|simpl; by rewrite Ec|constructor].
    + destruct (is_space d) eqn:Ed.
      * assert (re_split_ws (c :: d :: s) = re_split_ws (d :: s)) as ->
          by (rewrite re_split_ws_eq; by rewrite Ec, Ed).
        destruct (re_split_ws_head d s Ed) as [ps Hps]. rewrite Hps in IH |- *.
        simpl in IH |- *. destruct ps as [|p ps]; [inversion IH|].
        simpl in IH |- *. by apply matches_space_more.
      * assert (re_split_ws (c :: d :: s) = [] :: re_split_ws (d :: s)) as ->
          by (rewrite re_split_ws_eq; by rewrite Ec, Ed).
        destruct (re_split_ws_cons_word d s Ed) as (p & ps & _ & Hps).
        rewrite Hps in IH |- *. simpl in IH |- *.
        apply (matches_many CategorySpace [c]); [done|simpl; by rewrite Ec|done].
  - destruct (re_split_ws_cons_word c s Ec) as (p & ps & Hs & ->).
    rewrite Hs in IH. simpl in IH |- *. constructor; [simpl; apply N.eqb_refl|done].
Qed.

(** A text that does not end in white space has no empty piece after the
    first. *)
Lemma re_split_ws_tail_truthy s :
  s <> [] ->
  match last s with Some c => is_space c = false | None => True end ->
  forallb truthy (tail (re_split_ws s)) = true.
Proof.
  induction s as [|c s IH]; intros _ Hl; [done|].
  destruct (is_space c) eqn:Ec.
  - destruct s as [|d s]; [simpl in Hl; congruence|].
    assert (last (c :: d :: s) = last (d :: s)) as Hlast by done.
    rewrite Hlast in Hl.
    destruct (is_space d) eqn:Ed.
    + assert (re_split_ws (c :: d :: s) = re_split_ws (d :: s)) as ->
        by (rewrite re_split_ws_eq; by rewrite Ec, Ed).
      by apply IH.
    + assert (re_split_ws (c :: d :: s) = [] :: re_split_ws (d :: s)) as ->
        by (rewrite re_split_ws_eq; by rewrite Ec, Ed).
      destruct (re_split_ws_cons_word d s Ed) as (p & ps & _ & Hps).
      specialize (IH ltac:(done) Hl). rewrite Hps in IH |- *. done.
  - destruct (re_split_ws_cons_word c s Ec) as (p & ps & Hs & ->).
    destruct s as [|d s].
    + simpl in Hs. by injection Hs as <- <-.
    + assert (last (c :: d :: s) = last (d :: s)) as Hlast by done.
      rewrite Hlast in Hl. specialize (IH ltac:(done) Hl).
      by rewrite Hs in IH.
Qed.

Lemma filter_all_true (f : list N -> bool) (ps : list (list N)) :
  forallb f ps = true -> List.filter f ps = ps.
Proof.
  induction ps as [|p ps IH]; [done|]. simpl.
  intros H. apply andb_prop in H as [-> H]. by rewrite IH.
Qed.

Lemma take_drop_while f s : take_while f s ++ drop_while f s = s.
Proof.
  induction s as [|c s IH]; [done|]. simpl.
  destruct (f c); [|done]. simpl. by rewrite IH.
Qed.

Lemma drop_while_all f s : forallb f s = true -> drop_while f s = [].
Proof.
  induction s as [|c s IH]; [done|]. simpl. intros H.
  apply andb_prop in H as [-> H]. by apply IH.
Qed.

Lemma drop_while_head f s :
  match drop_while f s with c :: _ => f c = false | [] => True end.
Proof.
  induction s as [|c s IH]; [done|]. simpl.
  destruct (f c) eqn:E; [done|]. simpl. exact E.
Qed.

Lemma drop_while_forallb f g s :
  forallb g s = true -> forallb g (drop_while f s) = true.
Proof.
  induction s as [|c s IH]; [done|]. simpl. intros H.
  apply andb_prop in H as [Hc H].
  destruct (f c); [by apply IH|]. simpl. by rewrite Hc, H.
Qed.

Lemma drop_while_last f s :
  drop_while f s <> [] -> last (drop_while f s) = last s.
Proof.
  induction s as [|c s IH]; [done|]. simpl.
  destruct (f c) eqn:E; [|done]. intros H. rewrite (IH H).
  destruct s; [done|done].
Qed.

Lemma is_linebreak_space c : is_linebreak c = true -> is_space c = true.
Proof.
  unfold is_linebreak, is_space.
  rewrite !orb_true_iff, !andb_true_iff, !N.leb_le, !N.eqb_eq. lia.
Qed.

(** The lines of a text hold no line end. *)
Lemma splitlines_no_linebreak s :
  Forall (fun l => forallb (fun c => negb (is_linebreak c)) l = true)
         (splitlines s).
Proof.
  assert (forall n s, (length s <= n)%nat ->
            Forall (fun l => forallb (fun c => negb (is_linebreak c)) l = true)
                   (splitlines s)) as H.
  { induction n as [|n IH]; intros t Hn.
    - destruct t; [constructor|simpl in Hn; lia].
    - destruct t as [|c t]; [constructor|]. simpl in Hn |- *.
      destruct (is_linebreak c) eqn:Ec.
      + destruct (c =? CR).
        * destruct t as [|d t]; [by repeat constructor|].
          destruct (d =? LF).
          -- constructor; [done|]. apply IH. simpl in Hn. lia.
          -- constructor; [done|]. apply IH. lia.
        * constructor; [done|]. apply IH. lia.
      + assert (Forall (fun l => forallb (fun c => negb (is_linebreak c)) l = true)
                  (splitlines t)) as Ht by (apply IH; lia).
        destruct (splitlines t) as [|l ls].
        * repeat constructor. simpl. by rewrite Ec.
        * inversion Ht; subst. constructor; [|done]. simpl. by rewrite Ec. }
  by apply (H (length s)).
Qed.

(** A clean line is matched by its own pattern. *)
Lemma line_self_match l :
  forallb (fun c => negb (is_linebreak c)) l = true ->
  line_ends_clean l = true ->
  matches (line_regex l) l.
Proof.
  intros Hnb Hclean. unfold line_regex, re_match_indent_content.
  assert (forallb (fun c => negb (c =? LF)) (drop_while is_space l) = true) as Hnl.
  { apply drop_while_forallb. eapply forallb_forall. intros c Hc.
    eapply forallb_forall in Hnb; [|exact Hc].
    destruct (N.eqb_spec c LF) as [->|]; [discriminate|done]. }
  rewrite (drop_while_all _ _ Hnl).
  assert (take_while (fun c => negb (c =? LF)) (drop_while is_space l)
          = drop_while is_space l) as ->.
  { rewrite <- (take_drop_while (fun c => negb (c =? LF)) (drop_while is_space l)) at 2.
    by rewrite (drop_while_all _ _ Hnl), app_nil_r. }
  destruct (drop_while is_space l) as [|c content] eqn:Ed.
  - simpl. apply matches_lits.
    rewrite <- (take_drop_while is_space l) at 1. by rewrite Ed, app_nil_r.
  - assert (forallb is_space l = false) as Hns.
    { destruct (forallb is_space l) eqn:E; [|done].
      rewrite (drop_while_all _ _ E) in Ed. discriminate. }
    unfold line_ends_clean in Hclean. rewrite Hns in Hclean. simpl in Hclean.
    assert (is_space c = false) as Hc.
    { pose proof (drop_while_head is_space l) as H. by rewrite Ed in H. }
    assert (match last (c :: content) with
            | Some x => is_space x = false | None => True end) as Hlast.
    { rewrite <- Ed, drop_while_last by (rewrite Ed; done).
      destruct (last l); [by apply negb_true_iff|done]. }
    pose proof (re_split_ws_tail_truthy (c :: content) ltac:(done) Hlast) as Htail.
    pose proof (matches_pieces (c :: content)) as Hm.
    destruct (re_split_ws_cons_word c content Hc) as (p & ps & _ & Hps).
    rewrite Hps in Htail, Hm |- *. simpl in Htail.
    rewrite filter_all_true by (simpl; exact Htail).
    rewrite <- (take_drop_while is_space l) at 2. rewrite Ed.
    apply matches_app; [by apply matches_lits|]. exact Hm.
Qed.

Lemma matches_newline_lf : matches newline_ops [LF].
Proof.
  apply matches_skip. apply (matches_lits [LF]). done.
Qed.

Lemma matches_newline_crlf : matches newline_ops [CR; LF].
Proof.
  apply matches_take; [done|]. apply (matches_lits [LF]). done.
Qed.

(** Segments that match line by line match the joined pattern when
    joined. *)
Lemma matches_joined segs m :
  joined segs m -> forall rs,
  Forall2 matches rs segs -> matches (join_regex rs) m.
Proof.
  induction 1 as [|seg|seg segs m Hne Hj IH|seg segs m Hne Hj IH];
    intros rs Hall.
  - inversion Hall; subst. constructor.
  - inversion Hall as [|r ? rs' ? Hr Hrs]; subst. inversion Hrs; subst. done.
  - inversion Hall as [|r ? rs' ? Hr Hrs]; subst.
    destruct rs' as [|r' rs']; [inversion Hrs; by subst|].
    change (join_regex (r :: r' :: rs'))
      with (r ++ newline_ops ++ join_regex (r' :: rs')).
    repeat apply matches_app; auto using matches_newline_lf.
  - inversion Hall as [|r ? rs' ? Hr Hrs]; subst.
    destruct rs' as [|r' rs']; [inversion Hrs; by subst|].
    change (join_regex (r :: r' :: rs'))
      with (r ++ newline_ops ++ join_regex (r' :: rs')).
    repeat apply matches_app; auto using matches_newline_crlf.
Qed.

(** The lines of a clean snippet, joined by LF or CR LF, are matched by its
    pattern. *)
Lemma clean_snippet_matches snippet m :
  forallb line_ends_clean (splitlines snippet) = true ->
  joined (splitlines snippet) m ->
  matches (pattern_of snippet) m.
Proof.
  intros Hclean Hj. unfold pattern_of. apply (matches_joined _ _ Hj).
  pose proof (splitlines_no_linebreak snippet) as Hnb.
  clear Hj. revert Hclean Hnb. generalize (splitlines snippet) as ls.
  induction ls as [|l ls IH]; intros Hclean Hnb; [constructor|].
  simpl in Hclean. apply andb_prop in Hclean as [Hl Hls].
  inversion Hnb; subst. constructor; [by apply line_self_match|by apply IH].
Qed.

Lemma splitlines_nil s : splitlines s = [] -> s = [].
Proof.
  destruct s as [|c s]; [done|]. simpl.
  destruct (is_linebreak c).
  - destruct (c =? CR); [|discriminate].
    destruct s as [|d s]; [discriminate|]. destruct (d =? LF); discriminate.
  - destruct (splitlines s); discriminate.
Qed.

Lemma joined_cons_head c l ls m :
  joined (l :: ls) m -> joined ((c :: l) :: ls) (c :: m).
Proof.
  intros H. inversion H; subst.
  - constructor.
  - by apply (joined_lf (c :: l)).
  - by apply (joined_crlf (c :: l)).
Qed.

(** A text with LF and CR LF line ends is its lines joined, and at most one
    line end after them. *)
Lemma splitlines_joined : forall n s,
  (length s <= n)%nat -> only_lf_crlf s = true ->
  exists m rest,
    s = m ++ rest /\ joined (splitlines s) m /\
    (rest = [] \/ rest = [LF] \/ rest = [CR; LF]).
Proof.
  induction n as [|n IH]; intros s Hn Hs.
  - destruct s; [|simpl in Hn; lia]. exists [], []. split; [done|].
    split; [constructor|by left].
  - destruct s as [|c s].
    { exists [], []. split; [done|]. split; [constructor|by left]. }
    simpl in Hn, Hs |- *. destruct (N.eqb_spec c CR) as [->|Hcr].
    + destruct s as [|d s]; [discriminate|].
      apply andb_prop in Hs as [Hd Hs]. rewrite Hd.
      apply N.eqb_eq in Hd as ->. simpl in Hn.
      change (is_linebreak CR) with true. cbv iota.
      destruct (IH s ltac:(lia) Hs) as (m & rest & -> & Hj & Hrest).
      destruct (splitlines (m ++ rest)) as [|l ls] eqn:El.
      * apply splitlines_nil in El. apply app_eq_nil in El as [-> ->].
        exists [], [CR; LF]. split; [done|]. split; [constructor|auto].
      * exists ([] ++ [CR; LF] ++ m), rest. split; [done|].
        split; [by constructor|done].
    + apply andb_prop in Hs as [Hc Hs].
      destruct (IH s ltac:(lia) Hs) as (m & rest & -> & Hj & Hrest).
      destruct (is_linebreak c) eqn:Eb.
      * simpl in Hc. apply N.eqb_eq in Hc as ->.
        destruct (splitlines (m ++ rest)) as [|l ls] eqn:El.
        -- apply splitlines_nil in El. apply app_eq_nil in El as [-> ->].
           exists [], [LF]. split; [done|]. split; [constructor|auto].
        -- exists ([] ++ [LF] ++ m), rest. split; [done|].
           split; [by constructor|done].
      * destruct (splitlines (m ++ rest)) as [|l ls] eqn:El.
        -- apply splitlines_nil in El. apply app_eq_nil in El as [-> ->].
           exists [c], []. split; [done|]. split; [constructor|auto].
        -- exists (c :: m), rest. split; [done|].
           split; [by apply joined_cons_head|done].
Qed.

End SelfMatch.

(** X8. Line ends are matched in either style: when no line of a snippet
    ends in white space after its text, every content that holds the lines
    of the snippet joined by LF or by CR LF, in any mix, is matched by the
    compiled pattern. *)
Theorem clean_snippet_is_found_in_either_newline_style :
  forall snippet re m content,
    re_compile (_flexible_pattern snippet) = Some re ->
    forallb line_ends_clean (splitlines snippet) = true ->
    joined (splitlines snippet) m ->
    occurs_in m content ->
    is_Some (re_search re content false).
Proof.
  intros snippet re m content Hre Hclean Hj (pre & post & ->).
  rewrite flexible_pattern_compiles in Hre. injection Hre as <-.
  apply re_search_some. exists pre, m, post. split; [done|].
  by apply clean_snippet_matches.
Qed.

Lemma clean_snippet_is_found_in_either_newline_style_witness :
  is_Some (re_search (pattern_of (str "if x:" ++ [LF] ++ str "    y = 1"))
             (str "z" ++ [LF] ++ str "if x:" ++ [CR; LF] ++ str "    y = 1" ++ [CR; LF])
             false).
Proof.
  apply (clean_snippet_is_found_in_either_newline_style
           (str "if x:" ++ [LF] ++ str "    y = 1") _
           (str "if x:" ++ [CR; LF] ++ str "    y = 1")).
  - apply flexible_pattern_compiles.
  - reflexivity.
  - apply (joined_crlf (str "if x:") [str "    y = 1"] (str "    y = 1"));
      [discriminate|constructor].
  - exists (str "z" ++ [LF]), [CR; LF]. reflexivity.
Defined.

(** X9. A [find] copied from the content as it stands is found there:
    when its line ends are LF or CR LF and none of its lines ends in white
    space after its text, the compiled pattern matches in every content in
    which [find] occurs. *)
Theorem verbatim_find_is_found :
  forall snippet re content,
    re_compile (_flexible_pattern snippet) = Some re ->
    forallb line_ends_clean (splitlines snippet) = true ->
    only_lf_crlf snippet = true ->
    occurs_in snippet content ->
    is_Some (re_search re content false).
Proof.
  intros snippet re content Hre Hclean Hnl (pre & post & ->).
  rewrite flexible_pattern_compiles in Hre. injection Hre as <-.
  destruct (splitlines_joined (length snippet) snippet ltac:(done) Hnl)
    as (m & rest & Hs & Hj & _).
  apply re_search_some. exists pre, m, (rest ++ post). split.
  - rewrite Hs at 1. by rewrite <- !app_assoc.
  - by apply clean_snippet_matches.
Qed.

Lemma verbatim_find_is_found_witness :
  is_Some (re_search
             (pattern_of (str "def f():" ++ [LF] ++ str "    return 1" ++ [LF]))
             (str "x = 0" ++ [LF] ++ str "def f():" ++ [LF] ++ str "    return 1"
              ++ [LF] ++ str "y = 2")
             false).
Proof.
  apply (verbatim_find_is_found
           (str "def f():" ++ [LF] ++ str "    return 1" ++ [LF])).
  - apply flexible_pattern_compiles.
  - reflexivity.
  - reflexivity.
  - exists (str "x = 0" ++ [LF]), (str "y = 2"). reflexivity.
Defined.

(** * The words of a text *)

Section Words.

Implicit Types (s t w : pystr).

Local Arguments str_split : simpl never.

Lemma str_split_eq c s :
  str_split (c :: s) =
  if is_space c then str_split s
  else
    match s with
    | d :: _ =>
        if is_space d then [c] :: str_split s
        else
          match str_split s with
          | w :: ws => (c :: w) :: ws
          | [] => [[c]]
          end
    | [] => [[c]]
    end.
Proof. done. Qed.

Lemma str_split_space c s : is_space c = true -> str_split (c :: s) = str_split s.
Proof. intros H. by rewrite str_split_eq, H. Qed.

Lemma str_split_spaces w s :
  forallb is_space w = true -> str_split (w ++ s) = str_split s.
Proof.
  induction w as [|c w IH]; [done|]. simpl. intros H.
  apply andb_prop in H as [Hc H]. rewrite str_split_space by done. by apply IH.
Qed.

Lemma str_split_not_nil c s : is_space c = false -> str_split (c :: s) <> [].
Proof.
  intros Hc. rewrite str_split_eq, Hc. destruct s as [|d s]; [done|].
  destruct (is_space d); [done|]. destruct (str_split (d :: s)); done.
Qed.

(** A word followed by nothing or by white space is the first word. *)
Lemma str_split_word t s :
  t <> [] -> forallb (fun c => negb (is_space c)) t = true ->
  match s with d :: _ => is_space d = true | [] => True end ->
  str_split (t ++ s) = t :: str_split s.
Proof.
  intros Ht Hall Hs. induction t as [|c t IH]; [done|].
  simpl in Hall. apply andb_prop in Hall as [Hc Hall].
  apply negb_true_iff in Hc. simpl. rewrite str_split_eq, Hc.
  destruct t as [|c' t].
  - simpl. destruct s as [|d s]; [done|]. by rewrite Hs.
  - simpl in Hall |- *. apply andb_prop in Hall as [Hc' Hall'].
    rewrite (proj1 (negb_true_iff _) Hc').
    change (c' :: t ++ s) with ((c' :: t) ++ s).
    rewrite IH; [done|done|]. simpl. by rewrite Hc', Hall'.
Qed.

(** White space between two texts keeps their words apart. *)
Lemma str_split_app a c b :
  is_space c = true ->
  str_split (a ++ c :: b) = str_split a ++ str_split b.
Proof.
  intros Hc. induction a as [|x a IH]; [by apply str_split_space|].
  simpl. rewrite !(str_split_eq x). destruct (is_space x); [done|].
  destruct a as [|d a].
  - simpl. rewrite Hc. by rewrite str_split_space.
  - simpl in IH |- *. destruct (is_space d) eqn:Ed.
    + by rewrite IH.
    + rewrite IH. pose proof (str_split_not_nil d a Ed) as H.
      destruct (str_split (d :: a)); done.
Qed.

Lemma str_split_app_nil a c :
  is_space c = true -> str_split (a ++ [c]) = str_split a.
Proof. intros Hc. by rewrite str_split_app, app_nil_r. Qed.

(** [s.split()] is [re.split] on white space without the empty pieces. *)
Lemma str_split_re_split s :
  List.filter truthy (re_split_ws s) = str_split s.
Proof.
  induction s as [|c s IH]; [done|].
  rewrite re_split_ws_eq, str_split_eq. destruct (is_space c) eqn:Ec.
  - destruct s as [|d s]; [done|]. destruct (is_space d); done.
  - pose proof (re_split_ws_not_nil s) as Hnn.
    destruct (re_split_ws s) as [|p ps] eqn:Es; [done|].
    destruct s as [|d s].
    + simpl in Es. injection Es as <- <-. done.
    + destruct (is_space d) eqn:Ed.
      * destruct (re_split_ws_head d s Ed) as [ps' Hps].
        rewrite Hps in Es. injection Es as <- <-.
        rewrite <- IH. done.
      * destruct (re_split_ws_cons_word d s Ed) as (p' & ps' & _ & Hps).
        rewrite Hps in Es. injection Es as <- <-.
        rewrite <- IH. done.
Qed.

(** The words of a text are the words of its lines. *)
Lemma str_split_splitlines : forall n s,
  (length s <= n)%nat ->
  str_split s = concat (map str_split (splitlines s)).
Proof.
  induction n as [|n IH]; intros s Hn.
  - destruct s; [done|simpl in Hn; lia].
  - destruct s as [|c s]; [done|]. simpl in Hn.
    cbn [splitlines]. destruct (is_linebreak c) eqn:Eb.
    + rewrite str_split_space by by apply is_linebreak_space.
      destruct (N.eqb_spec c CR) as [->|_].
      * destruct s as [|d s]; [done|].
        destruct (N.eqb_spec d LF) as [->|_].
        -- rewrite str_split_space by done. simpl in Hn |- *.
           apply IH. lia.
        -- simpl. apply IH. lia.
      * simpl. apply IH. lia.
    + specialize (IH s ltac:(lia)).
      destruct (splitlines s) as [|l ls] eqn:El.
      * apply splitlines_nil in El as ->. simpl. by rewrite app_nil_r.
      * cbn [map concat] in IH |- *. rewrite !(str_split_eq c).
        destruct (is_space c); [done|].
        destruct s as [|d s]; [done|].
        cbn [splitlines] in El. destruct (is_linebreak d) eqn:Ed.
        -- assert (l = []) as ->.
           { destruct (d =? CR); [|by injection El as <- _].
             destruct s as [|e s]; [by injection El as <- _|].
             destruct (e =? LF); by injection El as <- _. }
           rewrite (is_linebreak_space d Ed). by rewrite IH.
        -- assert (exists l', l = d :: l') as [l' ->].
           { destruct (splitlines s) as [|l0 ls0];
               injection El as <- _; eauto. }
           destruct (is_space d) eqn:Esd; rewrite IH; [done|].
           pose proof (str_split_not_nil d l' Esd) as H.
           destruct (str_split (d :: l')); done.
Qed.

Lemma str_split_joined segs m :
  joined segs m -> str_split m = concat (map str_split segs).
Proof.
  induction 1 as [|seg|seg segs m Hne Hj IH|seg segs m Hne Hj IH].
  - done.
  - simpl. by rewrite app_nil_r.
  - simpl. rewrite str_split_app by done. by rewrite IH.
  - simpl. rewrite str_split_app by done.
    rewrite str_split_space by done. by rewrite IH.
Qed.

(** The text matched after the first token: its words are the other
    tokens. *)
Lemma matches_tokens_words ts : forall body,
  Forall (fun t => t <> [] /\ forallb (fun c => negb (is_space c)) t = true) ts ->
  matches (flat_map (fun t => space_plus :: lits t) ts) body ->
  match body with d :: _ => is_space d = true | [] => True end /\
  str_split body = ts.
Proof.
  induction ts as [|t ts IH]; intros body Hts Hm.
  - inversion Hm; subst. done.
  - inversion Hts as [|? ? [Ht Hall] Hts']; subst. simpl in Hm.
    inversion Hm as [| | | |cs w re m' Hw Hws Hm' Hre Heq]; subst.
    apply matches_app_inv in Hm' as (m1 & m2 & -> & H1 & H2).
    apply matches_lits in H1 as ->.
    destruct (IH m2 Hts' H2) as [Hhead Hwords]. split.
    + destruct w as [|c w]; [done|]. simpl in Hws |- *.
      by apply andb_prop in Hws as [-> _].
    + rewrite str_split_spaces by done.
      rewrite str_split_word by done. by rewrite Hwords.
Qed.

Lemma take_while_forallb f s : forallb f (take_while f s) = true.
Proof.
  induction s as [|c s IH]; [done|]. simpl.
  destruct (f c) eqn:E; [|done]. simpl. by rewrite E.
Qed.

(** What the pattern of a line matches has the words of the line. *)
Lemma matches_line_words line seg :
  matches (line_regex line) seg -> str_split seg = str_split line.
Proof.
  unfold line_regex. 
  destruct (re_match_indent_content line) as [[indent content]|] eqn:E;
    [|intros H; by apply matches_lits in H as ->].
  assert (str_split line = str_split content /\ forallb is_space indent = true)
    as [Hline Hind].
  { unfold re_match_indent_content in E.
    rewrite <- (take_drop_while is_space line) at 1.
    rewrite str_split_spaces by apply take_while_forallb.
    rewrite <- (take_drop_while (fun c => negb (c =? LF)) (drop_while is_space line)) at 1.
    pose proof (drop_while_head (fun c => negb (c =? LF)) (drop_while is_space line)) as Hh.
    destruct (drop_while _ (drop_while is_space line)) as [|x [|y rest]];
      [| |discriminate];
      injection E as <- <-; (split; [|apply take_while_forallb]).
    - by rewrite app_nil_r.
    - apply negb_false_iff, N.eqb_eq in Hh as ->.
      by rewrite str_split_app_nil. }
  rewrite Hline, <- (str_split_re_split content).
  pose proof (re_split_ws_no_space content) as Hns.
  assert (Forall (fun t => t <> [] /\ forallb (fun c => negb (is_space c)) t = true)
            (List.filter truthy (re_split_ws content))) as Htok.
  { apply Forall_forall. intros t Ht.
    apply list_elem_of_In, filter_In in Ht as [Hin Ht].
    rewrite Forall_forall in Hns. split; [by destruct t|].
    apply Hns. by apply list_elem_of_In. }
  destruct (List.filter truthy (re_split_ws content)) as [|t0 ts].
  - intros H. apply matches_lits in H as ->.
    rewrite <- (app_nil_r indent). by rewrite str_split_spaces.
  - inversion Htok as [|? ? [Ht0 Hall0] Hts]; subst. intros H.
    apply matches_app_inv in H as (m1 & m23 & -> & H1 & H23).
    apply matches_app_inv in H23 as (m2 & m3 & -> & H2 & H3).
    apply matches_lits in H1 as ->. apply matches_lits in H2 as ->.
    destruct (matches_tokens_words ts m3 Hts H3) as [Hhead Hwords].
    rewrite str_split_spaces by done.
    rewrite str_split_word by done. by rewrite Hwords.
Qed.

End Words.

(** X10. The tolerance of the matcher stops at white space: whatever the
    search for the compiled pattern of a snippet returns as the match has
    the very words of the snippet, in the same order. *)
Theorem matched_text_has_the_words_of_the_snippet :
  forall snippet re candidate adv before m after,
    re_compile (_flexible_pattern snippet) = Some re ->
    re_search re candidate adv = Some (before, m, after) ->
    str_split m = str_split snippet.
Proof.
  intros snippet re candidate adv before m after Hre Hs.
  rewrite flexible_pattern_compiles in Hre. injection Hre as <-.
  apply re_search_sound in Hs as (_ & Hm & _).
  apply matches_join in Hm as (segs & Hj & Hall).
  rewrite (str_split_joined _ _ Hj).
  rewrite (str_split_splitlines (length snippet)) by done.
  f_equal. clear Hj. revert segs Hall.
  induction (splitlines snippet) as [|l ls IH]; intros segs Hall;
    inversion Hall; subst; [done|].
  simpl. f_equal; [by apply matches_line_words|by apply IH].
Qed.

Lemma matched_text_has_the_words_of_the_snippet_witness :
  str_split (str "x   =" ++ [TAB] ++ str "f(1)")
  = str_split (str "x = f(1)").
Proof.
  apply (matched_text_has_the_words_of_the_snippet
           (str "x = f(1)") (pattern_of (str "x = f(1)"))
           (str "  x   =" ++ [TAB] ++ str "f(1);") false
           (str "  ") (str "x   =" ++ [TAB] ++ str "f(1)") (str ";")).
  - apply flexible_pattern_compiles.
  - vm_compute. reflexivity.
Defined.

(** * Files whose instructions find nothing *)

Section NoMatch.

Lemma no_match_unchanged i content :
  (reads_template i = true -> is_Some (template_of (replace i))) ->
  ~ matches_in (pattern_of (find i)) content ->
  exists records, _apply_instruction i content = Ok (content, records).
Proof.
  intros Hb Hno.
  assert (re_search (pattern_of (find i)) content false = None) as Hs.
  { destruct (re_search _ content false) as [[[b m] a]|] eqn:E; [|done].
    destruct Hno. eapply matches_in_search, E. }
  unfold reads_template in Hb.
  destruct (pystr_eqb (type i) (str "update")
            && truthy (find i) && truthy (replace i)) eqn:Eu.
  { apply andb_prop in Eu as [Eu Hr]. apply andb_prop in Eu as [Ht Hf].
    apply pystr_eqb_true in Ht.
    rewrite apply_update, pattern_subn_no_match by auto. eauto. }
  destruct (pystr_eqb (type i) (str "insert")
            && truthy (find i) && truthy (write i)) eqn:Ei.
  { apply andb_prop in Ei as [Ei Hw]. apply andb_prop in Ei as [Ht Hf].
    apply pystr_eqb_true in Ht. rewrite apply_insert, Hs by done. eauto. }
  destruct (pystr_eqb (type i) (str "delete") && truthy (find i)) eqn:Ed.
  { apply andb_prop in Ed as [Ht Hf].
    apply pystr_eqb_true in Ht. rewrite apply_delete by done.
    rewrite pattern_subn_no_match by (done || by eexists). eauto. }
  exists []. apply apply_inert; intros Ht; rewrite Ht in *.
  - exact Eu.
  - exact Ei.
  - exact Ed.
Qed.

Lemma fold_apply_unchanged file_instructions content :
  (forall i, i ∈ file_instructions ->
     exists records, _apply_instruction i content = Ok (content, records)) ->
  fold_apply file_instructions content = Ok content.
Proof.
  induction file_instructions as [|i rest IH]; intros H; [done|].
  simpl. destruct (H i) as [records ->]; [left|].
  apply IH. intros j Hj. apply H. by right.
Qed.

Lemma universal_newlines_utf8 : forall n s,
  (length s <= n)%nat ->
  forallb utf8_ok s = true -> forallb utf8_ok (universal_newlines s) = true.
Proof.
  induction n as [|n IH]; intros s Hn Hs.
  - destruct s; [done|simpl in Hn; lia].
  - destruct s as [|c s]; [done|]. simpl in Hn, Hs |- *.
    apply andb_prop in Hs as [Hc Hs].
    destruct (c =? CR).
    + simpl. destruct s as [|d s]; [done|]. simpl in Hn, Hs.
      apply andb_prop in Hs as [Hd Hs'].
      destruct (d =? LF); apply IH; simpl; try lia; try done.
      by rewrite Hd, Hs'.
    + simpl. rewrite Hc. apply IH; [lia|done].
Qed.

End NoMatch.

(** X11. Where text is written as it is (POSIX), a file whose instructions
    all find nothing is written back all the same: it comes out with its
    CR LF and CR line ends turned into LF and is otherwise unchanged.
    This is for a file that can be read and written and that no other name
    of the batch leads to, for instructions of which each Update with
    [find] and [replace] has a well-formed template as [replace], and when
    the lookup of no name that comes earlier in the batch fails. *)
Theorem unmatched_file_is_rewritten_with_lf :
  forall instructions before i0 after w place fl,
    instructions = before ++ i0 :: after ->
    truthy (filename i0) = true ->
    (forall i, i ∈ before -> truthy (filename i) = true ->
               resolve w (filename i) <> lookup_fails) ->
    resolve w (filename i0) = leads_to place ->
    (forall i, i ∈ instructions -> truthy (filename i) = true ->
               resolve w (filename i) = leads_to place ->
               filename i = filename i0) ->
    files w !! place = Some fl ->
    readable fl = true -> writable fl = true ->
    forallb utf8_ok (contents fl) = true ->
    (forall i, i ∈ instructions -> filename i = filename i0 ->
       (reads_template i = true -> is_Some (template_of (replace i))) /\
       (forall re, re_compile (_flexible_pattern (find i)) = Some re ->
                   ~ matches_in re (universal_newlines (contents fl)))) ->
    files (fst (_apply_instructions instructions w)) !! place
    = Some (set_contents fl (universal_newlines (contents fl))).
Proof.
  intros instructions before i0 after w place fl
    Hsplit Ht Hbefore Hf Hone Hfl Hr Hw Hu Hno.
  rewrite (apply_instructions_group instructions before i0 after w place)
    by done.
  rewrite Hfl. unfold file_after. rewrite Hr, Hu, Hw. simpl.
  rewrite fold_apply_unchanged.
  - by rewrite (universal_newlines_utf8 (length (contents fl))).
  - intros i Hi. unfold group_of in Hi.
    apply list_elem_of_In, filter_In in Hi as [Hi Hname].
    apply list_elem_of_In in Hi. apply pystr_eqb_true in Hname.
    destruct (Hno i Hi Hname) as [Hb Hm].
    apply no_match_unchanged; [done|].
    apply Hm, flexible_pattern_compiles.
Qed.

Lemma unmatched_file_is_rewritten_with_lf_witness :
  let dos := set_contents (plain_file "") (str "x" ++ [CR; LF] ++ str "y" ++ [CR]) in
  files (fst (_apply_instructions [Update "a.py" "zz" "Y\n"]
                (world_of [(str "a.py", dos)]))) !! str "a.py"
  = Some (set_contents dos (str "x" ++ [LF] ++ str "y" ++ [LF])).
Proof.
  intros dos.
  apply (unmatched_file_is_rewritten_with_lf
           [Update "a.py" "zz" "Y\n"] [] (Update "a.py" "zz" "Y\n") []
           (world_of [(str "a.py", dos)]) (str "a.py") dos).
  - reflexivity.
  - reflexivity.
  - intros i Hi. by apply elem_of_nil in Hi.
  - reflexivity.
  - intros i Hi _ _. apply elem_of_cons in Hi as [->|Hi];
      [reflexivity|by apply elem_of_nil in Hi].
  - vm_compute. reflexivity.
  - reflexivity.
  - reflexivity.
  - reflexivity.
  - intros i Hi _. apply elem_of_cons in Hi as [->|Hi];
      [|by apply elem_of_nil in Hi].
    split.
    + intros _. vm_compute. eexists. reflexivity.
    + intros re H. vm_compute in H. injection H as <-.
      apply re_search_none. vm_compute. reflexivity.
Defined.

(** * Chunking a file *)

(** A slice between two indices of the list, in order. *)
Lemma py_slice_inside {A} (l : list A) (a b : Z) :
  (0 <= a)%Z -> (a <= b)%Z -> (b <= Z.of_nat (length l))%Z ->
  FileProcessor.py_slice l a b
  = take (Z.to_nat (b - a)) (drop (Z.to_nat a) l) /\
  Z.of_nat (length (FileProcessor.py_slice l a b)) = (b - a)%Z.
Proof.
  intros Ha Hab Hb. unfold FileProcessor.py_slice, FileProcessor.slice_index.
  destruct (Z.ltb_spec a 0); [lia|]. destruct (Z.ltb_spec b 0); [lia|].
  rewrite !Z.min_l by lia. split; [done|].
  rewrite length_take, length_drop. lia.
Qed.

Section Chunks.

Import FileProcessor.
Local Open Scope Z_scope.

Variables (self : FileProcessor.t) (fname : list N) (words : list (list N)).

Let total : Z := Z.of_nat (length words).

(** The chunk at place [j] of the loop started at [start]. *)
Lemma chunk_loop_window : forall fuel start j c,
  1 <= chunk_max_words self ->
  0 <= start -> total - start <= Z.of_nat fuel ->
  chunk_loop fuel self fname words start !! j = Some c ->
  let s := start + Z.of_nat j * step self in
  s < total /\
  filename c = fname /\
  start_idx c = s + 1 /\
  end_idx c = Z.min (s + chunk_max_words self) total /\
  code c = str_join [SPACE] (py_slice words s (end_idx c)) /\
  (s = 0 \/ chunk_min_words self <= end_idx c - s).
Proof.
  induction fuel as [|fuel IH]; intros start j c Hmax Hs Hfuel Hc; [done|].
  cbn [chunk_loop] in Hc. fold total in Hc.
  destruct (Z.ltb_spec start total) as [Hlt|]; [|done].
  pose proof (py_slice_inside words start
                (Z.min (start + chunk_max_words self) total)
                ltac:(lia) ltac:(lia) ltac:(unfold total in *; lia))
    as [_ Hlen].
  destruct (Z.ltb_spec
              (Z.of_nat (length (py_slice words start
                 (Z.min (start + chunk_max_words self) total))))
              (chunk_min_words self)) as [Hsmall|Hbig];
    destruct (Z.ltb_spec 0 start) as [Hpos|Hzero]; simpl in Hc; try done.
  all: destruct j as [|j].
  all: try (injection Hc as <-; simpl; rewrite Z.add_0_r;
            repeat split; try done; lia).
  all: simpl in Hc; fold (step self) in Hc.
  all: destruct (Z.leb_spec total (start + step self)); [done|].
  all: assert (1 <= step self) by (unfold step; lia).
  all: apply IH in Hc; [|done|lia|lia].
  all: replace (start + Z.of_nat (S j) * step self)
         with (start + step self + Z.of_nat j * step self) by lia.
  all: destruct Hc as (H1 & H2 & H3 & H4 & H5 & H6).
  all: repeat split; try done.
  all: destruct H6 as [H6|H6]; [left; lia|by right].
Qed.

(** With some overlap and no minimum beyond it, every word from [start] on
    is in a chunk, or the loop stops at once on a short rest. *)
Lemma chunk_loop_covers : forall fuel start i,
  1 <= chunk_max_words self ->
  0 <= chunk_overlap_words self ->
  chunk_min_words self <= chunk_overlap_words self + 1 ->
  chunk_min_words self <= chunk_max_words self ->
  0 <= start -> total - start <= Z.of_nat fuel ->
  start <= i < total ->
  (exists c, c ∈ chunk_loop fuel self fname words start /\
             start_idx c <= i + 1 <= end_idx c) \/
  (0 < start /\ total - start < chunk_min_words self).
Proof.
  induction fuel as [|fuel IH]; intros start i Hmax Hov Hmin Hmm Hs Hfuel Hi;
    [simpl in Hfuel; lia|].
  cbn [chunk_loop]. fold total.
  destruct (Z.ltb_spec start total) as [Hlt|]; [|lia].
  pose proof (py_slice_inside words start
                (Z.min (start + chunk_max_words self) total)
                ltac:(lia) ltac:(lia) ltac:(unfold total in *; lia))
    as [_ Hlen].
  rewrite Hlen. fold (step self).
  assert (1 <= step self <= chunk_max_words self) as Hstep by (unfold step; lia).
  destruct (Z.ltb_spec (Z.min (start + chunk_max_words self) total - start)
              (chunk_min_words self)) as [Hsmall|Hbig];
    destruct (Z.ltb_spec 0 start) as [Hpos|Hzero]; simpl.
  - right. lia.
  - left. eexists. split; [left|]. simpl. lia.
  - destruct (Z.leb_spec total (start + step self)) as [Hend|Hmore].
    + left. eexists. split; [left|]. simpl. lia.
    + destruct (Z.lt_ge_cases i (start + step self)) as [Hin|Hout].
      * left. eexists. split; [left|]. simpl. lia.
      * destruct (IH (start + step self) i) as [(c & Hc & Hr)|[_ Hshort]];
          try done; try lia.
        -- left. exists c. split; [by right|done].
        -- left. eexists. split; [left|]. simpl. unfold step in *. lia.
  - destruct (Z.leb_spec total (start + step self)) as [Hend|Hmore].
    + left. eexists. split; [left|]. simpl. lia.
    + destruct (Z.lt_ge_cases i (start + step self)) as [Hin|Hout].
      * left. eexists. split; [left|]. simpl. lia.
      * destruct (IH (start + step self) i) as [(c & Hc & Hr)|[_ Hshort]];
          try done; try lia.
        -- left. exists c. split; [by right|done].
        -- left. eexists. split; [left|]. simpl. unfold step in *. lia.
Qed.

End Chunks.

Section ChunkFile.

Import FileProcessor.
Local Open Scope Z_scope.

Lemma chunk_file_ok self fname w chunks records :
  chunk_file self fname w = (Ok chunks, records) ->
  chunks = chunk_loop (length (file_words fname w)) self fname
             (file_words fname w) 0.
Proof.
  unfold chunk_file, file_words.
  destruct (snd (read_text fname w)); [|discriminate].
  by intros [= <- _].
Qed.

Lemma str_split_tokens s :
  Forall (fun t => t <> [] /\ forallb (fun c => negb (is_space c)) t = true)
         (str_split s).
Proof.
  rewrite <- str_split_re_split. apply Forall_forall. intros t Ht.
  apply list_elem_of_In, filter_In in Ht as [Hin Ht].
  pose proof (re_split_ws_no_space s) as Hns. rewrite Forall_forall in Hns.
  split; [by destruct t|]. apply Hns. by apply list_elem_of_In.
Qed.

(** Joining words with one space and splitting again gives the words. *)
Lemma str_split_join ws :
  Forall (fun t => t <> [] /\ forallb (fun c => negb (is_space c)) t = true) ws ->
  str_split (str_join [SPACE] ws) = ws.
Proof.
  induction ws as [|p ws IH]; intros H; [done|].
  inversion H as [|? ? [Hp Hall] Hws]; subst.
  destruct ws as [|q ws].
  - simpl. rewrite <- (app_nil_r p) at 1. by rewrite str_split_word.
  - change (str_join [SPACE] (p :: q :: ws))
      with (p ++ SPACE :: str_join [SPACE] (q :: ws)).
    rewrite str_split_word by done.
    rewrite str_split_space by done. by rewrite IH.
Qed.

End ChunkFile.

(** * The white space between two tokens *)

Section Gap.

Local Arguments splitlines : simpl never.
Local Arguments str_split : simpl never.

Implicit Types (s l g m : pystr).

Lemma splitlines_eq c s :
  splitlines (c :: s) =
  if is_linebreak c then
    if c =? CR then
      match s with
      | d :: s'' => if d =? LF then [] :: splitlines s'' else [] :: splitlines s
      | [] => [] :: splitlines s
      end
    else [] :: splitlines s
  else
    match splitlines s with
    | [] => [[c]]
    | l :: ls => (c :: l) :: ls
    end.
Proof. reflexivity. Qed.

Lemma splitlines_not_nil s : s <> [] -> splitlines s <> [].
Proof. intros Hs H. by apply splitlines_nil in H. Qed.

(** The lines of two texts put together, when the first does not end in a
    line boundary: its last line and the first line of the second text
    become one. *)
Lemma splitlines_glue : forall n s1 s2,
  (length s1 <= n)%nat ->
  (exists c, last s1 = Some c /\ is_linebreak c = false) ->
  s2 <> [] ->
  exists init l1 l2 rest,
    splitlines s1 = init ++ [l1] /\ last l1 = last s1 /\
    splitlines s2 = l2 :: rest /\
    splitlines (s1 ++ s2) = init ++ (l1 ++ l2) :: rest.
Proof.
  induction n as [|n IH]; intros s1 s2 Hn (x & Hlast & Hx) Hs2.
  { destruct s1; [done|simpl in Hn; lia]. }
  destruct s1 as [|c s1]; [done|]. simpl in Hn.
  destruct (splitlines s2) as [|l2 rest] eqn:E2;
    [by apply splitlines_not_nil in E2|].
  destruct s1 as [|d s1].
  - injection Hlast as ->. exists [], [x], l2, rest.
    change ([x] ++ s2) with (x :: s2). rewrite !splitlines_eq, Hx, E2.
    done.
  - assert (last (c :: d :: s1) = last (d :: s1)) as Hl by done.
    rewrite Hl in Hlast |- *.
    change ((c :: d :: s1) ++ s2) with (c :: d :: (s1 ++ s2)).
    rewrite (splitlines_eq c (d :: s1)), (splitlines_eq c (d :: s1 ++ s2)).
    destruct (is_linebreak c) eqn:Ec.
    + assert (exists init l1,
                splitlines (d :: s1) = init ++ [l1] /\
                last l1 = last (d :: s1) /\
                splitlines (d :: s1 ++ s2) = init ++ (l1 ++ l2) :: rest)
        as (init & l1 & H1 & H2 & H3).
      { destruct (IH (d :: s1) s2) as (init & l1 & l2' & rest' & H1 & H2 & H3 & H4);
          [simpl in *; lia|eauto|done|].
        rewrite E2 in H3. injection H3 as <- <-. eauto. }
      destruct ((c =? CR) && (d =? LF)) eqn:Ecr.
      * apply andb_prop in Ecr as [-> Hd]. rewrite Hd.
        destruct s1 as [|e s1].
        { injection Hlast as <-. apply N.eqb_eq in Hd as ->. done. }
        destruct (IH (e :: s1) s2)
          as (init' & l1' & l2' & rest' & H1' & H2' & H3' & H4');
          [simpl in *; lia|eauto|done|].
        rewrite E2 in H3'. injection H3' as <- <-.
        exists ([] :: init'), l1', l2, rest.
        rewrite H1', H4'. done.
      * exists ([] :: init), l1, l2, rest.
        assert ((if c =? CR
                 then if d =? LF then [] :: splitlines s1
                      else [] :: splitlines (d :: s1)
                 else [] :: splitlines (d :: s1))
                = [] :: splitlines (d :: s1)) as ->.
        { destruct (c =? CR); [|done]. simpl in Ecr. by rewrite Ecr. }
        assert ((if c =? CR
                 then if d =? LF then [] :: splitlines (s1 ++ s2)
                      else [] :: splitlines (d :: s1 ++ s2)
                 else [] :: splitlines (d :: s1 ++ s2))
                = [] :: splitlines (d :: s1 ++ s2)) as ->.
        { destruct (c =? CR); [|done]. simpl in Ecr. by rewrite Ecr. }
        rewrite H1, H3. done.
    + destruct (IH (d :: s1) s2) as (init & l1 & l2' & rest' & H1 & H2 & H3 & H4);
        [simpl in *; lia|eauto|done|].
      rewrite E2 in H3. injection H3 as <- <-.
      change ((d :: s1) ++ s2) with (d :: s1 ++ s2) in H4.
      rewrite H1, H4. destruct init as [|i0 init].
      * exists [], (c :: l1), l2, rest. simpl. split; [done|]. split; [|done].
        destruct l1; [by rewrite Hlast in H2|done].
      * exists ((c :: i0) :: init), l1, l2, rest. done.
Qed.

(** A text without a line boundary is one line. *)
Lemma splitlines_line l :
  l <> [] -> forallb (fun c => negb (is_linebreak c)) l = true ->
  splitlines l = [l].
Proof.
  induction l as [|c l IH]; intros Hl Hall; [done|].
  simpl in Hall. apply andb_prop in Hall as [Hc Hall].
  apply negb_true_iff in Hc. rewrite splitlines_eq, Hc.
  destruct l as [|d l]; [done|]. by rewrite IH.
Qed.

Lemma no_linebreak_no_lf l :
  forallb (fun c => negb (is_linebreak c)) l = true ->
  forallb (fun c => negb (c =? LF)) l = true.
Proof.
  intros H. apply forallb_forall. intros c Hc.
  eapply forallb_forall in H; [|exact Hc].
  destruct (N.eqb_spec c LF) as [->|]; done.
Qed.

Lemma take_while_id f s : forallb f s = true -> take_while f s = s.
Proof.
  intros H. rewrite <- (take_drop_while f s) at 2.
  by rewrite drop_while_all, app_nil_r.
Qed.

(** The pattern of a line: its indentation as it is, then its words with
    white space between each two. *)
Lemma line_regex_words l :
  forallb (fun c => negb (is_linebreak c)) l = true ->
  line_regex l = lits (indent_of l) ++ pieces_regex (str_split l).
Proof.
  intros Hl. unfold line_regex, re_match_indent_content, indent_of.
  assert (forallb (fun c => negb (c =? LF)) (drop_while is_space l) = true)
    as Hrest by (by apply drop_while_forallb, no_linebreak_no_lf).
  rewrite drop_while_all, take_while_id by done.
  rewrite str_split_re_split.
  assert (str_split l = str_split (drop_while is_space l)) as ->.
  { rewrite <- (take_drop_while is_space l) at 1.
    by rewrite str_split_spaces by apply take_while_forallb. }
  destruct (str_split (drop_while is_space l)) as [|t0 ts]; simpl.
  - by rewrite app_nil_r.
  - done.
Qed.

Lemma pieces_regex_app ts us :
  ts <> [] -> us <> [] ->
  pieces_regex (ts ++ us) = pieces_regex ts ++ space_plus :: pieces_regex us.
Proof.
  destruct ts as [|t0 ts]; [done|]. destruct us as [|u0 us]; [done|].
  intros _ _. simpl. rewrite flat_map_app. simpl.
  by rewrite <- !app_assoc.
Qed.

Lemma ends_in_token_last s :
  ends_in_token s = true -> exists c, last s = Some c /\ is_space c = false.
Proof.
  unfold ends_in_token. destruct (last s) as [c|]; [|done].
  intros H. exists c. split; [done|]. by apply negb_true_iff.
Qed.

Lemma not_space_not_linebreak c : is_space c = false -> is_linebreak c = false.
Proof.
  intros H. destruct (is_linebreak c) eqn:E; [|done].
  apply is_linebreak_space in E. congruence.
Qed.

Lemma drop_while_nil f s : drop_while f s = [] -> forallb f s = true.
Proof.
  induction s as [|c s IH]; [done|]. simpl.
  destruct (f c); [done|discriminate].
Qed.

Lemma forallb_last (f : N -> bool) s c :
  forallb f s = true -> last s = Some c -> f c = true.
Proof.
  intros H Hl. eapply forallb_forall in H; [exact H|].
  apply list_elem_of_In. apply last_Some in Hl as [s' ->].
  apply elem_of_app. right. left.
Qed.

(** A line that ends in a token has a word, after its indentation. *)
Lemma ends_in_token_content l :
  ends_in_token l = true ->
  exists c rest, drop_while is_space l = c :: rest /\ is_space c = false.
Proof.
  intros H. apply ends_in_token_last in H as (x & Hx & Hs).
  pose proof (drop_while_head is_space l) as Hh.
  destruct (drop_while is_space l) as [|c rest] eqn:E; [|eauto].
  apply drop_while_nil in E. by rewrite (forallb_last _ _ _ E Hx) in Hs.
Qed.

(** The pattern of two lines put together with white space between the
    last token of the first and the first token of the second. *)
Lemma line_regex_glue l1 g l2 :
  forallb (fun c => negb (is_linebreak c)) l1 = true ->
  forallb (fun c => negb (is_linebreak c)) l2 = true ->
  ends_in_token l1 = true -> inline_space g = true ->
  starts_with_token l2 = true ->
  line_regex (l1 ++ g ++ l2) = line_regex l1 ++ space_plus :: line_regex l2.
Proof.
  intros H1 H2 He Hg Hs.
  unfold inline_space in Hg. apply andb_prop in Hg as [Hg Hgs].
  assert (forallb is_space g = true /\
          forallb (fun c => negb (is_linebreak c)) g = true) as [Hgsp Hgnl].
  { split; apply forallb_forall; intros c Hc;
      (eapply forallb_forall in Hgs; [|exact Hc]);
      by apply andb_prop in Hgs as [? ?]. }
  destruct g as [|c0 g]; [done|]. simpl in Hgsp.
  apply andb_prop in Hgsp as [Hc0 Hgsp].
  destruct l2 as [|d l2]; [done|]. simpl in Hs. apply negb_true_iff in Hs.
  destruct (ends_in_token_content l1 He) as (c & rest & Hrest & Hc).
  rewrite !line_regex_words; [|done|done|].
  2:{ rewrite !forallb_app. by rewrite H1, Hgnl, H2. }
  assert (indent_of (l1 ++ (c0 :: g) ++ d :: l2) = indent_of l1) as ->.
  { unfold indent_of. rewrite <- (take_drop_while is_space l1) at 1.
    rewrite <- app_assoc. apply take_while_app_stop.
    - apply take_while_forallb.
    - by rewrite Hrest. }
  assert (indent_of (d :: l2) = []) as -> by (unfold indent_of; simpl; by rewrite Hs).
  change ((c0 :: g) ++ d :: l2) with (c0 :: (g ++ d :: l2)).
  rewrite str_split_app by done. rewrite str_split_spaces by done.
  rewrite pieces_regex_app.
  - by rewrite <- app_assoc.
  - rewrite <- (take_drop_while is_space l1).
    rewrite str_split_spaces by apply take_while_forallb.
    rewrite Hrest. by apply str_split_not_nil.
  - by apply str_split_not_nil.
Qed.

Lemma join_regex_cons r rs :
  rs <> [] -> join_regex (r :: rs) = r ++ newline_ops ++ join_regex rs.
Proof. by destruct rs. Qed.

Lemma join_regex_glue rs1 x y rs2 :
  join_regex (rs1 ++ (x ++ y) :: rs2)
  = join_regex (rs1 ++ [x]) ++ join_regex (y :: rs2).
Proof.
  induction rs1 as [|r rs1 IH].
  - destruct rs2 as [|r2 rs2]; [done|].
    simpl app. rewrite !join_regex_cons by done. simpl.
    by rewrite <- !app_assoc.
  - change ((r :: rs1) ++ (x ++ y) :: rs2) with (r :: (rs1 ++ (x ++ y) :: rs2)).
    change ((r :: rs1) ++ [x]) with (r :: (rs1 ++ [x])).
    rewrite !join_regex_cons by (by destruct rs1).
    rewrite IH. by rewrite <- !app_assoc.
Qed.

Lemma join_regex_head o r rs :
  join_regex ((o :: r) :: rs) = o :: join_regex (r :: rs).
Proof. by destruct rs. Qed.

Lemma splitlines_member s l :
  l ∈ splitlines s -> forallb (fun c => negb (is_linebreak c)) l = true.
Proof.
  intros H. pose proof (splitlines_no_linebreak s) as Hall.
  rewrite Forall_forall in Hall. by apply Hall.
Qed.

(** The pattern of a snippet, cut at the white space between two tokens of
    one of its lines. *)
Lemma pattern_of_gap s1 g s2 :
  ends_in_token s1 = true -> inline_space g = true ->
  starts_with_token s2 = true ->
  pattern_of (s1 ++ g ++ s2) = pattern_of s1 ++ space_plus :: pattern_of s2.
Proof.
  intros He Hg Hs.
  pose proof (ends_in_token_last s1 He) as (c & Hc & Hcs).
  assert (g <> [] /\ forallb (fun c => negb (is_linebreak c)) g = true)
    as [Hg0 Hgnl].
  { unfold inline_space in Hg. apply andb_prop in Hg as [Hg Hgs].
    split; [by destruct g|]. apply forallb_forall. intros x Hx.
    eapply forallb_forall in Hgs; [|exact Hx].
    by apply andb_prop in Hgs as [? ?]. }
  destruct s2 as [|d s2]; [done|].
  pose proof Hs as Hd. simpl in Hd. apply negb_true_iff in Hd.
  destruct (splitlines_glue (length s1) s1 (g ++ d :: s2))
    as (init & l1 & l2' & rest & E1 & Hl1 & E2 & E3);
    [done|exists c; split; [done|by apply not_space_not_linebreak]
    |by destruct g|].
  assert (exists x, last g = Some x /\ is_linebreak x = false) as Hglast.
  { destruct (last g) as [x|] eqn:Ex; [|by apply last_None in Ex].
    exists x. split; [done|].
    pose proof (forallb_last _ _ _ Hgnl Ex) as H. by apply negb_true_iff in H. }
  destruct (splitlines_glue (length g) g (d :: s2))
    as (initg & lg & l2 & rest' & Eg1 & _ & Eg2 & Eg3); [done|done|done|].
  rewrite splitlines_line in Eg1 by done.
  apply (app_inj_tail [] initg) in Eg1 as [<- <-]. simpl in Eg3.
  rewrite Eg3 in E2. injection E2 as <- <-.
  unfold pattern_of. rewrite E3, E1, Eg2.
  assert (forallb (fun c => negb (is_linebreak c)) l1 = true) as Hl1nl.
  { apply (splitlines_member s1). rewrite E1. apply elem_of_app. right. left. }
  assert (forallb (fun c => negb (is_linebreak c)) l2 = true) as Hl2nl.
  { apply (splitlines_member (d :: s2)). rewrite Eg2. left. }
  assert (starts_with_token l2 = true) as Hl2.
  { rewrite splitlines_eq, (not_space_not_linebreak d Hd) in Eg2.
    destruct (splitlines s2); injection Eg2 as <- _; done. }
  assert (ends_in_token l1 = true) as Hl1e
    by (unfold ends_in_token; by rewrite Hl1, Hc, Hcs).
  rewrite !map_app. simpl map.
  rewrite line_regex_glue by done.
  rewrite join_regex_glue. f_equal. apply join_regex_head.
Qed.

(** What the pattern of a text matches has the words of the text. *)
Lemma matches_pattern_words s m :
  matches (pattern_of s) m -> str_split m = str_split s.
Proof.
  intros Hm. apply matches_join in Hm as (segs & Hj & Hall).
  rewrite (str_split_joined _ _ Hj).
  rewrite (str_split_splitlines (length s)) by done.
  f_equal. clear Hj. revert segs Hall.
  induction (splitlines s) as [|l ls IH]; intros segs Hall;
    inversion Hall; subst; [done|].
  simpl. f_equal; [by apply matches_line_words|by apply IH].
Qed.

(** It starts with a token when the text does. *)
Lemma matches_pattern_head s m :
  starts_with_token s = true -> matches (pattern_of s) m ->
  starts_with_token m = true.
Proof.
  intros Hs Hm. destruct s as [|d s]; [done|].
  pose proof Hs as Hd. simpl in Hd. apply negb_true_iff in Hd.
  assert (exists l ls, splitlines (d :: s) = (d :: l) :: ls) as (l & ls & E).
  { rewrite splitlines_eq, (not_space_not_linebreak d Hd).
    destruct (splitlines s); eauto. }
  assert (exists r, line_regex (d :: l) = Op (Literal d) Once :: r) as [r Er].
  { rewrite line_regex_words.
    2:{ apply (splitlines_member (d :: s)). rewrite E. left. }
    unfold indent_of. simpl take_while. rewrite Hd. simpl.
    rewrite str_split_eq, Hd.
    destruct l as [|e l]; [by eexists|].
    destruct (is_space e); [by eexists|].
    destruct (str_split (e :: l)); by eexists. }
  unfold pattern_of in Hm. rewrite E in Hm. simpl map in Hm.
  rewrite Er, join_regex_head in Hm.
  inversion Hm as [|? c ? ? Hc| | |]; subst. simpl in Hc.
  apply N.eqb_eq in Hc as ->. simpl. by rewrite Hd.
Qed.

Lemma ends_in_token_app a b :
  ends_in_token b = true -> ends_in_token (a ++ b) = true.
Proof.
  unfold ends_in_token. rewrite last_app.
  by destruct (last b).
Qed.

Lemma token_ends_in_token t :
  t <> [] -> forallb (fun c => negb (is_space c)) t = true ->
  ends_in_token t = true.
Proof.
  intros Ht Hall. unfold ends_in_token.
  destruct (last t) as [c|] eqn:E; [|by apply last_None in E].
  exact (forallb_last _ _ _ Hall E).
Qed.

Lemma matches_tokens_last ts : forall body,
  Forall (fun t => t <> [] /\ forallb (fun c => negb (is_space c)) t = true) ts ->
  matches (flat_map (fun t => space_plus :: lits t) ts) body ->
  body = [] \/ ends_in_token body = true.
Proof.
  induction ts as [|t ts IH]; intros body Hts Hm.
  - left. by inversion Hm.
  - right. inversion Hts as [|? ? [Ht Hall] Hts']; subst.
    simpl in Hm. inversion Hm as [| | | |? w ? m' Hw Hws Hm']; subst.
    apply matches_app_inv in Hm' as (m1 & m2 & -> & H1 & H2).
    apply matches_lits in H1 as ->.
    destruct (IH m2 Hts' H2) as [->|He].
    + rewrite app_nil_r. by apply ends_in_token_app, token_ends_in_token.
    + by apply ends_in_token_app, ends_in_token_app.
Qed.

Lemma joined_last segs : forall seg m,
  joined (segs ++ [seg]) m -> exists pre, m = pre ++ seg.
Proof.
  induction segs as [|s0 segs IH]; intros seg m Hj.
  - inversion Hj as [|? |? ? ? Hne|? ? ? Hne]; subst; [by exists []|done|done].
  - simpl in Hj.
    inversion Hj as [|? E|? ? m' Hne Hj'|? ? m' Hne Hj']; subst.
    + by destruct segs.
    + destruct (IH _ _ Hj') as [pre ->]. exists (s0 ++ [LF] ++ pre).
      by rewrite <- !app_assoc.
    + destruct (IH _ _ Hj') as [pre ->]. exists (s0 ++ [CR; LF] ++ pre).
      by rewrite <- !app_assoc.
Qed.

(** It ends in a token when the text does. *)
Lemma matches_pattern_last s m :
  ends_in_token s = true -> matches (pattern_of s) m ->
  ends_in_token m = true.
Proof.
  intros Hs Hm.
  pose proof (ends_in_token_last s Hs) as (c & Hc & Hcs).
  destruct (splitlines_glue (length s) s [SPACE])
    as (init & l1 & _ & _ & E1 & Hl1 & _ & _);
    [done|exists c; split; [done|by apply not_space_not_linebreak]|done|].
  unfold pattern_of in Hm. rewrite E1 in Hm.
  apply matches_join in Hm as (segs & Hj & Hall).
  rewrite map_app in Hall. simpl in Hall.
  apply Forall2_app_inv_l in Hall as (segs0 & segs1 & _ & Hseg & ->).
  inversion Hseg as [|? seg ? ? Hm1 Hnil]; subst. inversion Hnil; subst.
  apply joined_last in Hj as [pre ->]. apply ends_in_token_app.
  assert (ends_in_token l1 = true) as Hl1e
    by (unfold ends_in_token; by rewrite Hl1, Hc, Hcs).
  rewrite line_regex_words in Hm1.
  2:{ apply (splitlines_member s). rewrite E1. apply elem_of_app. right. left. }
  destruct (ends_in_token_content l1 Hl1e) as (x & rest & Hrest & Hx).
  assert (str_split l1 = str_split (x :: rest)) as Hwords.
  { rewrite <- (take_drop_while is_space l1) at 1.
    rewrite str_split_spaces by apply take_while_forallb. by rewrite Hrest. }
  pose proof (str_split_tokens l1) as Htok.
  destruct (str_split l1) as [|t0 ts] eqn:Et.
  { symmetry in Hwords. by apply str_split_not_nil in Hwords. }
  inversion Htok as [|? ? [Ht0 Hall0] Hts]; subst.
  apply matches_app_inv in Hm1 as (m1 & m23 & -> & H1 & H23).
  simpl in H23.
  apply matches_app_inv in H23 as (m2 & m3 & -> & H2 & H3).
  apply matches_lits in H2 as ->.
  apply ends_in_token_app.
  destruct (matches_tokens_last ts m3 Hts H3) as [->|He].
  - rewrite app_nil_r. by apply token_ends_in_token.
  - by apply ends_in_token_app.
Qed.

End Gap.

(** C7. Take a snippet and, in one of its lines, the white space [g]
    between two tokens: the snippet is [s1 ++ g ++ s2], where [s1] ends in
    a token and [s2] starts with one.  Wherever the compiled pattern of
    the snippet matches in a source text, the match has a run of white
    space [ws] at the same place, between the same two tokens: before it
    stand the words of [s1], after it the words of [s2].  With any other
    non-empty run of white space in place of [ws], of spaces and tabs for
    one, the pattern still matches in the source text. *)
Theorem inter_token_whitespace_is_flexible :
  forall s1 g s2 re source before m after,
    re_compile (_flexible_pattern (s1 ++ g ++ s2)) = Some re ->
    ends_in_token s1 = true -> inline_space g = true ->
    starts_with_token s2 = true ->
    re_search re source false = Some (before, m, after) ->
    exists m1 ws m2,
      source = before ++ m1 ++ ws ++ m2 ++ after /\
      m = m1 ++ ws ++ m2 /\
      ws <> [] /\ forallb is_space ws = true /\
      ends_in_token m1 = true /\ starts_with_token m2 = true /\
      str_split m1 = str_split s1 /\ str_split m2 = str_split s2 /\
      forall ws',
        ws' <> [] -> forallb is_space ws' = true ->
        is_Some (re_search re (before ++ m1 ++ ws' ++ m2 ++ after) false).
Proof.
  intros s1 g s2 re source before m after Hre He Hg Hs Hsearch.
  rewrite flexible_pattern_compiles in Hre. injection Hre as <-.
  apply re_search_sound in Hsearch as (-> & Hm & _).
  rewrite pattern_of_gap in Hm |- * by done.
  apply matches_app_inv in Hm as (m1 & m' & -> & H1 & H2).
  inversion H2 as [| | | |? ws ? m2 Hws Hall H3]; subst.
  exists m1, ws, m2.
  split; [by rewrite <- !app_assoc|]. split; [done|].
  split; [done|]. split; [done|].
  split; [by apply (matches_pattern_last s1)|].
  split; [by apply (matches_pattern_head s2)|].
  split; [by apply matches_pattern_words|].
  split; [by apply matches_pattern_words|].
  intros ws' Hne Hsp. apply re_search_some.
  exists before, (m1 ++ ws' ++ m2), after.
  split; [by rewrite <- !app_assoc|].
  apply matches_app; [done|]. by apply matches_many.
Qed.

Lemma inter_token_whitespace_is_flexible_witness :
  exists m1 ws m2,
    str "  return x;" = str "  " ++ m1 ++ ws ++ m2 ++ str ";" /\
    str "return x" = m1 ++ ws ++ m2 /\
    ws <> [] /\ forallb is_space ws = true /\
    ends_in_token m1 = true /\ starts_with_token m2 = true /\
    str_split m1 = str_split (str "return") /\
    str_split m2 = str_split (str "x") /\
    forall ws',
      ws' <> [] -> forallb is_space ws' = true ->
      is_Some (re_search (pattern_of (str "return  x"))
                 (str "  " ++ m1 ++ ws' ++ m2 ++ str ";") false).
Proof.
  apply (inter_token_whitespace_is_flexible
           (str "return") (str "  ") (str "x")
           (pattern_of (str "return  x")) (str "  return x;")
           (str "  ") (str "return x") (str ";")).
  - apply (flexible_pattern_compiles (str "return  x")).
  - reflexivity.
  - reflexivity.
  - reflexivity.
  - vm_compute. reflexivity.
Defined.

(** X12. The chunks of a file are windows over its words: with
    [chunk_max_words] at least 1, the chunk at place [k] starts [k] steps
    into the words, runs for [chunk_max_words] words or to the last word,
    has its words joined by one space as code, counts its first word from
    1, and is never empty; every chunk but the first has at least
    [chunk_min_words] words. *)
Theorem chunks_are_windows_over_the_words :
  forall self fname w chunks records k c,
    FileProcessor.chunk_file self fname w = (Ok chunks, records) ->
    (1 <= FileProcessor.chunk_max_words self)%Z ->
    chunks !! k = Some c ->
    let words := file_words fname w in
    let s := (Z.of_nat k * FileProcessor.step self)%Z in
    let e := FileProcessor.end_idx c in
    FileProcessor.filename c = fname /\
    FileProcessor.start_idx c = (s + 1)%Z /\
    e = Z.min (s + FileProcessor.chunk_max_words self)%Z
          (Z.of_nat (length words)) /\
    FileProcessor.code c
    = str_join [SPACE] (take (Z.to_nat (e - s)%Z) (drop (Z.to_nat s) words)) /\
    (1 <= e - s <= FileProcessor.chunk_max_words self)%Z /\
    (k = O \/ (FileProcessor.chunk_min_words self <= e - s)%Z).
Proof.
  intros self fname w chunks records k c Hfile Hmax Hk. simpl.
  apply chunk_file_ok in Hfile as ->.
  apply chunk_loop_window in Hk as (Hs & Hf & Hst & He & Hc & Hm);
    [|done|done|lia].
  rewrite Z.add_0_l in *.
  assert (0 <= Z.of_nat k * FileProcessor.step self)%Z as Hs0.
  { unfold FileProcessor.step. nia. }
  destruct (py_slice_inside (file_words fname w)
              (Z.of_nat k * FileProcessor.step self)%Z (FileProcessor.end_idx c))
    as [Hslice _]; [done|lia|lia|].
  rewrite Hslice in Hc.
  repeat split; try done; try lia.
  destruct Hm as [Hm|Hm]; [|by right].
  left. unfold FileProcessor.step in Hm. nia.
Qed.

Lemma chunks_are_windows_over_the_words_witness :
  let self := {| FileProcessor.chunk_min_words := 2;
                 FileProcessor.chunk_max_words := 3;
                 FileProcessor.chunk_overlap_words := 1 |} in
  let fname := str "f.py" in
  let w := world_of [named "f.py" "a b  c d e f"] in
  let c := {| FileProcessor.filename := fname; FileProcessor.start_idx := 3;
              FileProcessor.end_idx := 5; FileProcessor.code := str "c d e" |} in
  let words := file_words fname w in
  let s := (Z.of_nat 1 * FileProcessor.step self)%Z in
  let e := FileProcessor.end_idx c in
  FileProcessor.filename c = fname /\
  FileProcessor.start_idx c = (s + 1)%Z /\
  e = Z.min (s + FileProcessor.chunk_max_words self)%Z
        (Z.of_nat (length words)) /\
  FileProcessor.code c
  = str_join [SPACE] (take (Z.to_nat (e - s)%Z) (drop (Z.to_nat s) words)) /\
  (1 <= e - s <= FileProcessor.chunk_max_words self)%Z /\
  (1%nat = O \/ (FileProcessor.chunk_min_words self <= e - s)%Z).
Proof.
  intros self fname w c.
  apply (chunks_are_windows_over_the_words self fname w
           [ {| FileProcessor.filename := fname; FileProcessor.start_idx := 1;
                FileProcessor.end_idx := 3; FileProcessor.code := str "a b c" |};
             c;
             {| FileProcessor.filename := fname; FileProcessor.start_idx := 5;
                FileProcessor.end_idx := 6; FileProcessor.code := str "e f" |} ]
           [FileProcessor.info_split fname 3] 1%nat c).
  - vm_compute. reflexivity.
  - vm_compute. discriminate.
  - reflexivity.
Defined.

(** X13. When the overlap is not negative and [chunk_min_words] is at most
    the overlap plus one and at most [chunk_max_words], no word of the file
    is lost: every word is in some chunk. *)
Theorem chunks_cover_every_word :
  forall self fname w chunks records i,
    FileProcessor.chunk_file self fname w = (Ok chunks, records) ->
    (1 <= FileProcessor.chunk_max_words self)%Z ->
    (0 <= FileProcessor.chunk_overlap_words self)%Z ->
    (FileProcessor.chunk_min_words self
     <= FileProcessor.chunk_overlap_words self + 1)%Z ->
    (FileProcessor.chunk_min_words self <= FileProcessor.chunk_max_words self)%Z ->
    (i < length (file_words fname w))%nat ->
    exists c, c ∈ chunks /\
      (FileProcessor.start_idx c <= Z.of_nat i + 1 <= FileProcessor.end_idx c)%Z.
Proof.
  intros self fname w chunks records i Hfile Hmax Hov Hmin Hmm Hi.
  apply chunk_file_ok in Hfile as ->.
  destruct (chunk_loop_covers self fname (file_words fname w)
              (length (file_words fname w)) 0%Z (Z.of_nat i))
    as [H|[H _]]; try done; lia.
Qed.

Lemma chunks_cover_every_word_witness :
  let self := {| FileProcessor.chunk_min_words := 2;
                 FileProcessor.chunk_max_words := 3;
                 FileProcessor.chunk_overlap_words := 1 |} in
  exists c,
    c ∈ [ {| FileProcessor.filename := str "f.py"; FileProcessor.start_idx := 1;
             FileProcessor.end_idx := 3; FileProcessor.code := str "a b c" |};
          {| FileProcessor.filename := str "f.py"; FileProcessor.start_idx := 3;
             FileProcessor.end_idx := 5; FileProcessor.code := str "c d e" |};
          {| FileProcessor.filename := str "f.py"; FileProcessor.start_idx := 5;
             FileProcessor.end_idx := 6; FileProcessor.code := str "e f" |} ] /\
    (FileProcessor.start_idx c <= Z.of_nat 5 + 1 <= FileProcessor.end_idx c)%Z.
Proof.
  intros self.
  apply (chunks_cover_every_word self (str "f.py")
           (world_of [named "f.py" "a b  c d e f"]) _
           [FileProcessor.info_split (str "f.py") 3] 5%nat).
  - vm_compute. reflexivity.
  - vm_compute. discriminate.
  - vm_compute. discriminate.
  - vm_compute. discriminate.
  - vm_compute. discriminate.
  - vm_compute. lia.
Defined.

(** X14. A short second chunk is not merged into the first, it is dropped:
    with [chunk_max_words] at least 1, when the words left one step into
    the file are fewer than [chunk_min_words], the file gives one chunk,
    its first [chunk_max_words] words, and the words after them are in no
    chunk.
    With the default parameters this is every file of 1001 to 1299
    words. *)
Theorem short_second_chunk_is_dropped :
  forall self fname w chunks records,
    FileProcessor.chunk_file self fname w = (Ok chunks, records) ->
    let words := file_words fname w in
    let total := Z.of_nat (length words) in
    (1 <= FileProcessor.chunk_max_words self)%Z ->
    (FileProcessor.step self < total)%Z ->
    (total - FileProcessor.step self < FileProcessor.chunk_min_words self)%Z ->
    chunks
    = [ {| FileProcessor.filename := fname;
           FileProcessor.start_idx := 1;
           FileProcessor.end_idx := Z.min (FileProcessor.chunk_max_words self) total;
           FileProcessor.code :=
             str_join [SPACE]
               (take (Z.to_nat (FileProcessor.chunk_max_words self)) words) |} ].
Proof.
  intros self fname w chunks records Hfile words total Hmax Hstep Hshort.
  apply chunk_file_ok in Hfile as ->. fold words.
  assert (1 <= FileProcessor.step self)%Z as Hs1
    by (unfold FileProcessor.step; lia).
  destruct (length words) as [|[|n]] eqn:El;
    [unfold total in *; lia|unfold total in *; lia|].
  cbn [FileProcessor.chunk_loop]. rewrite El.
  change (Z.of_nat (S (S n))) with total.
  destruct (Z.ltb_spec 0 total); [|lia].
  change (0 <? 0)%Z with false. rewrite andb_false_r.
  rewrite !Z.add_0_l. fold (FileProcessor.step self).
  destruct (Z.leb_spec total (FileProcessor.step self)); [lia|].
  destruct (Z.ltb_spec (FileProcessor.step self) total); [|lia].
  destruct (py_slice_inside words (FileProcessor.step self)
              (Z.min (FileProcessor.step self + FileProcessor.chunk_max_words self)
                 total)%Z) as [_ Hlen]; [lia|lia|unfold total; lia|].
  rewrite Hlen.
  destruct (Z.ltb_spec
              (Z.min (FileProcessor.step self + FileProcessor.chunk_max_words self)
                 total - FileProcessor.step self)
              (FileProcessor.chunk_min_words self)); [|lia].
  destruct (Z.ltb_spec 0 (FileProcessor.step self)); [|lia].
  simpl. do 2 f_equal.
  destruct (py_slice_inside words 0
              (Z.min (FileProcessor.chunk_max_words self) total))
    as [-> _]; [lia|lia|unfold total; lia|].
  rewrite Z.sub_0_r. simpl. rewrite drop_0.
  destruct (Z.le_ge_cases (FileProcessor.chunk_max_words self) total).
  - by rewrite Z.min_l.
  - rewrite Z.min_r by done. unfold total. rewrite Nat2Z.id.
    rewrite !take_ge by (unfold total in *; lia). done.
Qed.

Lemma short_second_chunk_is_dropped_witness :
  let self := {| FileProcessor.chunk_min_words := 3;
                 FileProcessor.chunk_max_words := 4;
                 FileProcessor.chunk_overlap_words := 1 |} in
  let fname := str "f.py" in
  let w := world_of [named "f.py" "a b c d e"] in
  let words := file_words fname w in
  let total := Z.of_nat (length words) in
  [ {| FileProcessor.filename := fname; FileProcessor.start_idx := 1;
       FileProcessor.end_idx := 4; FileProcessor.code := str "a b c d" |} ]
  = [ {| FileProcessor.filename := fname;
         FileProcessor.start_idx := 1;
         FileProcessor.end_idx := Z.min (FileProcessor.chunk_max_words self) total;
         FileProcessor.code :=
           str_join [SPACE]
             (take (Z.to_nat (FileProcessor.chunk_max_words self)) words) |} ].
Proof.
  intros self fname w.
  apply (short_second_chunk_is_dropped self fname w _
           [FileProcessor.info_split fname 1]).
  - vm_compute. reflexivity.
  - vm_compute. discriminate.
  - vm_compute. reflexivity.
  - vm_compute. reflexivity.
Defined.

(** X15. The code of a chunk splits back into its words: with
    [chunk_max_words] at least 1, splitting it at white space gives the
    words of the file from the chunk's first to its last, as many as its
    two indices say. *)
Theorem chunk_code_splits_back_into_its_words :
  forall self fname w chunks records c,
    FileProcessor.chunk_file self fname w = (Ok chunks, records) ->
    (1 <= FileProcessor.chunk_max_words self)%Z ->
    c ∈ chunks ->
    str_split (FileProcessor.code c)
    = FileProcessor.py_slice (file_words fname w)
        (FileProcessor.start_idx c - 1)%Z (FileProcessor.end_idx c) /\
    Z.of_nat (length (str_split (FileProcessor.code c)))
    = (FileProcessor.end_idx c - FileProcessor.start_idx c + 1)%Z.
Proof.
  intros self fname w chunks records c Hfile Hmax Hc.
  apply chunk_file_ok in Hfile as ->.
  apply list_elem_of_lookup in Hc as [k Hk].
  apply chunk_loop_window in Hk as (Hs & Hf & Hst & He & Hcode & Hm);
    [|done|done|lia].
  rewrite Z.add_0_l in *.
  assert (0 <= Z.of_nat k * FileProcessor.step self)%Z as Hs0.
  { unfold FileProcessor.step. nia. }
  replace (FileProcessor.start_idx c - 1)%Z
    with (Z.of_nat k * FileProcessor.step self)%Z by lia.
  destruct (py_slice_inside (file_words fname w)
              (Z.of_nat k * FileProcessor.step self)%Z (FileProcessor.end_idx c))
    as [Hslice Hlen]; [done|lia|lia|].
  assert (str_split (FileProcessor.code c)
          = FileProcessor.py_slice (file_words fname w)
              (Z.of_nat k * FileProcessor.step self)%Z (FileProcessor.end_idx c))
    as Heq.
  { rewrite Hcode. apply str_split_join. rewrite Hslice.
    apply Forall_take, Forall_drop. unfold file_words.
    destruct (snd (read_text fname w)); [apply str_split_tokens|constructor]. }
  split; [done|]. rewrite Heq, Hlen. lia.
Qed.

Lemma chunk_code_splits_back_into_its_words_witness :
  let fname := str "f.py" in
  let w := world_of [named "f.py" "a b  c d e f"] in
  let c := {| FileProcessor.filename := fname; FileProcessor.start_idx := 3;
              FileProcessor.end_idx := 5; FileProcessor.code := str "c d e" |} in
  str_split (FileProcessor.code c)
  = FileProcessor.py_slice (file_words fname w)
      (FileProcessor.start_idx c - 1)%Z (FileProcessor.end_idx c) /\
  Z.of_nat (length (str_split (FileProcessor.code c)))
  = (FileProcessor.end_idx c - FileProcessor.start_idx c + 1)%Z.
Proof.
  intros fname w c.
  apply (chunk_code_splits_back_into_its_words
           {| FileProcessor.chunk_min_words := 2;
              FileProcessor.chunk_max_words := 3;
              FileProcessor.chunk_overlap_words := 1 |} fname w
           [ {| FileProcessor.filename := fname; FileProcessor.start_idx := 1;
                FileProcessor.end_idx := 3; FileProcessor.code := str "a b c" |};
             c;
             {| FileProcessor.filename := fname; FileProcessor.start_idx := 5;
                FileProcessor.end_idx := 6; FileProcessor.code := str "e f" |} ]
           [FileProcessor.info_split fname 3] c).
  - vm_compute. reflexivity.
  - vm_compute. discriminate.
  - right. left.
Defined.

(** * The language of a file *)

Section Language.

Lemma str_split_on_not_nil sep s : str_split_on sep s <> [].
Proof.
  destruct s as [|c s]; [done|]. simpl.
  destruct (c =? sep); [done|]. by destruct (str_split_on sep s).
Qed.

(** A text without the separator is one piece. *)
Lemma str_split_on_whole sep s : sep ∉ s -> str_split_on sep s = [s].
Proof.
  induction s as [|c s IH]; intros Hs; [done|].
  apply not_elem_of_cons in Hs as [Hc Hs]. simpl.
  destruct (N.eqb_spec c sep) as [->|_]; [done|]. by rewrite IH.
Qed.

(** Splitting goes through a separator. *)
Lemma str_split_on_app sep a b :
  str_split_on sep (a ++ sep :: b) = str_split_on sep a ++ str_split_on sep b.
Proof.
  induction a as [|c a IH]; simpl.
  - by rewrite N.eqb_refl.
  - destruct (c =? sep); [by rewrite IH|]. rewrite IH.
    pose proof (str_split_on_not_nil sep a).
    by destruct (str_split_on sep a).
Qed.

(** The text after the last dot of a name, or the whole name. *)
Lemma last_dot s :
  DOT ∉ s \/ exists stem ext, s = stem ++ DOT :: ext /\ DOT ∉ ext.
Proof.
  induction s as [|c s [IH|(stem & ext & -> & Hext)]].
  - left. apply not_elem_of_nil.
  - destruct (N.eqb_spec c DOT) as [->|Hc].
    + right. by exists [], s.
    + left. by apply not_elem_of_cons.
  - right. by exists (c :: stem), ext.
Qed.

Lemma last_piece_whole s : DOT ∉ s -> last (str_split_on DOT s) = Some s.
Proof. intros Hs. by rewrite str_split_on_whole. Qed.

Lemma last_piece_after_dot stem ext :
  DOT ∉ ext -> last (str_split_on DOT (stem ++ DOT :: ext)) = Some ext.
Proof.
  intros Hext. rewrite str_split_on_app, last_app.
  by rewrite last_piece_whole.
Qed.

(** No extension of the table has a dot in it. *)
Lemma supported_extension_has_no_dot ext lang :
  FileProcessor.SUPPORTED_LANGUAGES !! ext = Some lang -> DOT ∉ ext.
Proof.
  intros H. apply elem_of_list_to_map_2 in H.
  repeat (apply elem_of_cons in H as [[= -> ->]|H];
          [apply (bool_decide_unpack _); vm_compute; exact I|]).
  by apply elem_of_nil in H.
Qed.

End Language.

(** X16. [detect_language] goes by the text after the last dot of the name,
    and by the whole name when it has no dot: a name has the language
    [lang] exactly when it is an extension of the table with that language,
    or ends in a dot and such an extension. *)
Theorem detect_language_goes_by_the_text_after_the_last_dot :
  forall filename lang,
    detect_language filename = Some lang <->
    exists ext,
      FileProcessor.SUPPORTED_LANGUAGES !! ext = Some lang /\
      (filename = ext \/ exists stem, filename = stem ++ DOT :: ext).
Proof.
  intros filename lang. unfold detect_language. split.
  - destruct (last_dot filename) as [Hs|(stem & ext & -> & Hext)].
    + rewrite last_piece_whole by done. intros H. exists filename. by split; [|left].
    + rewrite last_piece_after_dot by done. intros H. exists ext.
      split; [done|]. right. by exists stem.
  - intros (ext & Hl & [->|[stem ->]]);
      pose proof (supported_extension_has_no_dot _ _ Hl).
    + by rewrite last_piece_whole.
    + by rewrite last_piece_after_dot.
Qed.

(** * The end of the chunking loop *)

Section Rounds.

Import FileProcessor.
Local Open Scope Z_scope.

(** Two counts of rounds that both reach the end of the words give the
    same chunks. *)
Lemma chunk_loop_rounds self fname words : forall fuel fuel' start,
  0 <= start ->
  Z.of_nat (length words) - start <= Z.of_nat fuel ->
  Z.of_nat (length words) - start <= Z.of_nat fuel' ->
  chunk_loop fuel self fname words start
  = chunk_loop fuel' self fname words start.
Proof.
  induction fuel as [|fuel IH]; intros [|fuel'] start Hs Hf Hf'; [done| | |].
  - cbn [chunk_loop]. destruct (Z.ltb_spec start (Z.of_nat (length words)));
      [simpl in Hf; lia|done].
  - cbn [chunk_loop]. destruct (Z.ltb_spec start (Z.of_nat (length words)));
      [simpl in Hf'; lia|done].
  - cbn [chunk_loop].
    destruct (start <? Z.of_nat (length words)); [|done].
    destruct (_ && _); [done|]. cbv zeta. f_equal.
    destruct (Z.leb_spec (Z.of_nat (length words))
                (start + Z.max (chunk_max_words self - chunk_overlap_words self) 1));
      [done|].
    apply IH; lia.
Qed.

End Rounds.

(** X17. The loop of [chunk_file] ends within as many rounds as the file has
    words, whatever the three parameters are, an overlap above
    [chunk_max_words] or negative numbers too: rounds allowed beyond the
    number of words add no chunk. *)
Theorem chunking_ends_within_one_round_per_word :
  forall self fname words fuel,
    (length words <= fuel)%nat ->
    FileProcessor.chunk_loop fuel self fname words 0
    = FileProcessor.chunk_loop (length words) self fname words 0.
Proof.
  intros self fname words fuel Hfuel. apply chunk_loop_rounds; lia.
Qed.

Lemma chunking_ends_within_one_round_per_word_witness :
  let self := {| FileProcessor.chunk_min_words := 0;
                 FileProcessor.chunk_max_words := 2;
                 FileProcessor.chunk_overlap_words := 5 |} in
  let words := [str "a"; str "b"; str "c"] in
  FileProcessor.chunk_loop 50 self (str "f.py") words 0
  = FileProcessor.chunk_loop (length words) self (str "f.py") words 0.
Proof.
  intros self words.
  apply (chunking_ends_within_one_round_per_word self (str "f.py") words 50).
  vm_compute. lia.
Defined.

(** * The exceptions that leave the batch *)

Section Raising.

(** The lookup of a non-empty name of the batch fails. *)
Let fails (w : world) (instructions : list CodeInstruction) : Prop :=
  exists i, i ∈ instructions /\ truthy (filename i) = true /\
            resolve w (filename i) = lookup_fails.

Lemma apply_instructions_raises instructions w :
  fails w instructions ->
  snd (_apply_instructions instructions w) = Raise io_error.
Proof.
  intros (i & Hi & Ht & Hf).
  assert ((filename i, group_of (filename i) instructions)
          ∈ group_by_file instructions) as Hin
    by (apply group_by_file_spec; eauto).
  by apply (for_each_raises _ w _ _ Hin).
Qed.

Lemma apply_instructions_returns instructions w :
  ~ fails w instructions ->
  snd (_apply_instructions instructions w) = Ok tt.
Proof.
  intros Hno. apply for_each_returns. intros f file_instructions Hin Hf.
  assert (f ∈ map fst (group_by_file instructions)) as Hk
    by (apply list_elem_of_fmap; by exists (f, file_instructions)).
  apply group_by_file_key in Hk as (Ht & i & Hi & <-).
  apply Hno. by exists i.
Qed.

End Raising.

(** X18. No exception of reading a file, of applying an instruction or of
    writing leaves the batch: [_apply_instructions] raises exactly when
    the lookup behind [Path.exists] fails for a non-empty file name of the
    batch, with the error of that lookup, and returns otherwise. *)
Theorem batch_raises_exactly_on_a_failed_lookup :
  forall instructions w,
    (snd (_apply_instructions instructions w) = Raise io_error <->
     exists i, i ∈ instructions /\ truthy (filename i) = true /\
               resolve w (filename i) = lookup_fails) /\
    (snd (_apply_instructions instructions w) = Ok tt <->
     ~ exists i, i ∈ instructions /\ truthy (filename i) = true /\
                 resolve w (filename i) = lookup_fails).
Proof.
  intros instructions w.
  set (failed := exists i, i ∈ instructions /\ truthy (filename i) = true /\
                           resolve w (filename i) = lookup_fails).
  assert (failed \/ ~ failed) as [H|H].
  { unfold failed.
    destruct (existsb (fun i => truthy (filename i) &&
                match resolve w (filename i) with
                | lookup_fails => true
                | _ => false
                end) instructions) eqn:E.
    - left. apply existsb_exists in E as (i & Hi & E).
      apply andb_prop in E as [Ht Hf]. exists i.
      split; [by apply list_elem_of_In|]. split; [done|].
      by destruct (resolve w (filename i)).
    - right. intros (i & Hi & Ht & Hf).
      assert (existsb (fun i => truthy (filename i) &&
                match resolve w (filename i) with
                | lookup_fails => true
                | _ => false
                end) instructions = true) as E'; [|congruence].
      apply existsb_exists. exists i. split; [by apply list_elem_of_In|].
      by rewrite Ht, Hf. }
  - pose proof (apply_instructions_raises instructions w H) as Hr.
    rewrite Hr. split; [done|]. split; [discriminate|done].
  - pose proof (apply_instructions_returns instructions w H) as Hr.
    rewrite Hr. split; [split; [discriminate|done]|done].
Qed.
